(** * ScribeSnap backend: resilience and orchestration core

    A shallow embedding of
      - [app/exceptions.py]               (the exception hierarchy),
      - [app/services/gemini_service.py]  (CircuitBreaker, GeminiService),
      - [app/middleware/rate_limit.py]    (RateLimitMiddleware.dispatch),
      - [app/services/note_service.py]    (NoteService.parse_note, list_notes),
    followed by the properties of the specification stated over it.

    Conventions.
      - [time.time()] readings are exact rationals ([Q]); Python's [int(x)]
        on such a reading truncates toward zero ([py_int]).
      - Python [int] values are [Z].
      - A Python exception is a value of [exn]; a call that may raise returns
        a [result].
      - Collaborators whose inner working no property here depends on (the
        Gemini SDK, the database flush, FileService's validation and
        storage, the clock) are oracles of an [Env]. *)

From Stdlib Require Import ZArith QArith Qround List String Bool Lia Lqa.
From stdpp Require Import gmap strings list.
Import ListNotations.

Local Open Scope string_scope.
Local Open Scope list_scope.
Local Open Scope Z_scope.

(** ** Python values *)

(** [int(x)] for a float [x]: truncation toward zero. *)
Definition py_int (x : Q) : Z := Z.quot (Qnum x) (Zpos (Qden x)).

(** Strict comparison of two clock readings. *)
Definition Qltb (a b : Q) : bool := negb (Qle_bool b a).

(** Values stored in an exception's [context] dict. *)
Inductive ctx_val :=
| CtxStr (s : string)
| CtxInt (z : Z).

Definition context := list (string * ctx_val).

(** ** app/exceptions.py *)

(** What the body of [_call_gemini_with_retry] can raise: exceptions of the
    SDK and of the runtime, never one of the application's own classes.
    [CancelledError] derives from [BaseException], not from [Exception]. *)
Inductive sdk_exn :=
| ConnectionError (msg : string)
| TimeoutError (msg : string)
| OtherException (type_name msg : string)
| CancelledError.

Inductive exn :=
| Sdk (e : sdk_exn)
| RetryError (last_attempt : exn)
| ValidationError (message : string)
| FileStorageError (message : string)
| LLMServiceError (message : string) (retry_after : option Z) (ctx : context)
| CircuitBreakerOpenError (recovery_time : Z)
| DatabaseError (message : string) (ctx : context)
| SQLAlchemyError (msg : string)
| TypeError (msg : string)
| IndexError (msg : string).

Inductive result (A : Type) :=
| Ok (a : A)
| Err (e : exn).
Arguments Ok {A} a.
Arguments Err {A} e.

(** [isinstance(e, Exception)] *)
Definition sdk_is_Exception (e : sdk_exn) : bool :=
  match e with
  | CancelledError => false
  | _ => true
  end.

Definition is_Exception (e : exn) : bool :=
  match e with
  | Sdk s => sdk_is_Exception s
  | _ => true
  end.

(** [isinstance(e, ScribeSnapError)] *)
Definition is_ScribeSnapError (e : exn) : bool :=
  match e with
  | ValidationError _ | FileStorageError _ | LLMServiceError _ _ _
  | CircuitBreakerOpenError _ | DatabaseError _ _ => true
  | _ => false
  end.

(** [isinstance(e, LLMServiceError)] *)
Definition is_LLMServiceError (e : exn) : bool :=
  match e with
  | LLMServiceError _ _ _ => true
  | _ => false
  end.

(** [type(e).__name__] *)
Definition sdk_type_name (e : sdk_exn) : string :=
  match e with
  | ConnectionError _ => "ConnectionError"
  | TimeoutError _ => "TimeoutError"
  | OtherException n _ => n
  | CancelledError => "CancelledError"
  end.

Definition type_name (e : exn) : string :=
  match e with
  | Sdk s => sdk_type_name s
  | RetryError _ => "RetryError"
  | ValidationError _ => "ValidationError"
  | FileStorageError _ => "FileStorageError"
  | LLMServiceError _ _ _ => "LLMServiceError"
  | CircuitBreakerOpenError _ => "CircuitBreakerOpenError"
  | DatabaseError _ _ => "DatabaseError"
  | SQLAlchemyError _ => "SQLAlchemyError"
  | TypeError _ => "TypeError"
  | IndexError _ => "IndexError"
  end.

(** [LLMServiceError.__init__]: [retry_after] enters the context only when
    it is truthy (neither [None] nor [0]). *)
Definition mk_LLMServiceError
    (message : string) (retry_after : option Z) (ctx : context) : exn :=
  let ctx' :=
    match retry_after with
    | Some r => if r =? 0 then ctx else ctx ++ [("retry_after", CtxInt r)]
    | None => ctx
    end in
  LLMServiceError message retry_after ctx'.

(** ** app/config.py: the settings the core reads *)

Record Settings := {
  retry_max_attempts : Z;
  cb_failure_threshold : Z;
  cb_recovery_timeout : Z;
  rate_limit_requests : Z;
  rate_limit_window : Z
}.

(** The defaults of [Settings]. *)
Definition default_settings : Settings :=
  {| retry_max_attempts := 3;
     cb_failure_threshold := 5;
     cb_recovery_timeout := 60;
     rate_limit_requests := 100;
     rate_limit_window := 3600 |}.

(** ** app/services/gemini_service.py: CircuitBreaker *)

Inductive cb_state := CLOSED | OPEN | HALF_OPEN.

Record CircuitBreaker := {
  failure_threshold : Z;
  recovery_timeout : Z;
  failure_count : Z;
  state : cb_state;
  last_failure_time : option Q
}.

(** [CircuitBreaker.__init__] *)
Definition CircuitBreaker_init (threshold timeout : Z) : CircuitBreaker :=
  {| failure_threshold := threshold;
     recovery_timeout := timeout;
     failure_count := 0;
     state := CLOSED;
     last_failure_time := None |}.

(** [self.last_failure_time or 0] *)
Definition or_zero (t : option Q) : Q :=
  match t with
  | Some v => if Qeq_bool v 0 then 0%Q else v
  | None => 0%Q
  end.

(** [CircuitBreaker.can_execute], with [now] the value of [time.time()]. *)
Definition can_execute (now : Q) (cb : CircuitBreaker)
  : result bool * CircuitBreaker :=
  match state cb with
  | CLOSED => (Ok true, cb)
  | OPEN =>
      let elapsed := (now - or_zero (last_failure_time cb))%Q in
      if Qle_bool (inject_Z (recovery_timeout cb)) elapsed then
        (Ok true,
         {| failure_threshold := failure_threshold cb;
            recovery_timeout := recovery_timeout cb;
            failure_count := failure_count cb;
            state := HALF_OPEN;
            last_failure_time := last_failure_time cb |})
      else
        let remaining := py_int (inject_Z (recovery_timeout cb) - elapsed)%Q in
        (Err (CircuitBreakerOpenError remaining), cb)
  | HALF_OPEN => (Ok true, cb)
  end.

(** [CircuitBreaker.record_success] *)
Definition record_success (cb : CircuitBreaker) : CircuitBreaker :=
  {| failure_threshold := failure_threshold cb;
     recovery_timeout := recovery_timeout cb;
     failure_count := 0;
     state := CLOSED;
     last_failure_time := None |}.

(** [CircuitBreaker.record_failure], with [now] the value of [time.time()]. *)
Definition record_failure (now : Q) (cb : CircuitBreaker) : CircuitBreaker :=
  let count := failure_count cb + 1 in
  {| failure_threshold := failure_threshold cb;
     recovery_timeout := recovery_timeout cb;
     failure_count := count;
     state :=
       match state cb with
       | HALF_OPEN => OPEN
       | s => if failure_threshold cb <=? count then OPEN else s
       end;
     last_failure_time := Some now |}.

(** A run of [record_failure] calls at the given clock readings. *)
Definition record_failures (ts : list Q) (cb : CircuitBreaker) : CircuitBreaker :=
  fold_left (fun c t => record_failure t c) ts cb.

(** ** The world the services act on *)

(** A [Note] ORM object.  [id], [created_at] and [retry_count] have column
    defaults: they are unset until the object is inserted by a flush. *)
Record Note := {
  note_id : option nat;
  image_path : string;
  parsed_text : string;
  created_at : option Z;
  status : string;
  error_message : option string;
  retry_count : option Z
}.

(** A row of the [notes] table. *)
Record Row := {
  row_id : nat;
  row_image_path : string;
  row_parsed_text : string;
  row_created_at : Z;
  row_status : string;
  row_error_message : option string;
  row_retry_count : Z
}.

(** What happened, in order. *)
Inductive Event :=
| EvValidated (absolute relative : string)
| EvDbAdd (n : Note)
| EvFlush (rows : list Row)          (* a flush that succeeded, and the table after it *)
| EvFlushFailed
| EvCanExecute (admitted : bool)
| EvApiAttempt (k : nat) (rows : list Row)  (* the k-th call of the API, and the table at that moment *)
| EvRecordSuccess
| EvRecordFailure
| EvCleanup (path : string).

Record World := {
  breaker : CircuitBreaker;      (* gemini_service.circuit_breaker *)
  api_calls : nat;               (* invocations of the Gemini API so far *)
  session_note : option Note;    (* the Note tracked by the request's session *)
  table : list Row;              (* the notes table, as flushed *)
  flushes : nat;                 (* db.flush() calls so far *)
  files : list string;           (* stored image files, by absolute path *)
  trace : list Event
}.

Definition set_breaker (cb : CircuitBreaker) (w : World) : World :=
  {| breaker := cb; api_calls := api_calls w; session_note := session_note w;
     table := table w; flushes := flushes w; files := files w; trace := trace w |}.

Definition set_api_calls (k : nat) (w : World) : World :=
  {| breaker := breaker w; api_calls := k; session_note := session_note w;
     table := table w; flushes := flushes w; files := files w; trace := trace w |}.

Definition set_session_note (n : option Note) (w : World) : World :=
  {| breaker := breaker w; api_calls := api_calls w; session_note := n;
     table := table w; flushes := flushes w; files := files w; trace := trace w |}.

Definition set_table (t : list Row) (w : World) : World :=
  {| breaker := breaker w; api_calls := api_calls w; session_note := session_note w;
     table := t; flushes := flushes w; files := files w; trace := trace w |}.

Definition set_flushes (k : nat) (w : World) : World :=
  {| breaker := breaker w; api_calls := api_calls w; session_note := session_note w;
     table := table w; flushes := k; files := files w; trace := trace w |}.

Definition set_files (fs : list string) (w : World) : World :=
  {| breaker := breaker w; api_calls := api_calls w; session_note := session_note w;
     table := table w; flushes := flushes w; files := fs; trace := trace w |}.

Definition log (e : Event) (w : World) : World :=
  {| breaker := breaker w; api_calls := api_calls w; session_note := session_note w;
     table := table w; flushes := flushes w; files := files w;
     trace := trace w ++ [e] |}.

(** Outcomes of the collaborators. *)
Inductive sdk_result :=
| SdkOk (text : string)
| SdkErr (e : sdk_exn).

Inductive store_failure :=
| InvalidFile (message : string)
| StorageFailed (message : string).

Record Env := {
  (* file_service.validate_and_store(filename, content, content_length) *)
  env_validate_and_store :
    string -> list Byte.byte -> option Z -> (string * string) + store_failure;
  (* the k-th db.flush(): None when it succeeds, the database error otherwise *)
  env_flush : nat -> option string;
  (* uuid4() and datetime.now(timezone.utc) used by the k-th flush *)
  env_uuid4 : nat -> nat;
  env_utcnow : nat -> Z;
  (* the k-th run of the body of _call_gemini_with_retry *)
  env_generate_content : nat -> sdk_result;
  (* str(uuid.uuid4())[:8] *)
  env_request_id : string;
  (* time.time() as read by can_execute and by record_failure *)
  env_time_check : Q;
  env_time_failure : Q
}.

(** ** State and exceptions *)

Definition M (S A : Type) : Type := S -> result A * S.

Definition ret {S A} (a : A) : M S A := fun s => (Ok a, s).

Definition bind {S A B} (m : M S A) (k : A -> M S B) : M S B :=
  fun s =>
    match m s with
    | (Ok a, s') => k a s'
    | (Err e, s') => (Err e, s')
    end.

Definition raise {S A} (e : exn) : M S A := fun s => (Err e, s).

Definition gets {S A} (f : S -> A) : M S A := fun s => (Ok (f s), s).

Definition modify {S} (f : S -> S) : M S unit := fun s => (Ok tt, f s).

(** [try: body  except ... as e: handler e] *)
Definition try_except {S A} (body : M S A) (handler : exn -> M S A) : M S A :=
  fun s =>
    match body s with
    | (Ok a, s') => (Ok a, s')
    | (Err e, s') => handler e s'
    end.

Declare Scope py_scope.
Delimit Scope py_scope with py.
Notation "x <- m ;; k" := (bind m (fun x => k))
  (at level 100, m at next level, right associativity) : py_scope.
Notation "m ;; k" := (bind m (fun _ => k))
  (at level 100, right associativity) : py_scope.
Local Open Scope py_scope.

(** ** tenacity's [@retry], as the source configures it

    [retry=retry_if_exception_type(...)], [stop=stop_after_attempt(n)] and
    [reraise]: the wrapped call is attempted; a result is returned; an
    exception outside the retried types propagates at once; an exception of
    a retried type is followed by another attempt unless the attempt number
    has reached [n], where the last exception itself is raised when
    [reraise] is set and a [RetryError] wrapping it otherwise.  The waits
    between attempts change no state of the model. *)
Section Tenacity.
Context {S A : Type}.
Variable retry_if_exception_type : exn -> bool.
Variable reraise : bool.
Variable f : M S A.

(** [remaining]: attempts still allowed after the current one. *)
Fixpoint retry_loop (remaining : nat) : M S A :=
  fun s =>
    match f s with
    | (Ok a, s') => (Ok a, s')
    | (Err e, s') =>
        if negb (retry_if_exception_type e) then (Err e, s')
        else
          match remaining with
          | O => (Err (if reraise then e else RetryError e), s')
          | Datatypes.S r => retry_loop r s'
          end
    end.

Definition retry (stop_after_attempt : Z) : M S A :=
  retry_loop (Z.to_nat (stop_after_attempt - 1)).
End Tenacity.

(** ** app/services/gemini_service.py: GeminiService *)

(** The body of [_call_gemini_with_retry]: one call of the Gemini API. *)
Definition call_gemini (env : Env) (image_path : string) : M World string :=
  fun w =>
    let k := api_calls w in
    let w' := log (EvApiAttempt k (table w)) (set_api_calls (Datatypes.S k) w) in
    match env_generate_content env k with
    | SdkOk text => (Ok text, w')
    | SdkErr e => (Err (Sdk e), w')
    end.

(** [_call_gemini_with_retry]: the body under
    [@retry(retry=retry_if_exception_type((ConnectionError, TimeoutError,
    Exception)), stop=stop_after_attempt(settings.retry_max_attempts),
    reraise=True)]. *)
Definition _call_gemini_with_retry
    (settings : Settings) (env : Env) (image_path : string) : M World string :=
  retry is_Exception true (call_gemini env image_path)
        (retry_max_attempts settings).

(** [self.circuit_breaker.can_execute()] *)
Definition breaker_can_execute (env : Env) : M World bool :=
  fun w =>
    match can_execute (env_time_check env) (breaker w) with
    | (Ok b, cb) => (Ok b, log (EvCanExecute true) (set_breaker cb w))
    | (Err e, cb) => (Err e, log (EvCanExecute false) (set_breaker cb w))
    end.

(** [self.circuit_breaker.record_success()] *)
Definition breaker_record_success : M World unit :=
  modify (fun w => log EvRecordSuccess (set_breaker (record_success (breaker w)) w)).

(** [self.circuit_breaker.record_failure()] *)
Definition breaker_record_failure (env : Env) : M World unit :=
  modify (fun w =>
    log EvRecordFailure
        (set_breaker (record_failure (env_time_failure env) (breaker w)) w)).

Definition msg_retries_exhausted : string :=
  "AI text extraction failed after multiple attempts. Please try again later.".

Definition msg_unexpected : string :=
  "An unexpected error occurred during text extraction.".

(** [GeminiService.parse_image] *)
Definition parse_image
    (settings : Settings) (env : Env) (image_path : string) : M World string :=
  breaker_can_execute env ;;
  try_except
    (result <- _call_gemini_with_retry settings env image_path ;;
     breaker_record_success ;;
     ret result)
    (fun e =>
       match e with
       | CircuitBreakerOpenError _ => raise e
       | RetryError _ =>
           breaker_record_failure env ;;
           timeout <- gets (fun w => recovery_timeout (breaker w)) ;;
           raise (mk_LLMServiceError msg_retries_exhausted (Some timeout)
                    [("request_id", CtxStr (env_request_id env));
                     ("attempts", CtxInt (retry_max_attempts settings))])
       | _ =>
           if is_Exception e then
             breaker_record_failure env ;;
             raise (mk_LLMServiceError msg_unexpected None
                      [("request_id", CtxStr (env_request_id env));
                       ("error_type", CtxStr (type_name e))])
           else raise e
       end).

(** ** The collaborators of NoteService *)

(** [file_service.validate_and_store]: on success the file is on disk. *)
Definition validate_and_store
    (env : Env) (filename : string) (content : list Byte.byte)
    (content_length : option Z) : M World (string * string) :=
  fun w =>
    match env_validate_and_store env filename content content_length with
    | inl (absolute, relative) =>
        (Ok (absolute, relative),
         log (EvValidated absolute relative) (set_files (absolute :: files w) w))
    | inr (InvalidFile m) => (Err (ValidationError m), w)
    | inr (StorageFailed m) => (Err (FileStorageError m), w)
    end.

(** [file_service.cleanup_file]: removes the file if it exists, never raises. *)
Definition cleanup_file (path : string) : M World unit :=
  modify (fun w =>
    log (EvCleanup path)
        (set_files (List.filter (fun p => negb (String.eqb p path)) (files w)) w)).

(** The row an ORM object is written as. *)
Definition row_of (id : nat) (created : Z) (retries : Z) (n : Note) : Row :=
  {| row_id := id;
     row_image_path := image_path n;
     row_parsed_text := parsed_text n;
     row_created_at := created;
     row_status := status n;
     row_error_message := error_message n;
     row_retry_count := retries |}.

Definition from_option_Z (d : Z) (o : option Z) : Z :=
  match o with Some z => z | None => d end.

(** [db.add(note)] *)
Definition db_add (n : Note) : M World unit :=
  modify (fun w => log (EvDbAdd n) (set_session_note (Some n) w)).

(** [await db.flush()]: writes the tracked object to the table.  A new
    object is inserted, the column defaults ([id], [created_at],
    [retry_count = 0]) are applied and are visible on the object afterwards;
    an object that has an id updates its row.  A failing flush raises and
    writes nothing. *)
Definition db_flush (env : Env) : M World unit :=
  fun w =>
    let k := flushes w in
    let w := set_flushes (Datatypes.S k) w in
    match env_flush env k with
    | Some msg => (Err (SQLAlchemyError msg), log EvFlushFailed w)
    | None =>
        match session_note w with
        | None => (Ok tt, log (EvFlush (table w)) w)
        | Some n =>
            let id :=
              match note_id n with Some i => i | None => env_uuid4 env k end in
            let created := from_option_Z (env_utcnow env k) (created_at n) in
            let retries := from_option_Z 0 (retry_count n) in
            let n' :=
              {| note_id := Some id;
                 image_path := image_path n;
                 parsed_text := parsed_text n;
                 created_at := Some created;
                 status := status n;
                 error_message := error_message n;
                 retry_count := Some retries |} in
            let r := row_of id created retries n in
            let t' :=
              match note_id n with
              | None => table w ++ [r]
              | Some i =>
                  List.map (fun r0 => if Nat.eqb (row_id r0) i then r else r0)
                           (table w)
              end in
            (Ok tt, log (EvFlush t') (set_table t' (set_session_note (Some n') w)))
        end
    end.

(** ** app/services/note_service.py: NoteService.parse_note *)

Record NoteResponse := {
  nr_id : option nat;
  nr_image_url : string;
  nr_parsed_text : string;
  nr_created_at : option Z;
  nr_status : string;
  nr_error_message : option string
}.

Record ParseResponse := {
  pr_message : string;
  pr_parsed_text : string;
  pr_note : NoteResponse
}.

(** The locals of [parse_note] that its handlers read, and the world.  The
    local [note] and the session's entry are the same object: it lives in
    [session_note], which is [None] until the object is constructed and
    added. *)
Record Frame := {
  absolute_path : option string;
  world : World
}.

Definition lift {A} (m : M World A) : M Frame A :=
  fun fr =>
    let '(r, w) := m (world fr) in
    (r, {| absolute_path := absolute_path fr; world := w |}).

Definition set_absolute_path (p : string) : M Frame unit :=
  modify (fun fr => {| absolute_path := Some p; world := world fr |}).

(** Attribute writes on the tracked [note]. *)
Definition note_update (f : Note -> Note) : M World unit :=
  modify (fun w => set_session_note (option_map f (session_note w)) w).

Definition with_parsed_text (t : string) (n : Note) : Note :=
  {| note_id := note_id n; image_path := image_path n; parsed_text := t;
     created_at := created_at n; status := status n;
     error_message := error_message n; retry_count := retry_count n |}.

Definition with_status (s : string) (n : Note) : Note :=
  {| note_id := note_id n; image_path := image_path n;
     parsed_text := parsed_text n; created_at := created_at n; status := s;
     error_message := error_message n; retry_count := retry_count n |}.

Definition with_error_message (m : option string) (n : Note) : Note :=
  {| note_id := note_id n; image_path := image_path n;
     parsed_text := parsed_text n; created_at := created_at n;
     status := status n; error_message := m; retry_count := retry_count n |}.

Definition with_retry_count (c : Z) (n : Note) : Note :=
  {| note_id := note_id n; image_path := image_path n;
     parsed_text := parsed_text n; created_at := created_at n;
     status := status n; error_message := error_message n;
     retry_count := Some c |}.

(** [e.message] *)
Definition exn_message (e : exn) : string :=
  match e with
  | LLMServiceError m _ _ => m
  | ValidationError m | FileStorageError m | DatabaseError m _ => m
  | _ => ""
  end.

(** [Note(image_path=relative_path, parsed_text="", status="processing")] *)
Definition new_note (relative_path : string) : Note :=
  {| note_id := None; image_path := relative_path; parsed_text := "";
     created_at := None; status := "processing"; error_message := None;
     retry_count := None |}.

Definition note_response (relative_path : string) (n : Note) : NoteResponse :=
  {| nr_id := note_id n;
     nr_image_url := "/api/files/" ++ relative_path;
     nr_parsed_text := parsed_text n;
     nr_created_at := created_at n;
     nr_status := status n;
     nr_error_message := error_message n |}.

(** Steps 1 and 2 of the [try] block: validate and store the file, create
    the [Note] in state [processing], flush. *)
Definition store_and_record
    (env : Env) (filename : string) (content : list Byte.byte)
    (content_length : option Z)
  : M Frame (string * string) :=
  paths <- lift (validate_and_store env filename content content_length) ;;
  let '(absolute, relative_path) := paths in
  set_absolute_path absolute ;;
  lift (db_add (new_note relative_path)) ;;
  lift (db_flush env) ;;
  ret (absolute, relative_path).

(** Steps 4 and 5: record the parsed text, flush, build the response. *)
Definition complete_note
    (env : Env) (relative_path text : string) : M Frame ParseResponse :=
  lift (note_update (with_parsed_text text)) ;;
  lift (note_update (with_status "completed")) ;;
  lift (db_flush env) ;;
  note <- lift (gets session_note) ;;
  match note with
  | Some n =>
      ret {| pr_message := "Note parsed successfully";
             pr_parsed_text := text;
             pr_note := note_response relative_path n |}
  | None => raise (TypeError "note is None")
  end.

(** The [try] block of [parse_note]; step 3 is the protected call. *)
Definition parse_note_try
    (settings : Settings) (env : Env) (filename : string)
    (content : list Byte.byte) (content_length : option Z)
  : M Frame ParseResponse :=
  paths <- store_and_record env filename content content_length ;;
  let '(absolute, relative_path) := paths in
  text <- lift (parse_image settings env absolute) ;;
  complete_note env relative_path text.

(** [except (LLMServiceError,) as e] *)
Definition on_llm_error (env : Env) (e : exn) : M Frame ParseResponse :=
  note <- lift (gets session_note) ;;
  match note with
  | Some n =>
      lift (note_update (with_status "failed")) ;;
      lift (note_update (with_error_message (Some (exn_message e)))) ;;
      match retry_count n with
      | Some c =>
          lift (note_update (with_retry_count (c + 1))) ;;
          try_except (lift (db_flush env))
            (fun e' => if is_Exception e' then ret tt else raise e') ;;
          raise e
      | None => raise (TypeError "unsupported operand type(s) for +=")
      end
  | None => raise e
  end.

(** [except Exception as e]; [if absolute_path:] holds for a path that is
    set and not the empty string. *)
Definition on_exception (e : exn) : M Frame ParseResponse :=
  path <- gets absolute_path ;;
  match path with
  | Some p => if String.eqb p "" then ret tt else lift (cleanup_file p)
  | None => ret tt
  end ;;
  if is_ScribeSnapError e then raise e
  else
    raise (DatabaseError
             "An error occurred while processing your note. Please try again."
             [("original_error", CtxStr (type_name e))]).

(** [NoteService.parse_note] *)
Definition parse_note
    (settings : Settings) (env : Env) (filename : string)
    (content : list Byte.byte) (content_length : option Z)
  : M World ParseResponse :=
  fun w =>
    let run :=
      try_except
        (parse_note_try settings env filename content content_length)
        (fun e =>
           if is_LLMServiceError e then on_llm_error env e
           else if is_Exception e then on_exception e
           else raise e) in
    let '(r, fr) := run {| absolute_path := None; world := w |} in
    (r, world fr).

(** ** app/middleware/rate_limit.py: RateLimitMiddleware *)

Definition EXCLUDED_PATHS : list string :=
  ["/health"; "/docs"; "/openapi.json"; "/redoc"].

(** What [dispatch] answers: the request goes on to the application, or a
    429 with its [Retry-After]. *)
Inductive Response :=
| CallNext
| TooManyRequests (retry_after : Z).

(** [max(timestamps)] of a non-empty list. *)
Definition py_max (t : Q) (ts : list Q) : Q :=
  fold_left (fun m x => if Qltb m x then x else m) ts t.

(** [not timestamps or max(timestamps) < window_start] *)
Definition inactive (window_start : Q) (timestamps : list Q) : bool :=
  match timestamps with
  | [] => true
  | t :: ts => Qltb (py_max t ts) window_start
  end.

(** [_cleanup_inactive_ips] *)
Definition _cleanup_inactive_ips
    (window_start : Q) (requests : gmap string (list Q)) : gmap string (list Q) :=
  filter (fun kv => inactive window_start (snd kv) = false) requests.

(** [sum(len(v) for v in self._requests.values())] *)
Definition total_requests (requests : gmap string (list Q)) : Z :=
  map_fold (fun _ v acc => acc + Z.of_nat (length v)) 0 requests.

(** [self._requests[client_ip]] on a [defaultdict(list)] *)
Definition requests_of (client_ip : string) (requests : gmap string (list Q))
  : list Q :=
  match requests !! client_ip with
  | Some ts => ts
  | None => []
  end.

(** [RateLimitMiddleware.dispatch], with [now] the value of [time.time()]. *)
Definition dispatch
    (settings : Settings) (path client_ip : string) (now : Q)
    (requests : gmap string (list Q))
  : result Response * gmap string (list Q) :=
  if existsb (String.eqb path) EXCLUDED_PATHS then (Ok CallNext, requests)
  else
    let window := inject_Z (rate_limit_window settings) in
    let window_start := (now - window)%Q in
    let kept :=
      List.filter (fun ts => Qltb window_start ts) (requests_of client_ip requests) in
    let requests := <[client_ip := kept]> requests in
    if rate_limit_requests settings <=? Z.of_nat (length kept) then
      match kept with
      | oldest :: _ =>
          let retry_after := py_int (oldest + window - now)%Q + 1 in
          (Ok (TooManyRequests retry_after), requests)
      | [] => (Err (IndexError "list index out of range"), requests)
      end
    else
      let requests := <[client_ip := kept ++ [now]]> requests in
      let requests :=
        if total_requests requests mod 1000 =? 0
        then _cleanup_inactive_ips window_start requests
        else requests in
      (Ok CallNext, requests).

(** Successive requests of one client on a rate-limited path. *)
Fixpoint dispatch_all
    (settings : Settings) (path client_ip : string) (times : list Q)
    (requests : gmap string (list Q))
  : list (result Response) * gmap string (list Q) :=
  match times with
  | [] => ([], requests)
  | now :: rest =>
      let '(r, requests') := dispatch settings path client_ip now requests in
      let '(rs, requests'') := dispatch_all settings path client_ip rest requests' in
      (r :: rs, requests'')
  end.

(** ** app/services/note_service.py: NoteService.list_notes *)

(** The [where] clauses the method builds, all on [Note.created_at]. *)
Inductive Clause :=
| CreatedLt (d : Z)
| CreatedGt (d : Z)
| CreatedGe (d : Z)
| CreatedLe (d : Z).

Inductive Order := Ascending | Descending.

Record Query := {
  q_where : list Clause;
  q_order : option Order;
  q_limit : option Z
}.

Record NoteListItem := {
  li_id : nat;
  li_image_url : string;
  li_text_preview : string;
  li_created_at : Z;
  li_status : string
}.

Record NoteListResponse := {
  lr_notes : list NoteListItem;
  lr_total_count : Z;
  lr_next_cursor : option string;
  lr_has_more : bool
}.

Definition clause_holds (c : Clause) (r : Row) : bool :=
  match c with
  | CreatedLt d => row_created_at r <? d
  | CreatedGt d => d <? row_created_at r
  | CreatedGe d => d <=? row_created_at r
  | CreatedLe d => row_created_at r <=? d
  end.

Fixpoint insert_by (le : Row -> Row -> bool) (r : Row) (l : list Row) : list Row :=
  match l with
  | [] => [r]
  | x :: xs => if le r x then r :: l else x :: insert_by le r xs
  end.

Definition order_by (o : option Order) (l : list Row) : list Row :=
  match o with
  | None => l
  | Some Ascending =>
      fold_right (insert_by (fun a b => row_created_at a <=? row_created_at b)) [] l
  | Some Descending =>
      fold_right (insert_by (fun a b => row_created_at b <=? row_created_at a)) [] l
  end.

(** The rows a [select(Note)] query returns. *)
Definition run_query (q : Query) (rows : list Row) : list Row :=
  let selected :=
    List.filter (fun r => forallb (fun c => clause_holds c r) (q_where q)) rows in
  let sorted := order_by (q_order q) selected in
  match q_limit q with
  | Some n => firstn (Z.to_nat n) sorted
  | None => sorted
  end.

Section ListNotes.
(** [datetime.fromisoformat]: [None] stands for [ValueError]. *)
Variable fromisoformat : string -> option Z.
(** [datetime.isoformat] *)
Variable isoformat : Z -> string.

(** An [Optional[str]] argument that is truthy. *)
Definition truthy (s : option string) : option string :=
  match s with
  | Some "" => None
  | other => other
  end.

(** [if cursor: ...]: the clause the cursor contributes. *)
Definition cursor_clauses (cursor : option string) (sort : string) : list Clause :=
  match truthy cursor with
  | Some c =>
      match fromisoformat c with
      | Some cursor_dt =>
          if String.eqb sort "created_at_desc"
          then [CreatedLt cursor_dt]
          else [CreatedGt cursor_dt]
      | None => []
      end
  | None => []
  end.

(** [if from_date: ...] and [if to_date: ...] *)
Definition date_clauses (from_date to_date : option string) : list Clause :=
  match truthy from_date with
  | Some f =>
      match fromisoformat f with
      | Some from_dt => [CreatedGe from_dt]
      | None => []
      end
  | None => []
  end ++
  match truthy to_date with
  | Some t =>
      match fromisoformat t with
      | Some to_dt => [CreatedLe to_dt]
      | None => []
      end
  | None => []
  end.

(** The page query. *)
Definition notes_query
    (limit : Z) (cursor from_date to_date : option string) (sort : string)
  : Query :=
  {| q_where := cursor_clauses cursor sort ++ date_clauses from_date to_date;
     q_order :=
       Some (if String.eqb sort "created_at_asc" then Ascending else Descending);
     q_limit := Some (limit + 1) |}.

(** The count query. *)
Definition count_query (from_date to_date : option string) : Query :=
  {| q_where := date_clauses from_date to_date;
     q_order := None;
     q_limit := None |}.

Definition list_item (r : Row) : NoteListItem :=
  {| li_id := row_id r;
     li_image_url := "/api/files/" ++ row_image_path r;
     li_text_preview := String.substring 0 200 (row_parsed_text r);
     li_created_at := row_created_at r;
     li_status := row_status r |}.

(** [NoteService.list_notes] on a table [rows]; [db_ok] tells whether
    [db.execute] answers or raises.  The route admits [limit] from 1 to
    100. *)
Definition list_notes
    (db_ok : bool) (rows : list Row) (limit : Z)
    (cursor from_date to_date : option string) (sort : string)
  : result NoteListResponse :=
  if negb db_ok then
    Err (DatabaseError "Could not retrieve notes. Please try again."
                       [("error_type", CtxStr "SQLAlchemyError")])
  else
    let notes := run_query (notes_query limit cursor from_date to_date sort) rows in
    let total_count :=
      Z.of_nat (length (run_query (count_query from_date to_date) rows)) in
    let has_more := limit <? Z.of_nat (length notes) in
    let notes := if has_more then firstn (Z.to_nat limit) notes else notes in
    let next_cursor :=
      if has_more then
        match List.last (List.map Some notes) None with
        | Some r => Some (isoformat (row_created_at r))
        | None => None
        end
      else None in
    Ok {| lr_notes := List.map list_item notes;
          lr_total_count := total_count;
          lr_next_cursor := next_cursor;
          lr_has_more := has_more |}.
End ListNotes.

(** ** Observations on a run *)

(** The world after [j] further calls of the API and nothing else. *)
Definition after_attempts (j : nat) (w : World) : World :=
  {| breaker := breaker w;
     api_calls := (j + api_calls w)%nat;
     session_note := session_note w;
     table := table w;
     flushes := flushes w;
     files := files w;
     trace :=
       trace w ++ List.map (fun k => EvApiAttempt k (table w)) (seq (api_calls w) j) |}.



Definition is_api_attempt (e : Event) : bool :=
  match e with
  | EvApiAttempt _ _ => true
  | _ => false
  end.

(** The k-th run of the API body, counted from the calls already made in
    [w], fails with a kind that the decorator retries. *)
Definition fails_retryable (env : Env) (w : World) (i : nat) : Prop :=
  exists e, env_generate_content env (i + api_calls w)%nat = SdkErr e /\
            sdk_is_Exception e = true.

(** [can_execute] lets the call of [parse_image] through. *)
Definition admitted (env : Env) (w : World) : Prop :=
  exists cb, can_execute (env_time_check env) (breaker w) = (Ok true, cb).

(** The world in which the decorated call starts, once admitted. *)
Definition entered (cb1 : CircuitBreaker) (w : World) : World :=
  log (EvCanExecute true) (set_breaker cb1 w).

Definition unexpected_error (env : Env) (s : sdk_exn) : exn :=
  mk_LLMServiceError msg_unexpected None
    [("request_id", CtxStr (env_request_id env));
     ("error_type", CtxStr (sdk_type_name s))].

(** The four ways a call of [parse_image] can go. *)
Inductive parse_image_run
    (settings : Settings) (env : Env) (w : World)
  : result string -> World -> Prop :=
| RunRejected remaining :
    can_execute (env_time_check env) (breaker w)
      = (Err (CircuitBreakerOpenError remaining), breaker w) ->
    parse_image_run settings env w
      (Err (CircuitBreakerOpenError remaining)) (log (EvCanExecute false) w)
| RunSucceeded cb1 j text :
    can_execute (env_time_check env) (breaker w) = (Ok true, cb1) ->
    (j <= Z.to_nat (retry_max_attempts settings - 1))%nat ->
    (forall i, (i < j)%nat -> fails_retryable env w i) ->
    env_generate_content env (j + api_calls w)%nat = SdkOk text ->
    let w2 := after_attempts (S j) (entered cb1 w) in
    parse_image_run settings env w
      (Ok text) (log EvRecordSuccess (set_breaker (record_success cb1) w2))
| RunExhausted cb1 s :
    can_execute (env_time_check env) (breaker w) = (Ok true, cb1) ->
    let n := Z.to_nat (retry_max_attempts settings - 1) in
    (forall i, (i < n)%nat -> fails_retryable env w i) ->
    env_generate_content env (n + api_calls w)%nat = SdkErr s ->
    sdk_is_Exception s = true ->
    let w2 := after_attempts (S n) (entered cb1 w) in
    parse_image_run settings env w
      (Err (unexpected_error env s))
      (log EvRecordFailure
           (set_breaker (record_failure (env_time_failure env) cb1) w2))
| RunInterrupted cb1 j s :
    can_execute (env_time_check env) (breaker w) = (Ok true, cb1) ->
    (j <= Z.to_nat (retry_max_attempts settings - 1))%nat ->
    (forall i, (i < j)%nat -> fails_retryable env w i) ->
    env_generate_content env (j + api_calls w)%nat = SdkErr s ->
    sdk_is_Exception s = false ->
    parse_image_run settings env w
      (Err (Sdk s)) (after_attempts (S j) (entered cb1 w)).

(** The world once steps 1 and 2 of [parse_note] have succeeded: the file
    is stored, the note is in the table in state [processing]. *)
Definition processing_row (env : Env) (relative : string) (w : World) : Row :=
  row_of (env_uuid4 env (flushes w)) (env_utcnow env (flushes w)) 0
         (new_note relative).

Definition processing_note (env : Env) (relative : string) (w : World) : Note :=
  {| note_id := Some (env_uuid4 env (flushes w));
     image_path := relative;
     parsed_text := "";
     created_at := Some (env_utcnow env (flushes w));
     status := "processing";
     error_message := None;
     retry_count := Some 0 |}.

Definition stored (env : Env) (absolute relative : string) (w : World) : World :=
  {| breaker := breaker w;
     api_calls := api_calls w;
     session_note := Some (processing_note env relative w);
     table := table w ++ [processing_row env relative w];
     flushes := S (flushes w);
     files := absolute :: files w;
     trace :=
       trace w ++ [EvValidated absolute relative;
                   EvDbAdd (new_note relative);
                   EvFlush (table w ++ [processing_row env relative w])] |}.

(** The note as the [LLMServiceError] handler leaves it. *)
Definition failed_note (message : string) (n : Note) : Note :=
  {| note_id := note_id n;
     image_path := image_path n;
     parsed_text := parsed_text n;
     created_at := created_at n;
     status := "failed";
     error_message := Some message;
     retry_count := option_map (fun c => c + 1) (retry_count n) |}.

(** The world after [if absolute_path: await cleanup_file(absolute_path)]. *)
Definition cleaned (path : string) (w : World) : World :=
  if String.eqb path "" then w
  else
    log (EvCleanup path)
        (set_files (List.filter (fun p => negb (String.eqb p path)) (files w)) w).

(** The error by which [parse_note] hides an unknown exception. *)
Definition database_error (e : exn) : exn :=
  DatabaseError
    "An error occurred while processing your note. Please try again."
    [("original_error", CtxStr (type_name e))].

(** Whether a call raised an [LLMServiceError]. *)
Definition is_LLMServiceError_result {A} (r : result A) : bool :=
  match r with
  | Err e => is_LLMServiceError e
  | Ok _ => false
  end.

(** The events of the protected call: the breaker's check and the calls
    of the API. *)
Definition is_protected_call (e : Event) : bool :=
  match e with
  | EvCanExecute _ | EvApiAttempt _ _ => true
  | _ => false
  end.

(** A path that the rate limiter covers. *)
Definition rate_limited (path : string) : Prop :=
  existsb (String.eqb path) EXCLUDED_PATHS = false.

(** The timestamps of a client that [dispatch] keeps at time [now]. *)
Definition kept_at (settings : Settings) (now : Q) (timestamps : list Q) : list Q :=
  List.filter
    (fun ts => Qltb (now - inject_Z (rate_limit_window settings))%Q ts) timestamps.

(** All the readings lie in a stretch of time shorter than [window]. *)
Definition within_window (window : Z) (times : list Q) : Prop :=
  forall a b, In a times -> In b times -> (a - b < inject_Z window)%Q.

(** Unfolds the updates of a world. *)
Ltac world :=
  unfold stored, log, set_breaker, set_api_calls, set_session_note,
    set_table, set_flushes, set_files, after_attempts, entered;
  cbn [breaker api_calls session_note table flushes files trace
       world absolute_path].

(** ** Scenarios *)

(** A parser that knows one date. *)
Definition one_date_parser (s : string) : option Z :=
  if String.eqb s "2024-01-15T10:00:00+00:00" then Some 1705312800 else None.

Definition three_rows : list Row :=
  [ {| row_id := 1; row_image_path := "2024/01/15/a.jpg"; row_parsed_text := "a";
       row_created_at := 1705312700; row_status := "completed";
       row_error_message := None; row_retry_count := 0 |};
    {| row_id := 2; row_image_path := "2024/01/15/b.jpg"; row_parsed_text := "b";
       row_created_at := 1705312800; row_status := "completed";
       row_error_message := None; row_retry_count := 0 |};
    {| row_id := 3; row_image_path := "2024/01/15/c.jpg"; row_parsed_text := "c";
       row_created_at := 1705312900; row_status := "processing";
       row_error_message := None; row_retry_count := 0 |} ].

Definition a_world (cb : CircuitBreaker) : World :=
  {| breaker := cb; api_calls := 0; session_note := None; table := [];
     flushes := 0; files := []; trace := [] |}.

(** Every collaborator works; the API answers as [api] says. *)
Definition an_env (api : nat -> sdk_result) (now : Q) : Env :=
  {| env_validate_and_store :=
       fun _ _ _ => inl ("/srv/storage/2024/01/15/a.jpg", "2024/01/15/a.jpg");
     env_flush := fun _ => None;
     env_uuid4 := fun _ => 7%nat;
     env_utcnow := fun _ => 1705312800;
     env_generate_content := api;
     env_request_id := "1b9d6bcd";
     env_time_check := now;
     env_time_failure := now |}.

Definition api_down : nat -> sdk_result :=
  fun _ => SdkErr (ConnectionError "connection refused").



Definition api_third_time_lucky : nat -> sdk_result :=
  fun k => if (k <? 2)%nat then SdkErr (TimeoutError "deadline exceeded")
           else SdkOk "Dear diary".

(** A breaker with the default thresholds that opened at time 0. *)
Definition opened_breaker : CircuitBreaker :=
  record_failures [0%Q; 0%Q; 0%Q; 0%Q; 0%Q] (CircuitBreaker_init 5 60).

Definition one_attempt_settings : Settings :=
  {| retry_max_attempts := 1;
     cb_failure_threshold := 5;
     cb_recovery_timeout := 60;
     rate_limit_requests := 100;
     rate_limit_window := 3600 |}.

Definition two_per_minute : Settings :=
  {| retry_max_attempts := 3;
     cb_failure_threshold := 5;
     cb_recovery_timeout := 60;
     rate_limit_requests := 2;
     rate_limit_window := 60 |}.

(** * The rest of the services *)
(** ** Runs of the circuit breaker *)

(** What callers do to a breaker. *)
Inductive cb_op :=
| OpCanExecute (now : Q)
| OpRecordSuccess
| OpRecordFailure (now : Q).

Definition cb_step (cb : CircuitBreaker) (op : cb_op) : CircuitBreaker :=
  match op with
  | OpCanExecute now => snd (can_execute now cb)
  | OpRecordSuccess => record_success cb
  | OpRecordFailure now => record_failure now cb
  end.

Definition cb_run (ops : list cb_op) (cb : CircuitBreaker) : CircuitBreaker :=
  fold_left cb_step ops cb.

(** The state agrees with the counter: closed below the threshold, open or
    half-open at or above it and with the time of the last failure set. *)
Definition cb_consistent (cb : CircuitBreaker) : Prop :=
  match state cb with
  | CLOSED => failure_count cb < failure_threshold cb
  | _ => failure_threshold cb <= failure_count cb /\ last_failure_time cb <> None
  end.

(** ** Successive calls of parse_image *)

(** One call of [parse_image] per environment, in order, on one service. *)
Fixpoint parse_image_each
    (settings : Settings) (envs : list Env) (image_path : string) (w : World)
  : list (result string) * World :=
  match envs with
  | [] => ([], w)
  | env :: rest =>
      let '(r, w1) := parse_image settings env image_path w in
      let '(rs, w2) := parse_image_each settings rest image_path w1 in
      (r :: rs, w2)
  end.

(** The API fails at every call with a kind that the decorator retries. *)
Definition api_always_fails (env : Env) : Prop :=
  forall k, exists e,
    env_generate_content env k = SdkErr e /\ sdk_is_Exception e = true.

(** The number of attempts the decorator allows. *)
Definition max_attempts (settings : Settings) : nat :=
  S (Z.to_nat (retry_max_attempts settings - 1)).

(** ** Requests through the rate limiter *)

(** A request as the middleware sees it. *)
Record Request := {
  req_path : string;
  req_ip : string;
  req_time : Q
}.

(** The middleware serving requests of any clients, one after the other. *)
Fixpoint serve_all
    (settings : Settings) (rs : list Request) (requests : gmap string (list Q))
  : list (result Response) * gmap string (list Q) :=
  match rs with
  | [] => ([], requests)
  | r :: rest =>
      let '(a, requests') :=
        dispatch settings (req_path r) (req_ip r) (req_time r) requests in
      let '(answers, requests'') := serve_all settings rest requests' in
      (a :: answers, requests'')
  end.

(** The decision of [dispatch] read on the client's own timestamps: the
    answer, and the timestamps the client has afterwards. *)
Definition window_step
    (settings : Settings) (now : Q) (timestamps : list Q)
  : result Response * list Q :=
  let kept := kept_at settings now timestamps in
  if rate_limit_requests settings <=? Z.of_nat (length kept) then
    match kept with
    | oldest :: _ =>
        (Ok (TooManyRequests
               (py_int (oldest + inject_Z (rate_limit_window settings) - now)%Q + 1)),
         kept)
    | [] => (Err (IndexError "list index out of range"), kept)
    end
  else (Ok CallNext, kept ++ [now]).

(** The sliding-window rule on the whole history of a client's admitted
    requests, nothing ever pruned: a request is admitted when fewer than
    the limit of them lie in the window that ends at the request. *)
Fixpoint sliding_window
    (settings : Settings) (history : list Q) (times : list Q)
  : list (result Response) :=
  match times with
  | [] => []
  | now :: rest =>
      let '(answer, _) := window_step settings now history in
      match answer with
      | Ok CallNext => answer :: sliding_window settings (history ++ [now]) rest
      | _ => answer :: sliding_window settings history rest
      end
  end.

(** Clock readings that never go back. *)
Fixpoint nondecreasing (times : list Q) : Prop :=
  match times with
  | [] => True
  | t :: rest => (forall u, In u rest -> (t <= u)%Q) /\ nondecreasing rest
  end.

(** ** Listing and paging through the notes *)

(** The order [order_by] sorts by. *)
Definition row_le (o : Order) (a b : Row) : bool :=
  match o with
  | Ascending => row_created_at a <=? row_created_at b
  | Descending => row_created_at b <=? row_created_at a
  end.

Fixpoint sorted_by (le : Row -> Row -> bool) (l : list Row) : bool :=
  match l with
  | [] => true
  | x :: xs => forallb (le x) xs && sorted_by le xs
  end.

(** The order [list_notes] asks for: ascending for ["created_at_asc"],
    descending for every other value of [sort]. *)
Definition sort_order (sort : string) : Order :=
  if String.eqb sort "created_at_asc" then Ascending else Descending.

(** Every row the date filters let through, in the order asked for. *)
Definition listing
    (fromisoformat : string -> option Z)
    (rows : list Row) (from_date to_date : option string) (sort : string)
  : list Row :=
  run_query {| q_where := date_clauses fromisoformat from_date to_date;
               q_order := Some (sort_order sort);
               q_limit := None |} rows.

(** The rows the page query matches, before [limit + 1] cuts them. *)
Definition matching
    (fromisoformat : string -> option Z)
    (rows : list Row) (cursor from_date to_date : option string) (sort : string)
  : list Row :=
  List.filter
    (fun r => forallb (fun c => clause_holds c r)
                      (cursor_clauses fromisoformat cursor sort
                       ++ date_clauses fromisoformat from_date to_date))
    rows.

(** A client that asks for page after page, each time with the
    [next_cursor] of the page before, until a page has none. *)
Fixpoint all_pages
    (fromisoformat : string -> option Z) (isoformat : Z -> string)
    (fuel : nat) (rows : list Row) (limit : Z)
    (cursor from_date to_date : option string) (sort : string)
  : list NoteListItem :=
  match fuel with
  | O => []
  | S fuel' =>
      match list_notes fromisoformat isoformat true rows limit
                       cursor from_date to_date sort with
      | Ok page =>
          lr_notes page ++
          match lr_next_cursor page with
          | Some c =>
              all_pages fromisoformat isoformat fuel' rows limit
                        (Some c) from_date to_date sort
          | None => []
          end
      | Err _ => []
      end
  end.

(** A calendar of five days, for the scenarios: [iso_of] writes a day as
    [isoformat] would, [of_iso] reads it back as [fromisoformat] would and
    knows no other string. *)
Definition iso_table : list (Z * string) :=
  [(1, "2024-01-01"); (2, "2024-01-02"); (3, "2024-01-03");
   (4, "2024-01-04"); (5, "2024-01-05")].

Definition iso_of (t : Z) : string :=
  match List.find (fun p => fst p =? t) iso_table with
  | Some p => snd p
  | None => "?"
  end.

Definition of_iso (s : string) : option Z :=
  match List.find (fun p => String.eqb (snd p) s) iso_table with
  | Some p => Some (fst p)
  | None => None
  end.

Definition row_at (id : nat) (t : Z) : Row :=
  {| row_id := id; row_image_path := "p.jpg"; row_parsed_text := "text";
     row_created_at := t; row_status := "completed";
     row_error_message := None; row_retry_count := 0 |}.

Definition five_rows : list Row :=
  [row_at 1 3; row_at 2 1; row_at 3 5; row_at 4 2; row_at 5 4].

(** ** app/services/note_service.py: NoteService.get_note *)

(** What [get_note] returns or raises.  [NotFoundError] is raised nowhere
    else in the service. *)
Inductive NoteLookup :=
| NoteFound (note : NoteResponse)
| NotFoundError (message : string) (ctx : context)
| LookupFailed (e : exn).

(** [NotFoundError(resource="note", resource_id=...)] *)
Definition mk_NotFoundError (resource resource_id : string) : NoteLookup :=
  if String.eqb resource_id ""
  then NotFoundError ("The requested " ++ resource ++ " was not found")
                     [("resource", CtxStr resource)]
  else NotFoundError (resource ++ " with ID '" ++ resource_id ++ "' was not found")
                     [("resource", CtxStr resource);
                      ("resource_id", CtxStr resource_id)].

Definition row_response (r : Row) : NoteResponse :=
  {| nr_id := Some (row_id r);
     nr_image_url := "/api/files/" ++ row_image_path r;
     nr_parsed_text := row_parsed_text r;
     nr_created_at := Some (row_created_at r);
     nr_status := row_status r;
     nr_error_message := row_error_message r |}.

(** [NoteService.get_note] on a table [rows]; [str_uuid] is [str] on a
    UUID, [db_ok] tells whether [db.execute] answers or raises.
    [scalar_one_or_none] raises when the query finds more than one row. *)
Definition get_note
    (str_uuid : nat -> string) (db_ok : bool) (rows : list Row) (note_id : nat)
  : NoteLookup :=
  let failed :=
    LookupFailed
      (DatabaseError "Could not retrieve the note. Please try again."
                     [("note_id", CtxStr (str_uuid note_id))]) in
  if negb db_ok then failed
  else
    match List.filter (fun r => Nat.eqb (row_id r) note_id) rows with
    | [] => mk_NotFoundError "note" (str_uuid note_id)
    | [note] => NoteFound (row_response note)
    | _ => failed
    end.

(** The note as steps 4 and 5 of [parse_note] leave it. *)
Definition completed_note (text : string) (n : Note) : Note :=
  with_status "completed" (with_parsed_text text n).

(** Whether the handlers of [parse_note] leave the stored file in place
    for this outcome: they do on success, for an [LLMServiceError] and for
    what is not an [Exception]. *)
Definition keeps_file (r : result ParseResponse) : bool :=
  match r with
  | Ok _ => true
  | Err e => is_LLMServiceError e || negb (is_Exception e)
  end.

(** What [parse_note] answers when the API fails twice and then reads
    ["Dear diary"]. *)
Definition diary_response : ParseResponse :=
  {| pr_message := "Note parsed successfully";
     pr_parsed_text := "Dear diary";
     pr_note :=
       {| nr_id := Some 7%nat;
          nr_image_url := "/api/files/2024/01/15/a.jpg";
          nr_parsed_text := "Dear diary";
          nr_created_at := Some 1705312800;
          nr_status := "completed";
          nr_error_message := None |} |}.

(** ** app/services/file_service.py: FileService *)

Module FileService.

Definition ALLOWED_MIME_TYPES : list (string * string) :=
  [("image/png", ".png"); ("image/jpeg", ".jpg"); ("image/jpg", ".jpg")].

Definition ALLOWED_EXTENSIONS : list string := [".png"; ".jpg"; ".jpeg"].

(** [x in ALLOWED_EXTENSIONS], [x in ALLOWED_MIME_TYPES] *)
Definition str_in (x : string) (l : list string) : bool :=
  existsb (String.eqb x) l.

(** What [import magic; magic.from_buffer(file_content, mime=True)] does. *)
Inductive magic_result :=
| MagicMime (mime_type : string)
| MagicImportError
| MagicException (msg : string).

(** What the service reads from outside: the settings, the libraries and
    the disk. *)
Record FileEnv := {
  (* Path(filename).suffix.lower() *)
  fs_suffix_lower : string -> string;
  fs_magic : list Byte.byte -> magic_result;
  (* settings.max_file_size *)
  fs_max_file_size : Z;
  (* f"{x:.0f}" and f"{x:.1f}" *)
  fs_format_0f : Q -> string;
  fs_format_1f : Q -> string;
  (* now.strftime("%Y/%m/%d") and str(uuid.uuid4()) *)
  fs_date_dir : string;
  fs_uuid4 : string;
  (* str(self.storage_root / relative_path) *)
  fs_absolute : string -> string;
  (* mkdir and write: the OSError, if any *)
  fs_write : string -> list Byte.byte -> option string
}.

(** [FileService.validate_extension] *)
Definition validate_extension (env : FileEnv) (filename : string) : result string :=
  let ext := fs_suffix_lower env filename in
  if negb (str_in ext ALLOWED_EXTENSIONS) then
    Err (ValidationError
           ("File type '" ++ ext ++ "' is not supported. "
            ++ "Allowed types: .jpeg, .jpg, .png")%string)
  else Ok ext.

(** [content_length and content_length > settings.max_file_size] *)
Definition reported_too_large (env : FileEnv) (content_length : option Z) : bool :=
  match content_length with
  | Some n => negb (n =? 0) && (fs_max_file_size env <? n)
  | None => false
  end.

(** [FileService.validate_size] *)
Definition validate_size
    (env : FileEnv) (content_length : option Z) (actual_size : Z) : result unit :=
  let max_mb := (inject_Z (fs_max_file_size env) / inject_Z (1024 * 1024))%Q in
  if reported_too_large env content_length then
    Err (ValidationError
           ("File size exceeds maximum of " ++ fs_format_0f env max_mb
            ++ "MB. Please upload a smaller image.")%string)
  else if fs_max_file_size env <? actual_size then
    Err (ValidationError
           ("File size ("
            ++ fs_format_1f env (inject_Z actual_size / inject_Z (1024 * 1024))%Q
            ++ "MB) exceeds maximum of " ++ fs_format_0f env max_mb ++ "MB.")%string)
  else Ok tt.

(** [mime_map.get(ext, "application/octet-stream")] *)
Definition mime_map_get (ext : string) : string :=
  if String.eqb ext ".png" then "image/png"
  else if String.eqb ext ".jpg" then "image/jpeg"
  else if String.eqb ext ".jpeg" then "image/jpeg"
  else "application/octet-stream".

(** [FileService.validate_mime_type] *)
Definition validate_mime_type
    (env : FileEnv) (file_content : list Byte.byte) (filename : string)
  : result string :=
  let detected :=
    match fs_magic env file_content with
    | MagicMime mime_type => Ok mime_type
    | MagicImportError => Ok (mime_map_get (fs_suffix_lower env filename))
    | MagicException _ =>
        Err (FileStorageError "Could not verify file type. Please try again.")
    end in
  match detected with
  | Err e => Err e
  | Ok mime_type =>
      if negb (str_in mime_type (List.map fst ALLOWED_MIME_TYPES)) then
        Err (ValidationError
               ("File content type '" ++ mime_type ++ "' is not supported. "
                ++ "The file must be a valid image (PNG or JPEG).")%string)
      else Ok mime_type
  end.

(** [FileService._generate_storage_path] *)
Definition _generate_storage_path (env : FileEnv) (extension : string)
  : string * string :=
  let unique_name := (fs_uuid4 env ++ extension)%string in
  let relative_path := (fs_date_dir env ++ "/" ++ unique_name)%string in
  (fs_absolute env relative_path, relative_path).

(** [FileService.store_file] *)
Definition store_file
    (env : FileEnv) (content : list Byte.byte) (extension : string)
  : result (string * string) :=
  let '(absolute_path, relative_path) := _generate_storage_path env extension in
  match fs_write env absolute_path content with
  | None => Ok (absolute_path, relative_path)
  | Some _ => Err (FileStorageError "Failed to save uploaded image. Please try again.")
  end.

(** [FileService.validate_and_store] *)
Definition validate_and_store
    (env : FileEnv) (filename : string) (content : list Byte.byte)
    (content_length : option Z)
  : result (string * string) :=
  match validate_extension env filename with
  | Err e => Err e
  | Ok ext =>
      match validate_size env content_length (Z.of_nat (length content)) with
      | Err e => Err e
      | Ok _ =>
          match validate_mime_type env content filename with
          | Err e => Err e
          | Ok _ => store_file env content ext
          end
      end
  end.

End FileService.

(** The service as the collaborator that [parse_note] calls: its two kinds
    of error are those of [store_failure]. *)
Definition store_outcome (r : result (string * string))
  : (string * string) + store_failure :=
  match r with
  | Ok paths => inl paths
  | Err (ValidationError m) => inr (InvalidFile m)
  | Err e => inr (StorageFailed (exn_message e))
  end.

(** [env] with [FileService] over [fenv] as its file service. *)
Definition with_file_service (fenv : FileService.FileEnv) (env : Env) : Env :=
  {| env_validate_and_store :=
       fun filename content content_length =>
         store_outcome
           (FileService.validate_and_store fenv filename content content_length);
     env_flush := env_flush env;
     env_uuid4 := env_uuid4 env;
     env_utcnow := env_utcnow env;
     env_generate_content := env_generate_content env;
     env_request_id := env_request_id env;
     env_time_check := env_time_check env;
     env_time_failure := env_time_failure env |}.

(** A file service for the scenarios: file names have one dot, libmagic
    knows PNG by its first byte, the limit is 10 bytes. *)
Definition suffix_from (filename : string) : string :=
  match String.index 0 "." filename with
  | Some i => String.substring i (String.length filename - i) filename
  | None => EmptyString
  end.

Definition a_file_env (magic : list Byte.byte -> FileService.magic_result)
  : FileService.FileEnv :=
  {| FileService.fs_suffix_lower := suffix_from;
     FileService.fs_magic := magic;
     FileService.fs_max_file_size := 10;
     FileService.fs_format_0f := fun _ => "0";
     FileService.fs_format_1f := fun _ => "0.0";
     FileService.fs_date_dir := "2024/01/15";
     FileService.fs_uuid4 := "1b9d6bcd-bbfd-4b2d-9b5d-ab8dfbbd4bed";
     FileService.fs_absolute := fun rel => ("/srv/storage/" ++ rel)%string;
     FileService.fs_write := fun _ _ => None |}.

Definition png_magic (content : list Byte.byte) : FileService.magic_result :=
  match content with
  | Byte.x89 :: _ => FileService.MagicMime "image/png"
  | _ => FileService.MagicMime "application/octet-stream"
  end.

(** ** app/main.py: register_exception_handlers *)

(** The part of a handler's [JSONResponse] that depends on the exception's
    class: the status code, the [error] field of the body, and the number
    the [Retry-After] header is written from, if the header is set. *)
Record JSONResponse := {
  status_code : Z;
  error : string;
  retry_after_header : option Z
}.

(** [if exc.retry_after:] *)
Definition truthy_int (n : option Z) : option Z :=
  match n with
  | Some 0 => None
  | other => other
  end.

(** The handler that answers an exception which leaves a route: the one
    registered for its class, or the one for [Exception]; an exception that
    is not an [Exception] has none. *)
Definition handle_exception (e : exn) : option JSONResponse :=
  match e with
  | ValidationError _ =>
      Some {| status_code := 400; error := "validation_error";
              retry_after_header := None |}
  | CircuitBreakerOpenError recovery_time =>
      Some {| status_code := 503; error := "service_unavailable";
              retry_after_header := Some recovery_time |}
  | LLMServiceError _ retry_after _ =>
      Some {| status_code := 503; error := "llm_service_error";
              retry_after_header := truthy_int retry_after |}
  | DatabaseError _ _ =>
      Some {| status_code := 500; error := "server_error";
              retry_after_header := None |}
  | FileStorageError _ =>
      Some {| status_code := 500; error := "server_error";
              retry_after_header := None |}
  | other =>
      if is_Exception other
      then Some {| status_code := 500; error := "internal_server_error";
                   retry_after_header := None |}
      else None
  end.

(** * Properties *)

(** ** Truncation *)

Lemma py_int_nonneg (x : Q) : (0 <= x)%Q -> py_int x = Qfloor x.
Proof.
  destruct x as [n d]. unfold Qle, py_int, Qfloor. simpl. intros H.
  apply Z.quot_div_nonneg; lia.
Qed.

Lemma py_int_neg (x : Q) : (x <= 0)%Q -> py_int x = Qceiling x.
Proof.
  destruct x as [n d]. unfold Qle, py_int, Qceiling, Qfloor. simpl. intros H.
  rewrite <- (Z.opp_involutive n) at 1.
  rewrite Z.quot_opp_l by lia.
  f_equal. apply Z.quot_div_nonneg; lia.
Qed.

Lemma py_int_comp (x y : Q) : (x == y)%Q -> py_int x = py_int y.
Proof.
  intros E. destruct (Qlt_le_dec x 0) as [Hneg | Hpos].
  - rewrite (py_int_neg x), (py_int_neg y).
    + now rewrite E.
    + rewrite <- E. now apply Qlt_le_weak.
    + now apply Qlt_le_weak.
  - rewrite (py_int_nonneg x), (py_int_nonneg y).
    + now rewrite E.
    + now rewrite <- E.
    + assumption.
Qed.

Lemma or_zero_eq (t : Q) : (or_zero (Some t) == t)%Q.
Proof.
  unfold or_zero. destruct (Qeq_bool t 0) eqn:E.
  - apply Qeq_bool_eq in E. now rewrite E.
  - reflexivity.
Qed.

Lemma Qle_bool_false (a b : Q) : Qle_bool a b = false <-> (b < a)%Q.
Proof.
  split.
  - intros H. apply Qnot_le_lt. intros Hle.
    apply Qle_bool_iff in Hle. congruence.
  - intros H. destruct (Qle_bool a b) eqn:E; [| reflexivity].
    apply Qle_bool_iff in E. exfalso. eapply Qlt_not_le; eauto.
Qed.

Lemma Qltb_true (a b : Q) : Qltb a b = true <-> (a < b)%Q.
Proof.
  unfold Qltb. rewrite negb_true_iff. apply Qle_bool_false.
Qed.

Lemma Qltb_false (a b : Q) : Qltb a b = false <-> (b <= a)%Q.
Proof.
  unfold Qltb. rewrite negb_false_iff. apply Qle_bool_iff.
Qed.

(** ** The circuit breaker *)

(** Below the threshold a run of failures leaves a closed breaker closed. *)
Lemma record_failures_below (ts : list Q) :
  forall cb,
    state cb = CLOSED ->
    failure_count cb + Z.of_nat (length ts) < failure_threshold cb ->
    let cb' := record_failures ts cb in
    state cb' = CLOSED /\
    failure_count cb' = failure_count cb + Z.of_nat (length ts) /\
    failure_threshold cb' = failure_threshold cb /\
    recovery_timeout cb' = recovery_timeout cb.
Proof.
  induction ts as [| t ts IH]; intros cb Hst Hlt; cbv zeta.
  - unfold record_failures; simpl in *. repeat split; auto; lia.
  - assert (Hstep : state (record_failure t cb) = CLOSED).
    { unfold record_failure; simpl. rewrite Hst.
      simpl length in Hlt.
      destruct (Z.leb_spec (failure_threshold cb) (failure_count cb + 1));
        [lia | reflexivity]. }
    simpl length in Hlt.
    destruct (IH (record_failure t cb) Hstep) as (H1 & H2 & H3 & H4).
    { simpl. lia. }
    change (record_failures (t :: ts) cb)
      with (record_failures ts (record_failure t cb)).
    repeat split; [exact H1 | rewrite H2; simpl; lia | rewrite H3 | rewrite H4];
      reflexivity.
Qed.

Lemma record_failures_snoc (ts : list Q) (t : Q) (cb : CircuitBreaker) :
  record_failures (ts ++ [t]) cb = record_failure t (record_failures ts cb).
Proof. unfold record_failures. now rewrite fold_left_app. Qed.

(** A closed breaker admits every call and does not change. *)
Lemma can_execute_closed (now : Q) (cb : CircuitBreaker) :
  state cb = CLOSED -> can_execute now cb = (Ok true, cb).
Proof. intros H. unfold can_execute. now rewrite H. Qed.

(** An open breaker inside its recovery period rejects, unchanged. *)
Lemma can_execute_open_rejects (now t : Q) (cb : CircuitBreaker) :
  state cb = OPEN ->
  last_failure_time cb = Some t ->
  (now - t < inject_Z (recovery_timeout cb))%Q ->
  can_execute now cb =
    (Err (CircuitBreakerOpenError
            (py_int (inject_Z (recovery_timeout cb) - (now - t))%Q)), cb).
Proof.
  intros Hst Ht Hlt. unfold can_execute. rewrite Hst, Ht.
  pose proof (or_zero_eq t) as Hz.
  destruct (Qle_bool _ _) eqn:E.
  - apply Qle_bool_iff in E. rewrite Hz in E.
    exfalso. eapply Qlt_not_le; eauto.
  - do 3 f_equal. apply py_int_comp. now rewrite Hz.
Qed.

(** An open breaker whose recovery period is over lets the call through and
    becomes half-open. *)
Lemma can_execute_open_recovers (now t : Q) (cb : CircuitBreaker) :
  state cb = OPEN ->
  last_failure_time cb = Some t ->
  (inject_Z (recovery_timeout cb) <= now - t)%Q ->
  exists cb',
    can_execute now cb = (Ok true, cb') /\ state cb' = HALF_OPEN /\
    last_failure_time cb' = Some t /\
    recovery_timeout cb' = recovery_timeout cb.
Proof.
  intros Hst Ht Hle. unfold can_execute. rewrite Hst, Ht.
  pose proof (or_zero_eq t) as Hz.
  destruct (Qle_bool _ _) eqn:E.
  - eexists. split; [reflexivity |]. simpl. auto.
  - apply Qle_bool_false in E. rewrite Hz in E.
    exfalso. eapply Qlt_not_le; eauto.
Qed.

(** A rejected [can_execute] makes [parse_image] fail before any call of
    the API. *)
Lemma parse_image_rejected settings env path w r :
  can_execute (env_time_check env) (breaker w) = (Err r, breaker w) ->
  parse_image settings env path w = (Err r, log (EvCanExecute false) w) .
Proof.
  intros H. unfold parse_image, bind, breaker_can_execute. rewrite H.
  destruct w; reflexivity.
Qed.

(** C5. Starting from the initial closed breaker, [failure_threshold - 1]
    recorded failures leave it closed, and [can_execute] succeeds; one more
    failure (the [failure_threshold]-th in a row) opens it, and from then
    on every [can_execute] made before [recovery_timeout] has elapsed since
    the last failure raises [CircuitBreakerOpenError] with the remaining
    recovery time, so that [parse_image] fails without calling the API. *)
Theorem breaker_opens_at_threshold :
  forall (threshold timeout : Z) (ts : list Q) (t : Q),
    Z.of_nat (length ts) = threshold - 1 ->
    let below := record_failures ts (CircuitBreaker_init threshold timeout) in
    let cb := record_failures (ts ++ [t]) (CircuitBreaker_init threshold timeout) in
    (state below = CLOSED /\ forall now, can_execute now below = (Ok true, below)) /\
    state cb = OPEN /\
    last_failure_time cb = Some t /\
    forall now,
      (now - t < inject_Z timeout)%Q ->
      let remaining := py_int (inject_Z timeout - (now - t))%Q in
      can_execute now cb = (Err (CircuitBreakerOpenError remaining), cb) /\
      forall settings env path w,
        breaker w = cb ->
        env_time_check env = now ->
        exists w',
          parse_image settings env path w
            = (Err (CircuitBreakerOpenError remaining), w') /\
          api_calls w' = api_calls w /\
          breaker w' = cb.
Proof.
  intros threshold timeout ts t Hlen below cb.
  destruct (record_failures_below ts (CircuitBreaker_init threshold timeout))
    as (Hst & Hcount & Hthr & Hrec); [reflexivity | simpl; lia |].
  fold below in Hst, Hcount, Hthr, Hrec. simpl in Hcount, Hthr, Hrec.
  rewrite Z.add_0_l in Hcount.
  assert (Hcb : cb = record_failure t below)
    by (unfold cb, below; apply record_failures_snoc).
  assert (Hopen : state cb = OPEN).
  { rewrite Hcb. unfold record_failure; simpl. rewrite Hst, Hthr, Hcount.
    destruct (Z.leb_spec threshold (Z.of_nat (length ts) + 1)); [reflexivity | lia]. }
  assert (Hlast : last_failure_time cb = Some t) by (rewrite Hcb; reflexivity).
  assert (Htimeout : recovery_timeout cb = timeout) by (rewrite Hcb; exact Hrec).
  split; [split; [exact Hst | intros now; now apply can_execute_closed] |].
  split; [exact Hopen |]. split; [exact Hlast |].
  intros now Hnow remaining.
  assert (Hrej : can_execute now cb = (Err (CircuitBreakerOpenError remaining), cb)).
  { rewrite (can_execute_open_rejects now t cb Hopen Hlast); rewrite Htimeout;
      [reflexivity | exact Hnow]. }
  split; [exact Hrej |].
  intros settings env path w Hw Henv.
  exists (log (EvCanExecute false) w).
  split; [| split; [reflexivity | exact Hw]].
  apply parse_image_rejected. rewrite Henv, Hw. exact Hrej.
Qed.

Lemma breaker_opens_at_threshold_witness :
  state (record_failures [1; 2; 3; 4]%Q (CircuitBreaker_init 5 60)) = CLOSED /\
  state (record_failures [1; 2; 3; 4; 5]%Q (CircuitBreaker_init 5 60)) = OPEN /\
  can_execute 10%Q (record_failures [1; 2; 3; 4; 5]%Q (CircuitBreaker_init 5 60))
    = (Err (CircuitBreakerOpenError 55),
       record_failures [1; 2; 3; 4; 5]%Q (CircuitBreaker_init 5 60)).
Proof.
  destruct (breaker_opens_at_threshold 5 60 [1; 2; 3; 4]%Q 5%Q eq_refl)
    as ((Hclosed & _) & Hopen & _ & Hreject).
  split; [exact Hclosed |]. split; [exact Hopen |].
  destruct (Hreject 10%Q) as (Hcan & _); [reflexivity | exact Hcan].
Defined.

(** C10. An open breaker that rejects a call reports the remaining recovery
    time truncated toward zero, which here is its floor; a rejection with
    less than one second of recovery left carries [recovery_time = 0]. *)
Theorem breaker_remaining_is_truncated :
  forall (cb : CircuitBreaker) (now : Q),
    state cb = OPEN ->
    let elapsed := (now - or_zero (last_failure_time cb))%Q in
    let remaining := (inject_Z (recovery_timeout cb) - elapsed)%Q in
    (elapsed < inject_Z (recovery_timeout cb))%Q ->
    can_execute now cb = (Err (CircuitBreakerOpenError (Qfloor remaining)), cb) /\
    ((remaining < 1)%Q ->
     can_execute now cb = (Err (CircuitBreakerOpenError 0), cb)).
Proof.
  intros cb now Hst elapsed remaining Hlt.
  assert (Hpos : (0 < remaining)%Q).
  { apply Qlt_minus_iff in Hlt. exact Hlt. }
  assert (Hcan : can_execute now cb
                 = (Err (CircuitBreakerOpenError (Qfloor remaining)), cb)).
  { unfold can_execute. rewrite Hst. fold elapsed.
    destruct (Qle_bool _ _) eqn:E.
    - apply Qle_bool_iff in E. exfalso. exact (Qlt_not_le _ _ Hlt E).
    - fold remaining. rewrite py_int_nonneg by now apply Qlt_le_weak.
      reflexivity. }
  split; [exact Hcan |].
  intros Hone. rewrite Hcan. do 3 f_equal.
  assert (Hlo : 0 <= Qfloor remaining).
  { change 0 with (Qfloor 0). apply Qfloor_resp_le. now apply Qlt_le_weak. }
  assert (Hhi : Qfloor remaining < 1).
  { apply Z.lt_nge. intros Hge.
    assert (H1 : (inject_Z 1 <= remaining)%Q).
    { eapply Qle_trans; [| apply Qfloor_le].
      rewrite <- Zle_Qle. exact Hge. }
    eapply Qlt_not_le; [exact Hone | exact H1]. }
  lia.
Qed.

Lemma breaker_remaining_is_truncated_witness :
  can_execute (119 # 2) opened_breaker
    = (Err (CircuitBreakerOpenError 0), opened_breaker).
Proof.
  destruct (breaker_remaining_is_truncated opened_breaker (119 # 2) eq_refl)
    as (_ & Hzero); [reflexivity |].
  apply Hzero. reflexivity.
Defined.

(** A half-open breaker admits every call and stays half-open: nothing in
    [can_execute] tells a probe in flight from the next caller. *)
Lemma can_execute_half_open (now : Q) (cb : CircuitBreaker) :
  state cb = HALF_OPEN -> can_execute now cb = (Ok true, cb).
Proof. intros H. unfold can_execute. now rewrite H. Qed.

(** C2, on the code.  The breaker opened at time 0 with a recovery timeout
    of 60.  The [can_execute] at time 61 moves it to half-open and admits
    the probe; a second [can_execute] at the same time, before any
    [record_success] or [record_failure], is admitted as well, where the
    specification wants [CircuitBreakerOpenError]. *)
Theorem half_open_admits_second_call :
  exists cb1,
    can_execute 61%Q opened_breaker = (Ok true, cb1) /\
    state cb1 = HALF_OPEN /\
    can_execute 61%Q cb1 = (Ok true, cb1).
Proof.
  eexists. split; [reflexivity |]. split; reflexivity.
Qed.

(** ** The retry decorator around the API call *)

Lemma call_gemini_step env path w :
  call_gemini env path w =
    (match env_generate_content env (api_calls w) with
     | SdkOk text => Ok text
     | SdkErr e => Err (Sdk e)
     end, after_attempts 1 w).
Proof.
  unfold call_gemini, after_attempts, log, set_api_calls; simpl.
  destruct (env_generate_content env (api_calls w)); reflexivity.
Qed.

Lemma after_attempts_succ j w :
  after_attempts 1 (after_attempts j w) = after_attempts (S j) w.
Proof.
  unfold after_attempts.
  cbn [breaker api_calls session_note table flushes files trace].
  f_equal. rewrite <- app_assoc. f_equal.
  rewrite (seq_S j (api_calls w)), map_app. cbn [seq List.map].
  now rewrite (Nat.add_comm j).
Qed.

Lemma after_attempts_zero w : after_attempts 0 w = w.
Proof.
  unfold after_attempts; simpl. rewrite app_nil_r. destruct w; reflexivity.
Qed.

Lemma fails_retryable_shift env w j i :
  fails_retryable env (after_attempts j w) i <-> fails_retryable env w (i + j).
Proof.
  unfold fails_retryable; simpl. now rewrite Nat.add_assoc.
Qed.

(** What a run of the decorated call looks like: some number of calls of
    the API and nothing else; an error is one the API raised; and an error
    of a retried kind comes out only when no attempt is left. *)
Lemma retry_loop_shape env path :
  forall n w r w',
    retry_loop is_Exception true (call_gemini env path) n w = (r, w') ->
    exists j, (j <= n)%nat /\ w' = after_attempts (S j) w /\
      (forall i, (i < j)%nat -> fails_retryable env w i) /\
      match r with
      | Ok text => env_generate_content env (j + api_calls w)%nat = SdkOk text
      | Err e =>
          exists s, e = Sdk s /\
            env_generate_content env (j + api_calls w)%nat = SdkErr s /\
            (sdk_is_Exception s = true -> j = n)
      end.
Proof.
  induction n as [| n IH]; intros w r w'; simpl; rewrite call_gemini_step;
    destruct (env_generate_content env (api_calls w)) as [text | s] eqn:Hg.
  - intros [= <- <-]. exists 0%nat. repeat split; [lia | | exact Hg]. intros; lia.
  - simpl. destruct (sdk_is_Exception s) eqn:Hs; simpl; intros [= <- <-];
      exists 0%nat; (repeat split; [lia | intros; lia |]);
      exists s; repeat split; auto; congruence.
  - intros [= <- <-]. exists 0%nat. repeat split; [lia | | exact Hg]. intros; lia.
  - simpl. destruct (sdk_is_Exception s) eqn:Hs; simpl.
    + intros Hrun. apply IH in Hrun. destruct Hrun as (j & Hj & Hw' & Hpre & Hr).
      exists (S j). split; [lia |]. split.
      { rewrite Hw'. clear. revert w. induction j as [| j IHj]; intros w.
        - apply after_attempts_succ.
        - rewrite <- (after_attempts_succ (S j) (after_attempts 1 w)).
          rewrite IHj. now rewrite after_attempts_succ. }
      split.
      { intros i Hi. destruct i as [| i].
        - exists s. split; [exact Hg | exact Hs].
        - assert (Hi' : (i < j)%nat) by lia.
          apply Hpre in Hi'. apply fails_retryable_shift in Hi'.
          now rewrite Nat.add_1_r in Hi'. }
      simpl in Hr. rewrite <- Nat.add_succ_comm in Hr.
      destruct r as [text | e]; [exact Hr |].
      destruct Hr as (s' & He & Hg' & Hlast). exists s'.
      split; [exact He |]. split; [exact Hg' |].
      intros H'. now rewrite (Hlast H').
    + intros [= <- <-]. exists 0%nat. repeat split; [lia | intros; lia |].
      exists s. repeat split; auto. congruence.
Qed.

(** ** parse_image, case by case *)

Lemma can_execute_cases (now : Q) (cb : CircuitBreaker) :
  (exists remaining,
      can_execute now cb = (Err (CircuitBreakerOpenError remaining), cb)) \/
  (exists cb1, can_execute now cb = (Ok true, cb1)).
Proof.
  unfold can_execute. destruct (state cb).
  - right. eauto.
  - destruct (Qle_bool _ _); [right | left]; eauto.
  - right. eauto.
Qed.

Lemma parse_image_runs settings env path w :
  forall r w',
    parse_image settings env path w = (r, w') ->
    parse_image_run settings env w r w'.
Proof.
  intros r w'. unfold parse_image, bind, breaker_can_execute.
  destruct (can_execute_cases (env_time_check env) (breaker w))
    as [(remaining & Hc) | (cb1 & Hc)]; rewrite Hc.
  - intros [= <- <-].
    replace (set_breaker (breaker w) w) with w by (destruct w; reflexivity).
    now constructor.
  - fold (entered cb1 w). unfold try_except, _call_gemini_with_retry, retry.
    destruct (retry_loop is_Exception true (call_gemini env path)
                (Z.to_nat (retry_max_attempts settings - 1)) (entered cb1 w))
      as [r0 w2] eqn:Hrun.
    apply retry_loop_shape in Hrun.
    destruct Hrun as (j & Hj & -> & Hpre & Hr).
    destruct r0 as [text | e].
    + unfold breaker_record_success, modify, ret. intros [= <- <-].
      eapply RunSucceeded; eauto.
    + destruct Hr as (s & -> & Hg & Hlast).
      cbn [is_Exception type_name].
      destruct (sdk_is_Exception s) eqn:Hs.
      * specialize (Hlast eq_refl). subst j.
        unfold breaker_record_failure, modify, raise. intros [= <- <-].
        eapply RunExhausted; eauto.
      * unfold raise. intros [= <- <-]. eapply RunInterrupted; eauto.
Qed.

(** [parse_image] always answers. *)
Lemma parse_image_total settings env path w :
  exists r w', parse_image settings env path w = (r, w') /\
               parse_image_run settings env w r w'.
Proof.
  destruct (parse_image settings env path w) as [r w'] eqn:H.
  exists r, w'. split; [reflexivity |]. eapply parse_image_runs; eauto.
Qed.

(** ** What the decorated call does with failures *)

Lemma fails_retryable_not_ok env w i text :
  fails_retryable env w i ->
  env_generate_content env (i + api_calls w)%nat = SdkOk text -> False.
Proof. intros (e & He & _) H. congruence. Qed.

Lemma fails_retryable_is_Exception env w i s :
  fails_retryable env w i ->
  env_generate_content env (i + api_calls w)%nat = SdkErr s ->
  sdk_is_Exception s = true.
Proof. intros (e & He & Hs) H. congruence. Qed.









(** No [LLMServiceError] raised by [parse_image] carries a [retry_after]:
    with [reraise=True] the decorator hands back the last exception itself,
    never a [RetryError], so the handler that would set it is not entered. *)
Lemma parse_image_never_sets_retry_after settings env path w :
  forall message retry_after ctx w',
    parse_image settings env path w
      = (Err (LLMServiceError message retry_after ctx), w') ->
    retry_after = None /\ message = msg_unexpected.
Proof.
  intros message retry_after ctx w' Hrun.
  apply parse_image_runs in Hrun. inversion Hrun; subst.
  split; reflexivity.
Qed.

(** C4, on the code.  The API is down and the breaker is closed.  With the
    default three attempts [parse_image] makes them all and then raises an
    [LLMServiceError] whose [retry_after] is [None] and whose message is
    the one of the unexpected-error handler; with a single attempt it raises
    the very same exception.  The specification wants the error of
    exhausted retries to carry the breaker's recovery timeout and to differ
    from a single-attempt failure. *)
Theorem exhausted_retries_carry_no_retry_after :
  let w := a_world (CircuitBreaker_init 5 60) in
  let exhausted := parse_image default_settings (an_env api_down 0) "a.jpg" w in
  let single := parse_image one_attempt_settings (an_env api_down 0) "a.jpg" w in
  fst exhausted
    = Err (LLMServiceError
             "An unexpected error occurred during text extraction." None
             [("request_id", CtxStr "1b9d6bcd");
              ("error_type", CtxStr "ConnectionError")]) /\
  api_calls (snd exhausted) = 3%nat /\
  api_calls (snd single) = 1%nat /\
  fst single = fst exhausted.
Proof.
  cbv zeta. repeat split; reflexivity.
Qed.

(** ** Breaker events of one protected call *)



Lemma in_attempts k rows rows0 a m :
  In (EvApiAttempt k rows) (List.map (fun k => EvApiAttempt k rows0) (seq a m)) ->
  rows = rows0 /\ exists i, (i < m)%nat /\ k = (i + a)%nat.
Proof.
  rewrite in_map_iff. intros (k' & [= -> ->] & Hin).
  apply in_seq in Hin. split; [reflexivity |]. exists (k - a)%nat. lia.
Qed.

(** The events a run of [parse_image] adds to the trace. *)
Lemma parse_image_run_trace settings env w r w' :
  parse_image_run settings env w r w' ->
  exists admitted_flag j records,
    trace w' =
      trace w ++ [EvCanExecute admitted_flag]
              ++ List.map (fun k => EvApiAttempt k (table w)) (seq (api_calls w) j)
              ++ records /\
    api_calls w' = (j + api_calls w)%nat /\
    table w' = table w /\
    session_note w' = session_note w /\
    flushes w' = flushes w /\
    files w' = files w /\
    (j <= S (Z.to_nat (retry_max_attempts settings - 1)))%nat /\
    (admitted_flag = false -> j = 0%nat) /\
    records =
      match r with
      | Ok _ => [EvRecordSuccess]
      | Err (LLMServiceError _ _ _) => [EvRecordFailure]
      | Err _ => []
      end.
Proof.
  intros Hrun. destruct Hrun.
  - exists false, 0%nat, []. simpl. repeat split; auto; lia.
  - exists true, (S j), [EvRecordSuccess]. subst w2.
    unfold after_attempts, entered, log, set_breaker.
    cbn [breaker api_calls session_note table flushes files trace].
    rewrite <- !app_assoc. repeat split; auto; try lia; try discriminate.
  - exists true, (S n), [EvRecordFailure]. subst w2.
    unfold after_attempts, entered, log, set_breaker.
    cbn [breaker api_calls session_note table flushes files trace].
    rewrite <- !app_assoc. repeat split; auto; try lia; try discriminate.
  - exists true, (S j), [].
    unfold after_attempts, entered, log, set_breaker.
    cbn [breaker api_calls session_note table flushes files trace].
    rewrite <- !app_assoc, app_nil_r. repeat split; auto; try lia; try discriminate.
Qed.

Lemma admitted_not_rejected env w e cb :
  admitted env w ->
  can_execute (env_time_check env) (breaker w) = (Err e, cb) -> False.
Proof. intros (cb1 & H) H'. congruence. Qed.



(** ** list_notes *)

(** C9. A cursor that [datetime.fromisoformat] does not parse is ignored:
    it adds no clause to the query, the page query is the one of a call
    without cursor, so is the answer, and no error is raised on its
    account. *)
Theorem invalid_cursor_is_ignored :
  forall (fromisoformat : string -> option Z) (isoformat : Z -> string)
         (db_ok : bool) (rows : list Row) (limit : Z)
         (cursor : string) (from_date to_date : option string) (sort : string),
    fromisoformat cursor = None ->
    cursor_clauses fromisoformat (Some cursor) sort = [] /\
    notes_query fromisoformat limit (Some cursor) from_date to_date sort
      = notes_query fromisoformat limit None from_date to_date sort /\
    list_notes fromisoformat isoformat db_ok rows limit
               (Some cursor) from_date to_date sort
      = list_notes fromisoformat isoformat db_ok rows limit
                   None from_date to_date sort /\
    (db_ok = true ->
     exists page,
       list_notes fromisoformat isoformat db_ok rows limit
                  (Some cursor) from_date to_date sort = Ok page).
Proof.
  intros fromisoformat isoformat db_ok rows limit cursor from_date to_date sort Hbad.
  assert (Hclauses : cursor_clauses fromisoformat (Some cursor) sort = []).
  { unfold cursor_clauses, truthy. destruct cursor; [reflexivity |].
    now rewrite Hbad. }
  assert (Hquery :
    notes_query fromisoformat limit (Some cursor) from_date to_date sort
    = notes_query fromisoformat limit None from_date to_date sort).
  { unfold notes_query. now rewrite Hclauses. }
  split; [exact Hclauses |]. split; [exact Hquery |]. split.
  - unfold list_notes. now rewrite Hquery.
  - intros ->. unfold list_notes. simpl. eauto.
Qed.

Lemma invalid_cursor_is_ignored_witness :
  list_notes one_date_parser (fun _ => "2024-01-15T10:00:00+00:00") true
             three_rows 2 (Some "yesterday") None None "created_at_desc"
  = list_notes one_date_parser (fun _ => "2024-01-15T10:00:00+00:00") true
               three_rows 2 None None None "created_at_desc".
Proof.
  apply (invalid_cursor_is_ignored one_date_parser
           (fun _ => "2024-01-15T10:00:00+00:00") true three_rows 2
           "yesterday" None None "created_at_desc").
  reflexivity.
Defined.

(** ** The rate limiter *)

Lemma py_max_ge (ts : list Q) :
  forall m, (m <= py_max m ts)%Q /\ forall x, In x ts -> (x <= py_max m ts)%Q.
Proof.
  unfold py_max. induction ts as [| t ts IH]; intros m; simpl.
  - split; [apply Qle_refl | intros x []].
  - destruct (Qltb m t) eqn:E.
    + apply Qltb_true in E. destruct (IH t) as (H1 & H2). split.
      * eapply Qle_trans; [apply Qlt_le_weak; exact E | exact H1].
      * intros x [<- | Hx]; [exact H1 | now apply H2].
    + apply Qltb_false in E. destruct (IH m) as (H1 & H2). split.
      * exact H1.
      * intros x [<- | Hx]; [eapply Qle_trans; eauto | now apply H2].
Qed.

(** A client whose list holds [now] is not cleaned up. *)
Lemma inactive_after_append (window : Z) (now : Q) (kept : list Q) :
  0 <= window ->
  inactive (now - inject_Z window)%Q (kept ++ [now]) = false.
Proof.
  intros HW.
  assert (HWq : (0 <= inject_Z window)%Q)
    by (change 0%Q with (inject_Z 0); now rewrite <- Zle_Qle).
  assert (Hin : In now (kept ++ [now])) by (apply in_or_app; right; now left).
  destruct (kept ++ [now]) as [| t ts] eqn:E; [destruct Hin |].
  simpl. apply Qltb_false.
  assert (Hle : (now <= py_max t ts)%Q).
  { destruct (py_max_ge ts t) as (H1 & H2).
    destruct Hin as [-> | Hin]; [exact H1 | now apply H2]. }
  lra.
Qed.

Lemma filter_all {A} (f : A -> bool) (l : list A) :
  (forall x, In x l -> f x = true) -> List.filter f l = l.
Proof.
  induction l as [| a l IH]; intros H; simpl; [reflexivity |].
  rewrite (H a) by now left. f_equal. apply IH. intros x Hx. apply H. now right.
Qed.

Lemma kept_at_in settings now timestamps x :
  In x (kept_at settings now timestamps) ->
  (now - inject_Z (rate_limit_window settings) < x)%Q.
Proof.
  unfold kept_at. rewrite filter_In. intros (_ & H). now apply Qltb_true.
Qed.

Lemma requests_of_lookup ip (requests : gmap string (list Q)) l :
  requests !! ip = Some l -> requests_of ip requests = l.
Proof. unfold requests_of. now intros ->. Qed.

(** A request under the limit is admitted and appended. *)
Lemma dispatch_admits settings path ip now (requests : gmap string (list Q)) :
  rate_limited path ->
  Z.of_nat (length (kept_at settings now (requests_of ip requests)))
    < rate_limit_requests settings ->
  0 <= rate_limit_window settings ->
  exists requests',
    dispatch settings path ip now requests = (Ok CallNext, requests') /\
    requests' !! ip = Some (kept_at settings now (requests_of ip requests) ++ [now]).
Proof.
  intros Hpath Hlt HW. unfold dispatch. rewrite Hpath.
  fold (kept_at settings now (requests_of ip requests)).
  set (kept := kept_at settings now (requests_of ip requests)) in *.
  destruct (Z.leb_spec (rate_limit_requests settings) (Z.of_nat (length kept)));
    [lia |].
  eexists. split; [reflexivity |].
  destruct (_ =? 0).
  - unfold _cleanup_inactive_ips. apply map_lookup_filter_Some. split.
    + apply lookup_insert_eq.
    + simpl. now apply inactive_after_append.
  - apply lookup_insert_eq.
Qed.

(** A request at the limit is rejected; the answer names the next whole
    second after the oldest kept timestamp leaves the window. *)
Lemma dispatch_rejects settings path ip now (requests : gmap string (list Q))
      oldest rest :
  rate_limited path ->
  kept_at settings now (requests_of ip requests) = oldest :: rest ->
  rate_limit_requests settings <= Z.of_nat (length (oldest :: rest)) ->
  let remaining := (oldest + inject_Z (rate_limit_window settings) - now)%Q in
  dispatch settings path ip now requests
    = (Ok (TooManyRequests (Qfloor remaining + 1)),
       <[ip := oldest :: rest]> requests) /\
  (0 < remaining)%Q.
Proof.
  intros Hpath Hkept Hle remaining.
  assert (Hpos : (0 < remaining)%Q).
  { assert (Hin : In oldest (kept_at settings now (requests_of ip requests)))
      by (rewrite Hkept; now left).
    apply kept_at_in in Hin. unfold remaining. lra. }
  split; [| exact Hpos].
  unfold dispatch. rewrite Hpath.
  fold (kept_at settings now (requests_of ip requests)). rewrite Hkept.
  destruct (Z.leb_spec (rate_limit_requests settings)
                       (Z.of_nat (length (oldest :: rest)))); [| lia].
  fold remaining. rewrite py_int_nonneg by now apply Qlt_le_weak. reflexivity.
Qed.

Lemma within_window_positive window times t :
  within_window window times -> In t times -> 0 < window.
Proof.
  intros H Hin. specialize (H t t Hin Hin).
  rewrite Zlt_Qlt. change (inject_Z 0) with 0%Q. lra.
Qed.

(** Requests that stay under the limit within one window are all admitted
    and recorded in order. *)
Lemma dispatch_all_admits settings path ip :
  rate_limited path ->
  forall times done (requests : gmap string (list Q)),
    requests_of ip requests = done ->
    Z.of_nat (length done + length times) <= rate_limit_requests settings ->
    within_window (rate_limit_window settings) (done ++ times) ->
    0 <= rate_limit_window settings ->
    exists requests',
      dispatch_all settings path ip times requests
        = (repeat (Ok CallNext) (length times), requests') /\
      requests_of ip requests' = done ++ times.
Proof.
  intros Hpath. induction times as [| t times IH]; intros done requests Hdone Hlen Hin HW.
  - exists requests. simpl. now rewrite app_nil_r.
  - assert (Hkept : kept_at settings t (requests_of ip requests) = done).
    { rewrite Hdone. apply filter_all. intros x Hx. apply Qltb_true.
      assert (H : (t - x < inject_Z (rate_limit_window settings))%Q).
      { apply Hin; apply in_or_app; [right; now left | now left]. }
      lra. }
    destruct (dispatch_admits settings path ip t requests Hpath)
      as (requests1 & Hstep & Hlookup); [rewrite Hkept; simpl in Hlen; lia | exact HW |].
    rewrite Hkept in Hlookup.
    destruct (IH (done ++ [t]) requests1) as (requests' & Hrest & Hfinal).
    + now apply requests_of_lookup.
    + rewrite length_app. simpl in *. lia.
    + now rewrite <- app_assoc.
    + exact HW.
    + exists requests'. simpl. rewrite Hstep, Hrest.
      split; [reflexivity |]. now rewrite Hfinal, <- app_assoc.
Qed.

(** C8, as the code has it.  On a rate-limited path every request of a
    client first prunes the client's timestamps to those later than
    [now - window]; under the limit it is admitted and [now] is appended;
    at the limit it is rejected with
    [retry_after = floor(oldest + window - now) + 1], the least whole
    number above the time left, which is at least 1.  A client without
    earlier requests whose [N] requests and the next one lie in a stretch
    shorter than the window has all [N] admitted and the next one
    rejected. *)
Theorem rate_limit_sliding_window :
  forall settings path ip (requests : gmap string (list Q)),
    rate_limited path ->
    let N := rate_limit_requests settings in
    let W := rate_limit_window settings in
    (forall now,
       let kept := kept_at settings now (requests_of ip requests) in
       (Z.of_nat (length kept) < N -> 0 <= W ->
        exists requests',
          dispatch settings path ip now requests = (Ok CallNext, requests') /\
          requests' !! ip = Some (kept ++ [now])) /\
       (forall oldest rest,
          kept = oldest :: rest -> N <= Z.of_nat (length kept) ->
          let remaining := (oldest + inject_Z W - now)%Q in
          let retry_after := Qfloor remaining + 1 in
          dispatch settings path ip now requests
            = (Ok (TooManyRequests retry_after), <[ip := kept]> requests) /\
          1 <= retry_after /\
          (remaining < inject_Z retry_after)%Q /\
          (inject_Z retry_after <= remaining + 1)%Q))
    /\
    (forall oldest rest now,
       requests_of ip requests = [] ->
       Z.of_nat (length (oldest :: rest)) = N ->
       within_window W ((oldest :: rest) ++ [now]) ->
       exists requests_N requests',
         dispatch_all settings path ip (oldest :: rest) requests
           = (repeat (Ok CallNext) (length (oldest :: rest)), requests_N) /\
         requests_N !! ip = Some (oldest :: rest) /\
         dispatch settings path ip now requests_N
           = (Ok (TooManyRequests (Qfloor (oldest + inject_Z W - now) + 1)),
              requests') /\
         1 <= Qfloor (oldest + inject_Z W - now) + 1).
Proof.
  intros settings path ip requests Hpath N W.
  assert (Hfloor : forall x : Q, (0 < x)%Q ->
            1 <= Qfloor x + 1 /\ (x < inject_Z (Qfloor x + 1))%Q /\
            (inject_Z (Qfloor x + 1) <= x + 1)%Q).
  { intros x Hx. split; [| split].
    - assert (0 <= Qfloor x); [| lia].
      change 0 with (Qfloor 0). apply Qfloor_resp_le. now apply Qlt_le_weak.
    - apply Qlt_floor.
    - rewrite inject_Z_plus. pose proof (Qfloor_le x).
      change (inject_Z 1) with 1%Q. lra. }
  split.
  - intros now kept. split.
    + intros Hlt HW. now apply dispatch_admits.
    + intros oldest rest Hkept Hle remaining retry_after.
      destruct (dispatch_rejects settings path ip now requests oldest rest
                  Hpath Hkept) as (Hrun & Hpos); [now rewrite <- Hkept |].
      split; [rewrite Hkept; exact Hrun |]. now apply Hfloor.
  - intros oldest rest now Hfresh Hlen Hin.
    assert (HW : 0 < W).
    { eapply within_window_positive; [exact Hin |]. now left. }
    destruct (dispatch_all_admits settings path ip Hpath (oldest :: rest) []
                requests Hfresh) as (requests_N & Hall & Hfinal).
    + simpl in *. lia.
    + intros a b Ha Hb. apply Hin; apply in_or_app; now left.
    + unfold W in HW. lia.
    + simpl app in Hfinal.
      assert (Hlookup : requests_N !! ip = Some (oldest :: rest)).
      { unfold requests_of in Hfinal.
        destruct (requests_N !! ip); [now subst | discriminate]. }
      assert (Hkept : kept_at settings now (requests_of ip requests_N)
                      = oldest :: rest).
      { rewrite Hfinal. apply filter_all. intros x Hx. apply Qltb_true.
        assert (H : (now - x < inject_Z W)%Q).
        { apply Hin; apply in_or_app; [right; now left | now left]. }
        unfold W in H. lra. }
      destruct (dispatch_rejects settings path ip now requests_N oldest rest
                  Hpath Hkept) as (Hrun & Hpos); [unfold N in Hlen; lia |].
      exists requests_N, (<[ip := oldest :: rest]> requests_N).
      split; [exact Hall |]. split; [exact Hlookup |].
      split; [exact Hrun |]. now apply Hfloor.
Qed.

Lemma rate_limit_sliding_window_witness :
  exists requests_N requests',
    dispatch_all two_per_minute "/api/parse" "10.0.0.1" [0; 1]%Q ∅
      = ([Ok CallNext; Ok CallNext], requests_N) /\
    requests_N !! "10.0.0.1" = Some [0; 1]%Q /\
    dispatch two_per_minute "/api/parse" "10.0.0.1" (111 # 2) requests_N
      = (Ok (TooManyRequests 5), requests').
Proof.
  destruct (rate_limit_sliding_window two_per_minute "/api/parse" "10.0.0.1" ∅
              eq_refl) as (_ & Hrun).
  destruct (Hrun 0%Q [1%Q] (111 # 2)) as (requests_N & requests' & H1 & H2 & H3 & _).
  - reflexivity.
  - reflexivity.
  - intros a b Ha Hb. simpl in Ha, Hb.
    destruct Ha as [<- | [<- | [<- | []]]], Hb as [<- | [<- | [<- | []]]];
      reflexivity.
  - exists requests_N, requests'. split; [exact H1 |]. split; [exact H2 | exact H3].
Defined.

(** C8 as stated fails where the time left is a whole number of seconds:
    two requests at times 0 and 1 fill a limit of two per minute; the
    request at time 55 is rejected with [retry_after = 6], while
    [oldest + window - now = 5] rounded up is 5. *)
Lemma retry_after_is_not_the_ceiling :
  let requests :=
    snd (dispatch_all two_per_minute "/api/parse" "10.0.0.1" [0; 1]%Q ∅) in
  fst (dispatch two_per_minute "/api/parse" "10.0.0.1" 55%Q requests)
    = Ok (TooManyRequests 6) /\
  fst (dispatch two_per_minute "/api/parse" "10.0.0.1" 55%Q requests)
    <> Ok (TooManyRequests (Qceiling (0 + inject_Z 60 - 55)%Q)).
Proof.
  cbv zeta. split; [reflexivity |]. intros H.
  assert (E : fst (dispatch two_per_minute "/api/parse" "10.0.0.1" 55%Q
                     (snd (dispatch_all two_per_minute "/api/parse" "10.0.0.1"
                             [0; 1]%Q ∅)))
              = Ok (TooManyRequests 6)) by reflexivity.
  rewrite E in H. discriminate H.
Qed.

(** ** parse_note, path by path *)

(** The clean-up touches the stored files and nothing else. *)
Lemma cleaned_spec path w :
  breaker (cleaned path w) = breaker w /\
  api_calls (cleaned path w) = api_calls w /\
  session_note (cleaned path w) = session_note w /\
  table (cleaned path w) = table w /\
  exists tail,
    trace (cleaned path w) = trace w ++ tail /\
    forall ev, In ev tail ->
      is_api_attempt ev = false /\ is_protected_call ev = false.
Proof.
  unfold cleaned. destruct (String.eqb path "").
  - repeat split. exists []. split; [now rewrite app_nil_r | intros ev []].
  - repeat split. exists [EvCleanup path]. split; [reflexivity |].
    intros ev [<- | []]. split; reflexivity.
Qed.

(** A flush raises database errors only. *)
Lemma db_flush_raises env w e w' :
  db_flush env w = (Err e, w') -> exists msg, e = SQLAlchemyError msg.
Proof.
  unfold db_flush. destruct (env_flush env (flushes w)).
  - intros [= <- _]. eauto.
  - destruct (session_note _); discriminate.
Qed.

(** A flush adds one event, which is not a call of the API. *)
Lemma db_flush_trace env w :
  exists ev,
    trace (snd (db_flush env w)) = trace w ++ [ev] /\ is_api_attempt ev = false.
Proof.
  unfold db_flush. destruct (env_flush env (flushes w)).
  - eexists. cbn. split; reflexivity.
  - destruct (session_note _) eqn:E; eexists; cbn; split; reflexivity.
Qed.

Lemma store_and_record_ok env filename content content_length w absolute relative :
  env_validate_and_store env filename content content_length
    = inl (absolute, relative) ->
  env_flush env (flushes w) = None ->
  store_and_record env filename content content_length
    {| absolute_path := None; world := w |}
  = (Ok (absolute, relative),
     {| absolute_path := Some absolute; world := stored env absolute relative w |}).
Proof.
  intros Hv Hf.
  unfold store_and_record, bind, lift, validate_and_store, set_absolute_path,
    db_add, modify, db_flush, ret.
  cbn [world absolute_path]. rewrite Hv. world. rewrite Hf.
  cbn [new_note note_id]. unfold processing_row, processing_note, row_of.
  cbn [new_note image_path parsed_text status error_message created_at
       retry_count from_option_Z].
  rewrite <- !app_assoc. reflexivity.
Qed.

(** Step 1 fails: nothing was stored, nothing is recorded. *)
Lemma parse_note_invalid settings env filename content content_length w failure :
  env_validate_and_store env filename content content_length = inr failure ->
  parse_note settings env filename content content_length w
  = (Err match failure with
         | InvalidFile m => ValidationError m
         | StorageFailed m => FileStorageError m
         end, w).
Proof.
  intros Hv.
  unfold parse_note, try_except, parse_note_try, store_and_record, bind, lift,
    validate_and_store.
  cbn [world absolute_path]. rewrite Hv. destruct failure; reflexivity.
Qed.

(** Step 2 fails: the stored file is cleaned up and a [DatabaseError] is
    raised. *)
Lemma parse_note_flush_failed
      settings env filename content content_length w absolute relative msg :
  env_validate_and_store env filename content content_length
    = inl (absolute, relative) ->
  env_flush env (flushes w) = Some msg ->
  exists w' tail,
    parse_note settings env filename content content_length w
    = (Err (database_error (SQLAlchemyError msg)), w') /\
    trace w' = trace w ++ [EvValidated absolute relative;
                           EvDbAdd (new_note relative);
                           EvFlushFailed] ++ tail /\
    (forall ev, In ev tail -> is_protected_call ev = false) /\
    table w' = table w.
Proof.
  intros Hv Hf.
  unfold parse_note, try_except, parse_note_try, store_and_record, bind, lift,
    validate_and_store, set_absolute_path, db_add, modify, db_flush.
  cbn [world absolute_path]. rewrite Hv. world. rewrite Hf.
  cbn [is_LLMServiceError is_Exception is_ScribeSnapError].
  unfold on_exception, bind, gets, lift, cleanup_file, modify, raise, ret.
  cbn [world absolute_path].
  match goal with
  | |- context [{| breaker := breaker w; api_calls := ?a; session_note := ?n;
                   table := ?t; flushes := ?f; files := ?fs; trace := ?tr |}] =>
      set (w1 := {| breaker := breaker w; api_calls := a; session_note := n;
                    table := t; flushes := f; files := fs; trace := tr |})
  end.
  destruct (cleaned_spec absolute w1) as (_ & _ & _ & Ht & tail & Htr & Hq).
  exists (cleaned absolute w1), tail.
  split; [unfold cleaned; destruct (String.eqb absolute ""); reflexivity |].
  split; [| split; [intros ev Hin; now apply Hq | exact Ht]].
  rewrite Htr. subst w1. cbn [trace]. now rewrite <- !app_assoc.
Qed.

(** Step 3 fails with something that is not an [LLMServiceError]. *)
Lemma parse_note_call_failed
      settings env filename content content_length w absolute relative e w4 :
  env_validate_and_store env filename content content_length
    = inl (absolute, relative) ->
  env_flush env (flushes w) = None ->
  parse_image settings env absolute (stored env absolute relative w) = (Err e, w4) ->
  is_LLMServiceError e = false ->
  parse_note settings env filename content content_length w
  = if is_Exception e
    then (Err (if is_ScribeSnapError e then e else database_error e),
          cleaned absolute w4)
    else (Err e, w4).
Proof.
  intros Hv Hf Hrun Hllm.
  unfold parse_note, try_except, parse_note_try, bind.
  rewrite (store_and_record_ok _ _ _ _ _ _ _ Hv Hf).
  unfold lift at 1. cbn [world absolute_path]. rewrite Hrun, Hllm.
  destruct (is_Exception e); [| reflexivity].
  unfold on_exception, bind, gets, lift, cleanup_file, modify, raise, ret, cleaned.
  cbn [world absolute_path].
  destruct (String.eqb absolute ""); cbn [world absolute_path];
    destruct (is_ScribeSnapError e); reflexivity.
Qed.

(** Step 3 fails with an [LLMServiceError]: the note is marked, the flush
    is attempted, the error goes on. *)
Lemma parse_note_llm_failed
      settings env filename content content_length w absolute relative e w4 n c :
  env_validate_and_store env filename content content_length
    = inl (absolute, relative) ->
  env_flush env (flushes w) = None ->
  parse_image settings env absolute (stored env absolute relative w) = (Err e, w4) ->
  is_LLMServiceError e = true ->
  session_note w4 = Some n ->
  retry_count n = Some c ->
  parse_note settings env filename content content_length w
  = (Err e,
     snd (db_flush env
            (set_session_note (Some (failed_note (exn_message e) n)) w4))).
Proof.
  intros Hv Hf Hrun Hllm Hn Hc.
  unfold parse_note, try_except, parse_note_try, bind.
  rewrite (store_and_record_ok _ _ _ _ _ _ _ Hv Hf).
  unfold lift at 1. cbn [world absolute_path]. rewrite Hrun, Hllm.
  unfold on_llm_error, bind, lift, gets, note_update, modify, try_except, raise.
  cbn [world absolute_path]. rewrite Hn, Hc. world. rewrite Hn.
  cbn [option_map].
  replace (with_retry_count (c + 1)
             (with_error_message (Some (exn_message e)) (with_status "failed" n)))
    with (failed_note (exn_message e) n)
    by (unfold failed_note, with_retry_count, with_error_message, with_status;
        cbn; now rewrite Hc).
  match goal with
  | |- context [db_flush env ?x] => destruct (db_flush env x) as [[[] | e'] w5] eqn:Hflush
  end; cbn [snd]; [reflexivity |].
  destruct (db_flush_raises _ _ _ _ Hflush) as (msg & ->). reflexivity.
Qed.

(** Step 3 succeeds: what follows adds no call of the API. *)
Lemma parse_note_after_success
      settings env filename content content_length w absolute relative text w4 :
  env_validate_and_store env filename content content_length
    = inl (absolute, relative) ->
  env_flush env (flushes w) = None ->
  parse_image settings env absolute (stored env absolute relative w) = (Ok text, w4) ->
  forall r w',
    parse_note settings env filename content content_length w = (r, w') ->
    exists tail,
      trace w' = trace w4 ++ tail /\
      forall ev, In ev tail -> is_api_attempt ev = false.
Proof.
  intros Hv Hf Hrun r w'.
  unfold parse_note, try_except, parse_note_try, bind.
  rewrite (store_and_record_ok _ _ _ _ _ _ _ Hv Hf).
  unfold lift at 1. cbn [world absolute_path]. rewrite Hrun.
  unfold complete_note, bind, lift, note_update, modify, gets.
  cbn [world absolute_path].
  match goal with
  | |- context [db_flush env ?x] =>
      destruct (db_flush_trace env x) as (ev & Htr & Hev);
      destruct (db_flush env x) as [[[] | e'] w5] eqn:Hflush
  end; cbn [snd] in Htr; revert Htr; world; intros Htr.
  - destruct (session_note w5); cbn [ret raise world absolute_path].
    + intros [= <- <-].
      exists [ev]. split; [exact Htr | now intros ? [<- | []]].
    + cbn [is_LLMServiceError is_Exception is_ScribeSnapError].
      unfold on_exception, bind, gets, lift, cleanup_file, modify, raise, ret.
      cbn [world absolute_path].
      destruct (cleaned_spec absolute w5) as (_ & _ & _ & _ & tail & Htl & Hq).
      unfold cleaned in Htl.
      destruct (String.eqb absolute ""); cbn [world absolute_path];
        intros [= <- <-]; exists (ev :: tail);
        (split; [rewrite Htl, Htr, <- app_assoc; reflexivity |]);
        intros ? [<- | Hin]; auto; now apply Hq.
  - destruct (db_flush_raises _ _ _ _ Hflush) as (msg & ->).
    cbn [is_LLMServiceError is_Exception is_ScribeSnapError].
    unfold on_exception, bind, gets, lift, cleanup_file, modify, raise, ret.
    cbn [world absolute_path].
    destruct (cleaned_spec absolute w5) as (_ & _ & _ & _ & tail & Htl & Hq).
    unfold cleaned in Htl.
    destruct (String.eqb absolute ""); cbn [world absolute_path];
      intros [= <- <-]; exists (ev :: tail);
      (split; [rewrite Htl, Htr, <- app_assoc; reflexivity |]);
      intros ? [<- | Hin]; auto; now apply Hq.
Qed.

Lemma parse_image_errors settings env w e w' :
  parse_image_run settings env w (Err e) w' ->
  (exists remaining, e = CircuitBreakerOpenError remaining) \/
  (exists ctx, e = LLMServiceError msg_unexpected None ctx) \/
  (exists s, e = Sdk s /\ sdk_is_Exception s = false).
Proof.
  intros H. inversion H; subst; eauto.
Qed.

(** Every run of [parse_note] that gets past steps 1 and 2: the trace is
    that of the stored world, then the breaker's answer, the calls of the
    API, each seeing the table as stored, and then events that are not
    calls of the API. *)
Lemma parse_note_after_storing
      settings env filename content content_length w absolute relative r w' :
  env_validate_and_store env filename content content_length
    = inl (absolute, relative) ->
  env_flush env (flushes w) = None ->
  parse_note settings env filename content content_length w = (r, w') ->
  exists flag j rest,
    trace w' =
      trace (stored env absolute relative w)
        ++ [EvCanExecute flag]
        ++ List.map (fun k => EvApiAttempt k (table (stored env absolute relative w)))
                    (seq (api_calls w) j)
        ++ rest /\
    forall ev, In ev rest -> is_api_attempt ev = false.
Proof.
  intros Hv Hf Hnote.
  destruct (parse_image settings env absolute (stored env absolute relative w))
    as [r4 w4] eqn:Hrun.
  pose proof (parse_image_runs _ _ _ _ _ _ Hrun) as Hcase.
  destruct (parse_image_run_trace _ _ _ _ _ Hcase)
    as (flag & j & records & Htr & _ & _ & Hsess & _ & _ & _ & _ & Hrec).
  assert (Hquiet : forall ev, In ev records -> is_api_attempt ev = false).
  { subst records. destruct r4 as [| []]; simpl; intros ev H;
      repeat (destruct H as [<- | H]; [reflexivity |]); destruct H. }
  assert (Htail : exists tail, trace w' = trace w4 ++ tail /\
                    forall ev, In ev tail -> is_api_attempt ev = false).
  { destruct r4 as [text | e].
    - eapply parse_note_after_success; eauto.
    - destruct (is_LLMServiceError e) eqn:Hllm.
      + rewrite (parse_note_llm_failed _ _ _ _ _ _ _ _ _ _
                   (processing_note env relative w) 0 Hv Hf Hrun Hllm)
          in Hnote; [| exact Hsess | reflexivity].
        injection Hnote as <- <-.
        match goal with
        | |- context [db_flush env ?x] =>
            destruct (db_flush_trace env x) as (ev & Hev & Hq)
        end.
        exists [ev]. split; [exact Hev | now intros ? [<- | []]].
      + rewrite (parse_note_call_failed _ _ _ _ _ _ _ _ _ _ Hv Hf Hrun Hllm)
          in Hnote.
        destruct (is_Exception e); injection Hnote as <- <-.
        * destruct (cleaned_spec absolute w4) as (_ & _ & _ & _ & tail & Htl & Hq).
          exists tail. split; [exact Htl | intros ev Hin; now apply Hq].
        * exists []. split; [now rewrite app_nil_r | intros ? []]. }
  destruct Htail as (tail & Htail & Hquiet').
  exists flag, j, (records ++ tail). split.
  - rewrite Htail, Htr. cbn [api_calls stored]. rewrite <- !app_assoc. reflexivity.
  - intros ev Hin. apply in_app_or in Hin. destruct Hin; auto.
Qed.

(** C6. In every run of [parse_note], the protected call, that is the
    breaker's check and each call of the API behind it, comes after the
    input was validated, the [Note] was added to the session and the flush
    that inserted it succeeded, in this order; the table as that flush left
    it holds the note's row in state [processing], and it is the table that
    each call of the API sees. *)
Theorem note_is_stored_before_external_call :
  forall settings env filename content content_length w,
    let w' := snd (parse_note settings env filename content content_length w) in
    exists new,
      trace w' = trace w ++ new /\
      forall ev,
        In ev new ->
        is_protected_call ev = true ->
        exists absolute relative rows rest row,
          env_validate_and_store env filename content content_length
            = inl (absolute, relative) /\
          new = EvValidated absolute relative
                  :: EvDbAdd (new_note relative) :: EvFlush rows :: rest /\
          In ev rest /\
          In row rows /\
          row_status row = "processing" /\
          row_image_path row = relative /\
          forall k seen, ev = EvApiAttempt k seen -> seen = rows.
Proof.
  intros settings env filename content content_length w.
  destruct (parse_note settings env filename content content_length w)
    as [r w'] eqn:Hnote. cbn [snd].
  destruct (env_validate_and_store env filename content content_length)
    as [[absolute relative] | failure] eqn:Hv.
  - destruct (env_flush env (flushes w)) as [msg |] eqn:Hf.
    + destruct (parse_note_flush_failed settings _ _ _ _ _ _ _ _ Hv Hf)
        as (w1 & tail & Hrun & Htr & Hq & _).
      rewrite Hrun in Hnote. injection Hnote as <- <-.
      eexists. split; [exact Htr |].
      intros ev [<- | [<- | [<- | Hin]]] Hcall; try discriminate Hcall.
      rewrite (Hq ev Hin) in Hcall. discriminate Hcall.
    + destruct (parse_note_after_storing _ _ _ _ _ _ _ _ _ _ Hv Hf Hnote)
        as (flag & j & rest & Htr & Hquiet).
      cbn [stored trace table] in Htr. rewrite <- app_assoc in Htr.
      eexists. split; [exact Htr |].
      intros ev Hin Hcall. cbn [app] in Hin.
      destruct Hin as [<- | [<- | [<- | Hin]]]; try discriminate Hcall.
      exists absolute, relative, (table w ++ [processing_row env relative w]).
      eexists. exists (processing_row env relative w).
      split; [reflexivity |]. split; [reflexivity |].
      split; [exact Hin |].
      split; [apply in_or_app; right; now left |].
      split; [reflexivity |]. split; [reflexivity |].
      intros k seen ->.
      destruct Hin as [H | Hin]; [discriminate H |].
      apply in_app_or in Hin. destruct Hin as [Hin | Hin].
      * now apply in_attempts in Hin.
      * apply Hquiet in Hin. discriminate Hin.
  - rewrite (parse_note_invalid _ _ _ _ _ _ _ Hv) in Hnote.
    injection Hnote as <- <-. exists []. split; [now rewrite app_nil_r |].
    intros ev [].
Qed.

Lemma note_is_stored_before_external_call_witness :
  exists rows rest row,
    trace (snd (parse_note default_settings (an_env api_third_time_lucky 0)
                  "a.jpg" [] None (a_world (CircuitBreaker_init 5 60))))
    = EvValidated "/srv/storage/2024/01/15/a.jpg" "2024/01/15/a.jpg"
        :: EvDbAdd (new_note "2024/01/15/a.jpg") :: EvFlush rows :: rest /\
    In (EvApiAttempt 2 rows) rest /\
    In row rows /\ row_status row = "processing".
Proof.
  destruct (note_is_stored_before_external_call default_settings
              (an_env api_third_time_lucky 0) "a.jpg" [] None
              (a_world (CircuitBreaker_init 5 60))) as (new & Htr & Hcalls).
  cbn [a_world trace app] in Htr.
  destruct (Hcalls (EvApiAttempt 2
              [row_of 7 1705312800 0 (new_note "2024/01/15/a.jpg")]))
    as (absolute & relative & rows & rest & row
        & Hv & Hnew & Hin & Hrow & Hst & _ & Hseen).
  - rewrite <- Htr. vm_compute. do 6 right. now left.
  - reflexivity.
  - injection Hv as <- <-.
    rewrite <- (Hseen _ _ eq_refl) in *.
    exists [row_of 7 1705312800 0 (new_note "2024/01/15/a.jpg")], rest, row.
    rewrite Htr, Hnew. repeat split; assumption.
Defined.

(** ** What parse_note does when the protected call fails *)

(** The breaker rejects the call: the error is not an [LLMServiceError], so
    the handler that marks the note is not entered.  The stored file is
    removed, the note stays as it was stored, in state [processing]. *)
Lemma parse_note_breaker_open
      settings env filename content content_length w absolute relative remaining :
  env_validate_and_store env filename content content_length
    = inl (absolute, relative) ->
  env_flush env (flushes w) = None ->
  can_execute (env_time_check env) (breaker w)
    = (Err (CircuitBreakerOpenError remaining), breaker w) ->
  exists w',
    parse_note settings env filename content content_length w
      = (Err (CircuitBreakerOpenError remaining), w') /\
    session_note w' = Some (processing_note env relative w) /\
    table w' = table w ++ [processing_row env relative w] /\
    api_calls w' = api_calls w.
Proof.
  intros Hv Hf Hrej.
  assert (Hrun : parse_image settings env absolute (stored env absolute relative w)
                 = (Err (CircuitBreakerOpenError remaining),
                    log (EvCanExecute false) (stored env absolute relative w)))
    by (apply parse_image_rejected; exact Hrej).
  rewrite (parse_note_call_failed _ _ _ _ _ _ _ _ _ _ Hv Hf Hrun eq_refl).
  cbn [is_Exception is_ScribeSnapError]. eexists. split; [reflexivity |].
  destruct (cleaned_spec absolute
              (log (EvCanExecute false) (stored env absolute relative w)))
    as (_ & Ha & Hs & Ht & _).
  rewrite Ha, Hs, Ht. repeat split.
Qed.
Lemma db_flush_update env w n i t c :
  session_note w = Some n ->
  note_id n = Some i -> created_at n = Some t -> retry_count n = Some c ->
  env_flush env (flushes w) = None ->
  exists w5,
    db_flush env w = (Ok tt, w5) /\
    session_note w5 = Some n /\
    table w5 =
      List.map (fun r0 => if Nat.eqb (row_id r0) i then row_of i t c n else r0)
               (table w).
Proof.
  intros Hs Hi Ht Hc Hf. unfold db_flush.
  unfold set_flushes. cbn [flushes session_note table].
  rewrite Hf, Hs, Hi, Ht, Hc. cbn [from_option_Z].
  eexists. split; [reflexivity |]. unfold log, set_table, set_session_note.
  cbn [session_note table]. split; [| reflexivity].
  destruct n; cbn in Hi, Ht, Hc; subst; reflexivity.
Qed.

Lemma db_flush_failure env w msg :
  env_flush env (flushes w) = Some msg ->
  exists w5,
    db_flush env w = (Err (SQLAlchemyError msg), w5) /\
    session_note w5 = session_note w /\ table w5 = table w.
Proof.
  intros Hf. unfold db_flush. rewrite Hf. eexists. split; [reflexivity |].
  split; reflexivity.
Qed.

(** Every permitted attempt fails: the [LLMServiceError] handler marks the
    note failed, stores the message and counts one attempt; the note's row
    follows when the handler's flush succeeds. *)
Lemma parse_note_retries_exhausted
      settings env filename content content_length w absolute relative :
  env_validate_and_store env filename content content_length
    = inl (absolute, relative) ->
  env_flush env (flushes w) = None ->
  admitted env w ->
  (forall i, (i <= Z.to_nat (retry_max_attempts settings - 1))%nat ->
             fails_retryable env w i) ->
  exists ctx w' n,
    parse_note settings env filename content content_length w
      = (Err (LLMServiceError msg_unexpected None ctx), w') /\
    session_note w' = Some n /\
    status n = "failed" /\
    error_message n = Some msg_unexpected /\
    retry_count n = Some 1 /\
    (env_flush env (S (flushes w)) = None ->
     exists row,
       table w' =
         List.map (fun r0 => if Nat.eqb (row_id r0) (row_id row) then row else r0)
                  (table w) ++ [row] /\
       row_status row = "failed" /\
       row_error_message row = Some msg_unexpected /\
       row_retry_count row = 1).
Proof.
  intros Hv Hf Hadm Hall.
  destruct (parse_image_total settings env absolute (stored env absolute relative w))
    as (r4 & w4 & Hrun & Hcase).
  destruct Hcase as [remaining Hrej | cb1 j text _ Hj _ Hg w2
                    | cb1 s _ n _ Hg Hs w2 | cb1 j s _ Hj _ Hg Hs].
  - exfalso. eapply admitted_not_rejected; eauto.
  - exfalso. eapply fails_retryable_not_ok; [apply (Hall j Hj) | exact Hg].
  - set (w4 := log EvRecordFailure
                 (set_breaker (record_failure (env_time_failure env) cb1) w2)) in *.
    assert (Hfl : flushes w4 = S (flushes w)) by reflexivity.
    assert (Htb : table w4 = table w ++ [processing_row env relative w])
      by reflexivity.
    assert (Hsn : session_note w4 = Some (processing_note env relative w))
      by reflexivity.
    clearbody w4.
    rewrite (parse_note_llm_failed _ _ _ _ _ _ _ _ _ _
               (processing_note env relative w) 0 Hv Hf Hrun eq_refl Hsn eq_refl).
    unfold unexpected_error, mk_LLMServiceError. cbn [exn_message].
    set (fn := failed_note msg_unexpected (processing_note env relative w)).
    set (X := set_session_note (Some fn) w4).
    assert (HXs : session_note X = Some fn) by reflexivity.
    assert (HXf : flushes X = S (flushes w)) by exact Hfl.
    assert (HXt : table X = table w ++ [processing_row env relative w])
      by exact Htb.
    clearbody X.
    destruct (env_flush env (S (flushes w))) as [msg |] eqn:Hf2.
    + destruct (db_flush_failure env X msg) as (w5 & Hrun5 & Hs5 & _);
        [now rewrite HXf |].
      rewrite Hrun5. cbn [snd]. eexists. exists w5, fn.
      split; [reflexivity |]. split; [now rewrite Hs5 |].
      repeat split. discriminate.
    + destruct (db_flush_update env X fn (env_uuid4 env (flushes w))
                  (env_utcnow env (flushes w)) 1 HXs eq_refl eq_refl eq_refl)
        as (w5 & Hrun5 & Hs5 & Ht5); [now rewrite HXf |].
      rewrite Hrun5. cbn [snd]. eexists. exists w5, fn.
      split; [reflexivity |]. split; [exact Hs5 |].
      repeat split. intros _.
      exists (row_of (env_uuid4 env (flushes w)) (env_utcnow env (flushes w)) 1 fn).
      split; [| repeat split].
      rewrite Ht5, HXt, List.map_app. cbn [List.map row_id row_of processing_row].
      now rewrite Nat.eqb_refl.
  - exfalso. assert (sdk_is_Exception s = true); [| congruence].
    eapply fails_retryable_is_Exception; [apply (Hall j Hj) | exact Hg].
Qed.

(** C1, on the code.  The breaker opened at time 0; a note is uploaded at
    time 10.  Validation and the first flush succeed, [parse_image] raises
    [CircuitBreakerOpenError], and [parse_note] hands it on after removing
    the stored file: the note and its row are still in state [processing],
    with no error message and a retry count of 0.  The specification wants
    the note [failed], with an error detail and one attempt counted, as the
    code does on the sibling path, when the retries are exhausted (second
    part). *)
Theorem breaker_rejection_leaves_note_processing :
  let rejected :=
    parse_note default_settings (an_env api_down 10) "a.jpg" [] None
               (a_world opened_breaker) in
  let exhausted :=
    parse_note default_settings (an_env api_down 10) "a.jpg" [] None
               (a_world (CircuitBreaker_init 5 60)) in
  (fst rejected = Err (CircuitBreakerOpenError 50) /\
   option_map status (session_note (snd rejected)) = Some "processing" /\
   option_map error_message (session_note (snd rejected)) = Some None /\
   option_map retry_count (session_note (snd rejected)) = Some (Some 0) /\
   List.map row_status (table (snd rejected)) = ["processing"] /\
   files (snd rejected) = []) /\
  (is_LLMServiceError_result (fst exhausted) = true /\
   option_map status (session_note (snd exhausted)) = Some "failed" /\
   option_map error_message (session_note (snd exhausted))
     = Some (Some "An unexpected error occurred during text extraction.") /\
   option_map retry_count (session_note (snd exhausted)) = Some (Some 1) /\
   List.map row_status (table (snd exhausted)) = ["failed"]).
Proof.
  cbv zeta. repeat split; reflexivity.
Qed.

(** * Further properties *)
(** ** More on the circuit breaker *)

Lemma cb_step_consistent (cb : CircuitBreaker) (op : cb_op) :
  0 < failure_threshold cb ->
  cb_consistent cb ->
  cb_consistent (cb_step cb op) /\
  failure_threshold (cb_step cb op) = failure_threshold cb /\
  recovery_timeout (cb_step cb op) = recovery_timeout cb.
Proof.
  intros Hthr Hcons. unfold cb_consistent in *.
  destruct op as [now | | now]; simpl.
  - unfold can_execute. destruct (state cb) eqn:Hst; simpl; rewrite ?Hst; auto.
    destruct (Qle_bool _ _); simpl; rewrite ?Hst; auto.
  - repeat split. exact Hthr.
  - destruct (state cb) eqn:Hst; simpl.
    + destruct (Z.leb_spec (failure_threshold cb) (failure_count cb + 1));
        repeat split; try lia; discriminate.
    + destruct (Z.leb_spec (failure_threshold cb) (failure_count cb + 1));
        repeat split; try lia; discriminate.
    + repeat split; try lia. discriminate.
Qed.

(** X1.  However a breaker is used, its state agrees with its counter: it is
    closed exactly while fewer than [failure_threshold] failures were
    recorded since the last success, and whenever it is open or half-open
    the time of the last failure is set.  The thresholds never change. *)
Theorem breaker_state_agrees_with_counter :
  forall (threshold timeout : Z) (ops : list cb_op),
    0 < threshold ->
    let cb := cb_run ops (CircuitBreaker_init threshold timeout) in
    cb_consistent cb /\
    (state cb = CLOSED <-> failure_count cb < threshold) /\
    (state cb <> CLOSED -> exists t, last_failure_time cb = Some t) /\
    failure_threshold cb = threshold /\
    recovery_timeout cb = timeout.
Proof.
  intros threshold timeout ops Hthr.
  assert (H : forall cb0,
             0 < failure_threshold cb0 -> cb_consistent cb0 ->
             cb_consistent (cb_run ops cb0) /\
             failure_threshold (cb_run ops cb0) = failure_threshold cb0 /\
             recovery_timeout (cb_run ops cb0) = recovery_timeout cb0).
  { induction ops as [| op ops IH]; intros cb0 H0 Hc; [now repeat split |].
    destruct (cb_step_consistent cb0 op H0 Hc) as (Hc1 & Ht1 & Hr1).
    destruct (IH (cb_step cb0 op)) as (Hc2 & Ht2 & Hr2); [lia | exact Hc1 |].
    simpl. repeat split; [exact Hc2 | lia | congruence]. }
  destruct (H (CircuitBreaker_init threshold timeout)) as (Hc & Ht & Hr);
    [exact Hthr | exact Hthr |].
  cbv zeta. simpl in Ht, Hr. split; [exact Hc |].
  unfold cb_consistent in Hc. rewrite Ht in Hc.
  destruct (state (cb_run ops _)) eqn:Hst.
  - repeat split; auto. intros []; reflexivity.
  - destruct Hc as (Hge & Hlast). repeat split; auto; try lia; try discriminate.
    intros _. destruct (last_failure_time _); [eauto | congruence].
  - destruct Hc as (Hge & Hlast). repeat split; auto; try lia; try discriminate.
    intros _. destruct (last_failure_time _); [eauto | congruence].
Qed.

Lemma breaker_state_agrees_with_counter_witness :
  let cb := cb_run [OpRecordFailure 1; OpRecordFailure 2; OpCanExecute 70;
                    OpRecordFailure 71]%Q (CircuitBreaker_init 2 60) in
  state cb <> CLOSED /\ exists t, last_failure_time cb = Some t.
Proof.
  destruct (breaker_state_agrees_with_counter 2 60
              [OpRecordFailure 1; OpRecordFailure 2; OpCanExecute 70;
               OpRecordFailure 71]%Q eq_refl) as (_ & _ & Hlast & _).
  cbv zeta. split; [discriminate |]. apply Hlast. discriminate.
Defined.

(** X2.  A success wipes the failure history, whatever the state was: the
    breaker is closed again and stays closed, admitting every call, through
    any [failure_threshold - 1] further failures; the next failure opens
    it. *)
Theorem success_wipes_failure_history :
  forall (cb : CircuitBreaker) (ts : list Q) (t : Q),
    Z.of_nat (length ts) = failure_threshold cb - 1 ->
    let below := record_failures ts (record_success cb) in
    state below = CLOSED /\
    failure_count below = Z.of_nat (length ts) /\
    (forall now, can_execute now below = (Ok true, below)) /\
    state (record_failure t below) = OPEN.
Proof.
  intros cb ts t Hlen below.
  destruct (record_failures_below ts (record_success cb))
    as (Hst & Hcount & Hthr & _); [reflexivity | simpl; lia |].
  fold below in Hst, Hcount, Hthr. simpl in Hcount, Hthr.
  rewrite Z.add_0_l in Hcount.
  repeat split; auto.
  - intros now. now apply can_execute_closed.
  - unfold record_failure; simpl. rewrite Hst, Hthr, Hcount.
    destruct (Z.leb_spec (failure_threshold cb) (Z.of_nat (length ts) + 1));
      [reflexivity | lia].
Qed.

Lemma success_wipes_failure_history_witness :
  state (record_failures [70; 71; 72; 73]%Q (record_success opened_breaker))
    = CLOSED /\
  state (record_failure 74%Q
           (record_failures [70; 71; 72; 73]%Q (record_success opened_breaker)))
    = OPEN.
Proof.
  destruct (success_wipes_failure_history opened_breaker
              [70; 71; 72; 73]%Q 74%Q eq_refl) as (Hclosed & _ & _ & Hopen).
  split; [exact Hclosed | exact Hopen].
Defined.

(** X3.  The recovery cycle.  An open breaker whose recovery period is over
    lets the next call through as a probe and becomes half-open.  If the
    probe succeeds the breaker is closed with a counter of zero; if it
    fails the breaker is open again and the recovery period starts anew
    from the time of that failure. *)
Theorem half_open_probe_decides :
  forall (cb : CircuitBreaker) (t now t2 : Q),
    state cb = OPEN ->
    last_failure_time cb = Some t ->
    (inject_Z (recovery_timeout cb) <= now - t)%Q ->
    exists probe,
      can_execute now cb = (Ok true, probe) /\
      state probe = HALF_OPEN /\
      (state (record_success probe) = CLOSED /\
       failure_count (record_success probe) = 0) /\
      (let reopened := record_failure t2 probe in
       state reopened = OPEN /\
       last_failure_time reopened = Some t2 /\
       forall now',
         (now' - t2 < inject_Z (recovery_timeout cb))%Q ->
         can_execute now' reopened
         = (Err (CircuitBreakerOpenError
                   (py_int (inject_Z (recovery_timeout cb) - (now' - t2))%Q)),
            reopened)).
Proof.
  intros cb t now t2 Hst Ht Hle.
  destruct (can_execute_open_recovers now t cb Hst Ht Hle)
    as (probe & Hcan & Hhalf & _ & Hrec).
  exists probe. split; [exact Hcan |]. split; [exact Hhalf |].
  split; [split; reflexivity |].
  assert (Hopen : state (record_failure t2 probe) = OPEN)
    by (unfold record_failure; simpl; now rewrite Hhalf).
  cbv zeta. split; [exact Hopen |]. split; [reflexivity |].
  intros now' Hnow'.
  rewrite (can_execute_open_rejects now' t2 (record_failure t2 probe) Hopen eq_refl);
    simpl; rewrite Hrec; [reflexivity | exact Hnow'].
Qed.

Lemma half_open_probe_decides_witness :
  exists probe,
    can_execute 61%Q opened_breaker = (Ok true, probe) /\
    can_execute 100%Q (record_failure 62%Q probe)
    = (Err (CircuitBreakerOpenError 22), record_failure 62%Q probe).
Proof.
  destruct (half_open_probe_decides opened_breaker 0%Q 61%Q 62%Q
              eq_refl eq_refl) as (probe & Hcan & _ & _ & _ & _ & Hrej);
    [unfold Qle; simpl; lia |].
  exists probe. split; [exact Hcan |]. apply (Hrej 100%Q). reflexivity.
Defined.

(** X4.  Once a breaker lets a call through it lets every later call through,
    as long as nothing is recorded in between: waiting never turns an
    admission into a rejection. *)
Theorem admission_survives_waiting :
  forall (cb : CircuitBreaker) (now later : Q),
    (now <= later)%Q ->
    fst (can_execute now cb) = Ok true ->
    fst (can_execute later cb) = Ok true.
Proof.
  intros cb now later Hle. unfold can_execute.
  destruct (state cb); auto.
  destruct (Qle_bool _ (now - _)) eqn:E1; [| discriminate].
  intros _. apply Qle_bool_iff in E1.
  destruct (Qle_bool _ (later - _)) eqn:E2; [reflexivity |].
  apply Qle_bool_false in E2. exfalso. lra.
Qed.

Lemma admission_survives_waiting_witness :
  fst (can_execute 300%Q opened_breaker) = Ok true.
Proof.
  apply (admission_survives_waiting opened_breaker 60%Q 300%Q);
    [unfold Qle; simpl; lia | reflexivity].
Defined.

(** X5.  The recovery time a rejection reports is never negative, and it is at
    most [recovery_timeout] when the clock has not gone back behind the
    last failure.  A rejection changes nothing in the breaker. *)
Theorem reported_recovery_time_is_bounded :
  forall (cb cb' : CircuitBreaker) (now : Q) (e : exn),
    can_execute now cb = (Err e, cb') ->
    cb' = cb /\
    exists remaining,
      e = CircuitBreakerOpenError remaining /\
      0 <= remaining /\
      ((or_zero (last_failure_time cb) <= now)%Q ->
       remaining <= recovery_timeout cb).
Proof.
  intros cb cb' now e. unfold can_execute.
  destruct (state cb); try discriminate.
  destruct (Qle_bool _ _) eqn:E; [discriminate |].
  intros [= <- <-]. split; [reflexivity |]. eexists. split; [reflexivity |].
  apply Qle_bool_false in E.
  set (x := (inject_Z (recovery_timeout cb)
             - (now - or_zero (last_failure_time cb)))%Q) in *.
  assert (Hpos : (0 <= x)%Q) by (unfold x; lra).
  rewrite (py_int_nonneg x Hpos). split.
  - change 0 with (Qfloor 0). now apply Qfloor_resp_le.
  - intros Hclock. rewrite <- (Qfloor_Z (recovery_timeout cb)).
    apply Qfloor_resp_le. unfold x. lra.
Qed.

Lemma reported_recovery_time_is_bounded_witness :
  exists remaining,
    fst (can_execute 10%Q opened_breaker)
      = Err (CircuitBreakerOpenError remaining) /\
    0 <= remaining <= 60.
Proof.
  destruct (can_execute 10%Q opened_breaker) as [r cb'] eqn:Hcan.
  assert (Hr : exists e, r = Err e)
    by (vm_compute in Hcan; injection Hcan as <- _; eauto).
  destruct Hr as (e & ->).
  destruct (reported_recovery_time_is_bounded _ _ _ _ Hcan)
    as (_ & remaining & -> & Hlo & Hhi).
  exists remaining. split; [reflexivity |]. split; [exact Hlo |].
  apply Hhi. vm_compute. discriminate.
Defined.

(** ** More on parse_image *)

Lemma can_execute_keeps_counter now cb r cb' :
  can_execute now cb = (r, cb') ->
  failure_count cb' = failure_count cb /\
  failure_threshold cb' = failure_threshold cb /\
  recovery_timeout cb' = recovery_timeout cb /\
  last_failure_time cb' = last_failure_time cb.
Proof.
  unfold can_execute. destruct (state cb); try (intros [= <- <-]; now repeat split).
  destruct (Qle_bool _ _); intros [= <- <-]; now repeat split.
Qed.

Lemma record_failure_not_half_open t cb :
  state (record_failure t cb) <> HALF_OPEN.
Proof.
  unfold record_failure; cbn [state].
  destruct (state cb); try destruct (_ <=? _); discriminate.
Qed.


(** X7.  What one call of [parse_image] does to the breaker: a result closes
    it and clears its counter, whatever its state was; an
    [LLMServiceError] adds exactly one failure, stamped with the time of
    the failure; a rejection leaves it as it was. *)
Theorem parse_image_updates_breaker_once :
  forall settings env path w r w',
    parse_image settings env path w = (r, w') ->
    match r with
    | Ok _ =>
        state (breaker w') = CLOSED /\
        failure_count (breaker w') = 0 /\
        last_failure_time (breaker w') = None
    | Err (LLMServiceError _ _ _) =>
        failure_count (breaker w') = failure_count (breaker w) + 1 /\
        last_failure_time (breaker w') = Some (env_time_failure env) /\
        state (breaker w') <> HALF_OPEN
    | Err (CircuitBreakerOpenError _) => breaker w' = breaker w
    | Err _ => failure_count (breaker w') = failure_count (breaker w)
    end.
Proof.
  intros settings env path w r w' Hrun.
  apply parse_image_runs in Hrun.
  destruct Hrun as [remaining Hrej | cb1 j text Hadm Hj Hpre Hg w2
                   | cb1 s Hadm n Hpre Hg Hs w2 | cb1 j s Hadm Hj Hpre Hg Hs].
  - reflexivity.
  - repeat split.
  - destruct (can_execute_keeps_counter _ _ _ _ Hadm) as (Hc & _).
    unfold unexpected_error, mk_LLMServiceError.
    split; [cbn; now rewrite Hc |]. split; [reflexivity |].
    apply record_failure_not_half_open.
  - destruct (can_execute_keeps_counter _ _ _ _ Hadm) as (Hc & _).
    cbn. exact Hc.
Qed.

Lemma parse_image_updates_breaker_once_witness :
  failure_count
    (breaker (snd (parse_image default_settings (an_env api_down 0) "a.jpg"
                     (a_world (CircuitBreaker_init 5 60))))) = 1.
Proof.
  destruct (parse_image default_settings (an_env api_down 0) "a.jpg"
              (a_world (CircuitBreaker_init 5 60))) as [r w'] eqn:Hrun.
  pose proof (parse_image_updates_breaker_once _ _ _ _ _ _ Hrun) as H.
  assert (Hr : exists m ra c, r = Err (LLMServiceError m ra c))
    by (vm_compute in Hrun; injection Hrun as <- _; eauto).
  destruct Hr as (m & ra & c & ->). destruct H as (H & _). exact H.
Defined.

(** With a closed breaker and the API down, [parse_image] makes every
    permitted attempt, records one failure and raises its
    [LLMServiceError]. *)
Lemma parse_image_api_down settings env path w :
  state (breaker w) = CLOSED ->
  api_always_fails env ->
  exists s w',
    parse_image settings env path w = (Err (unexpected_error env s), w') /\
    breaker w' = record_failure (env_time_failure env) (breaker w) /\
    api_calls w' = (max_attempts settings + api_calls w)%nat.
Proof.
  intros Hst Hdown.
  pose proof (can_execute_closed (env_time_check env) (breaker w) Hst) as Hcan.
  destruct (parse_image_total settings env path w) as (r & w' & Hrun & Hcase).
  rewrite Hrun.
  destruct Hcase as [remaining Hrej | cb1 j text Hadm Hj Hpre Hg w2
                    | cb1 s Hadm n Hpre Hg Hs w2 | cb1 j s Hadm Hj Hpre Hg Hs].
  - congruence.
  - destruct (Hdown (j + api_calls w)%nat) as (e & He & _). congruence.
  - assert (cb1 = breaker w) as -> by congruence.
    exists s. eexists. split; [reflexivity |]. split; reflexivity.
  - destruct (Hdown (j + api_calls w)%nat) as (e & He & Hex). congruence.
Qed.

Lemma parse_image_each_app settings envs1 envs2 path w :
  parse_image_each settings (envs1 ++ envs2) path w =
  let '(rs1, w1) := parse_image_each settings envs1 path w in
  let '(rs2, w2) := parse_image_each settings envs2 path w1 in
  (rs1 ++ rs2, w2).
Proof.
  revert w. induction envs1 as [| env envs1 IH]; intros w; simpl.
  - now destruct (parse_image_each settings envs2 path w).
  - destruct (parse_image settings env path w) as [r w1]. rewrite IH.
    destruct (parse_image_each settings envs1 path w1) as [rs1 w2].
    now destruct (parse_image_each settings envs2 path w2).
Qed.

(** While the failures stay below the threshold every call goes through
    to the API and is recorded. *)
Lemma parse_image_each_below settings path (envs : list Env) :
  forall w,
    state (breaker w) = CLOSED ->
    failure_count (breaker w) + Z.of_nat (length envs)
      < failure_threshold (breaker w) ->
    Forall api_always_fails envs ->
    exists rs w',
      parse_image_each settings envs path w = (rs, w') /\
      Forall (fun r => is_LLMServiceError_result r = true) rs /\
      breaker w' = record_failures (List.map env_time_failure envs) (breaker w) /\
      api_calls w' = (length envs * max_attempts settings + api_calls w)%nat.
Proof.
  induction envs as [| env envs IH]; intros w Hst Hlt Hdown.
  - exists [], w. repeat split. constructor.
  - inversion Hdown as [| ? ? Henv Hrest]; subst.
    destruct (parse_image_api_down settings env path w Hst Henv)
      as (s & w1 & Hrun & Hb & Hcalls).
    simpl length in Hlt.
    assert (Hst1 : state (breaker w1) = CLOSED).
    { rewrite Hb. unfold record_failure; cbn [state]. rewrite Hst.
      destruct (Z.leb_spec (failure_threshold (breaker w))
                           (failure_count (breaker w) + 1)); [lia | reflexivity]. }
    destruct (IH w1 Hst1) as (rs & w' & Heach & Hall & Hb' & Hcalls');
      [rewrite Hb; cbn [failure_count failure_threshold record_failure]; lia
      | exact Hrest |].
    exists (Err (unexpected_error env s) :: rs), w'.
    simpl. rewrite Hrun, Heach. repeat split.
    + constructor; [reflexivity | exact Hall].
    + rewrite Hb', Hb. reflexivity.
    + rewrite Hcalls', Hcalls. unfold max_attempts. lia.
Qed.

(** X8.  The error handling chain of the service.  On a breaker that is closed
    with no failure counted, [failure_threshold] calls of [parse_image] in
    a row, each finding the API down, all raise [LLMServiceError] after
    their full number of attempts and leave the breaker open; a call that
    follows before the recovery period is over is rejected without any
    call of the API. *)
Theorem repeated_failures_open_the_breaker :
  forall settings (envs : list Env) (last : Env) path w,
    state (breaker w) = CLOSED ->
    failure_count (breaker w) = 0 ->
    Z.of_nat (length (envs ++ [last])) = failure_threshold (breaker w) ->
    Forall api_always_fails (envs ++ [last]) ->
    let run := parse_image_each settings (envs ++ [last]) path w in
    Forall (fun r => is_LLMServiceError_result r = true) (fst run) /\
    api_calls (snd run)
      = (length (envs ++ [last]) * max_attempts settings + api_calls w)%nat /\
    state (breaker (snd run)) = OPEN /\
    last_failure_time (breaker (snd run)) = Some (env_time_failure last) /\
    forall next,
      (env_time_check next - env_time_failure last
       < inject_Z (recovery_timeout (breaker w)))%Q ->
      exists remaining w',
        parse_image settings next path (snd run)
          = (Err (CircuitBreakerOpenError remaining), w') /\
        api_calls w' = api_calls (snd run).
Proof.
  intros settings envs last path w Hst Hzero Hlen Hdown run.
  rewrite length_app in Hlen. simpl length in Hlen.
  apply Forall_app in Hdown. destruct Hdown as (Hdown & Hlast).
  inversion Hlast as [| ? ? Hlast' _]; subst.
  destruct (parse_image_each_below settings path envs w Hst)
    as (rs & w1 & Heach & Hall & Hb & Hcalls); [lia | exact Hdown |].
  destruct (record_failures_below (List.map env_time_failure envs) (breaker w) Hst)
    as (Hst1 & Hc1 & Ht1 & Hr1); [rewrite length_map; lia |].
  rewrite <- Hb in Hst1, Hc1, Ht1, Hr1. rewrite length_map in Hc1.
  destruct (parse_image_api_down settings last path w1 Hst1 Hlast')
    as (s & w2 & Hrun & Hb2 & Hcalls2).
  assert (Hrun_all : run = (rs ++ [Err (unexpected_error last s)], w2)).
  { unfold run. rewrite parse_image_each_app, Heach. simpl. now rewrite Hrun. }
  rewrite Hrun_all. cbn [fst snd].
  assert (Hopen : state (breaker w2) = OPEN).
  { rewrite Hb2. unfold record_failure; cbn [state]. rewrite Hst1, Ht1, Hc1.
    destruct (Z.leb_spec (failure_threshold (breaker w))
                (failure_count (breaker w) + Z.of_nat (length envs) + 1));
      [reflexivity | lia]. }
  assert (Hlt : last_failure_time (breaker w2) = Some (env_time_failure last))
    by (rewrite Hb2; reflexivity).
  assert (Hrec : recovery_timeout (breaker w2) = recovery_timeout (breaker w))
    by (rewrite Hb2; exact Hr1).
  split; [apply Forall_app; split; [exact Hall | now repeat constructor] |].
  split; [rewrite Hcalls2, Hcalls, length_app; simpl length;
          unfold max_attempts; nia |].
  split; [exact Hopen |]. split; [exact Hlt |].
  intros next Hnext.
  pose proof (can_execute_open_rejects (env_time_check next)
                (env_time_failure last) (breaker w2) Hopen Hlt) as Hrej.
  rewrite Hrec in Hrej. specialize (Hrej Hnext).
  do 2 eexists. rewrite (parse_image_rejected _ _ _ _ _ Hrej).
  split; reflexivity.
Qed.

Lemma repeated_failures_open_the_breaker_witness :
  let run :=
    parse_image_each default_settings
      [an_env api_down 1; an_env api_down 2; an_env api_down 3;
       an_env api_down 4; an_env api_down 5] "a.jpg"
      (a_world (CircuitBreaker_init 5 60)) in
  api_calls (snd run) = 15%nat /\
  state (breaker (snd run)) = OPEN /\
  exists remaining w',
    parse_image default_settings (an_env api_third_time_lucky 30) "a.jpg" (snd run)
      = (Err (CircuitBreakerOpenError remaining), w') /\
    api_calls w' = 15%nat.
Proof.
  assert (Hdown : forall now, api_always_fails (an_env api_down now)).
  { intros now k. exists (ConnectionError "connection refused"). split; reflexivity. }
  destruct (repeated_failures_open_the_breaker default_settings
              [an_env api_down 1; an_env api_down 2; an_env api_down 3;
               an_env api_down 4] (an_env api_down 5) "a.jpg"
              (a_world (CircuitBreaker_init 5 60)) eq_refl eq_refl eq_refl)
    as (_ & Hcalls & Hopen & _ & Hnext).
  - repeat constructor; apply Hdown.
  - cbv zeta. split; [exact Hcalls |]. split; [exact Hopen |].
    destruct (Hnext (an_env api_third_time_lucky 30))
      as (remaining & w' & Hrun & Hc); [reflexivity |].
    exists remaining, w'. split; [exact Hrun |]. rewrite Hc. exact Hcalls.
Defined.

(** ** More on the rate limiter *)

Lemma requests_of_insert ip ip' l (requests : gmap string (list Q)) :
  requests_of ip' (<[ip := l]> requests)
  = if decide (ip = ip') then l else requests_of ip' requests.
Proof.
  unfold requests_of. rewrite lookup_insert. now destruct (decide (ip = ip')).
Qed.

Lemma requests_of_cleanup ws ip (requests : gmap string (list Q)) :
  requests_of ip (_cleanup_inactive_ips ws requests)
  = if inactive ws (requests_of ip requests) then [] else requests_of ip requests.
Proof.
  unfold requests_of, _cleanup_inactive_ips.
  destruct (requests !! ip) as [l |] eqn:E.
  - destruct (inactive ws l) eqn:Hi.
    + assert (H : filter (fun kv : string * list Q => inactive ws (snd kv) = false)
                    requests !! ip = None).
      { apply map_lookup_filter_None. right. intros x Hx. simpl.
        rewrite Hx in E. injection E as ->. now rewrite Hi. }
      now rewrite H.
    + assert (H : filter (fun kv : string * list Q => inactive ws (snd kv) = false)
                    requests !! ip = Some l).
      { apply map_lookup_filter_Some. split; [exact E | exact Hi]. }
      now rewrite H.
  - assert (H : filter (fun kv : string * list Q => inactive ws (snd kv) = false)
                  requests !! ip = None).
    { apply map_lookup_filter_None. now left. }
    now rewrite H.
Qed.

(** On a rate-limited path [dispatch] decides on the client's own
    timestamps alone. *)
Lemma dispatch_is_window_step settings path ip now (requests : gmap string (list Q)) :
  rate_limited path ->
  fst (dispatch settings path ip now requests)
    = fst (window_step settings now (requests_of ip requests)) /\
  (0 <= rate_limit_window settings ->
   requests_of ip (snd (dispatch settings path ip now requests))
     = snd (window_step settings now (requests_of ip requests))).
Proof.
  intros Hpath. unfold dispatch, window_step. rewrite Hpath.
  fold (kept_at settings now (requests_of ip requests)).
  set (kept := kept_at settings now (requests_of ip requests)).
  destruct (rate_limit_requests settings <=? Z.of_nat (length kept)).
  - destruct kept; cbn [fst snd]; (split; [reflexivity |]); intros _;
      rewrite requests_of_insert; now destruct (decide (ip = ip)).
  - cbn [fst snd]. split; [reflexivity |]. intros HW.
    destruct (_ =? 0).
    + rewrite requests_of_cleanup, requests_of_insert.
      destruct (decide (ip = ip)); [| congruence].
      now rewrite inactive_after_append.
    + rewrite requests_of_insert. now destruct (decide (ip = ip)).
Qed.

(** X9.  Clients do not affect each other: what [dispatch] answers to a client,
    and the timestamps it keeps for it, depend on that client's own
    timestamps only, whatever the other clients have done. *)
Theorem clients_are_isolated :
  forall settings path ip now (requests1 requests2 : gmap string (list Q)),
    rate_limited path ->
    0 <= rate_limit_window settings ->
    requests_of ip requests1 = requests_of ip requests2 ->
    fst (dispatch settings path ip now requests1)
      = fst (dispatch settings path ip now requests2) /\
    requests_of ip (snd (dispatch settings path ip now requests1))
      = requests_of ip (snd (dispatch settings path ip now requests2)).
Proof.
  intros settings path ip now requests1 requests2 Hpath HW Heq.
  destruct (dispatch_is_window_step settings path ip now requests1 Hpath)
    as (Ha1 & Hs1).
  destruct (dispatch_is_window_step settings path ip now requests2 Hpath)
    as (Ha2 & Hs2).
  rewrite Ha1, Ha2, (Hs1 HW), (Hs2 HW), Heq. split; reflexivity.
Qed.

Lemma clients_are_isolated_witness :
  fst (dispatch two_per_minute "/api/parse" "10.0.0.1" 5%Q
         {["10.0.0.1" := [1%Q]; "10.0.0.2" := [2; 3]%Q]})
  = fst (dispatch two_per_minute "/api/parse" "10.0.0.1" 5%Q
           {["10.0.0.1" := [1%Q]]}).
Proof.
  apply (clients_are_isolated two_per_minute "/api/parse" "10.0.0.1" 5%Q
           {["10.0.0.1" := [1%Q]; "10.0.0.2" := [2; 3]%Q]}
           {["10.0.0.1" := [1%Q]]}); [reflexivity | simpl; lia | reflexivity].
Defined.

Lemma kept_at_length settings now l :
  (length (kept_at settings now l) <= length l)%nat.
Proof. unfold kept_at. apply List.filter_length_le. Qed.

Lemma dispatch_keeps_bound settings path ip now (requests : gmap string (list Q)) :
  (forall c, Z.of_nat (length (requests_of c requests))
             <= rate_limit_requests settings) ->
  forall c,
    Z.of_nat (length (requests_of c (snd (dispatch settings path ip now requests))))
    <= rate_limit_requests settings.
Proof.
  intros Hb c. unfold dispatch.
  destruct (existsb _ _); [apply Hb |].
  fold (kept_at settings now (requests_of ip requests)).
  set (kept := kept_at settings now (requests_of ip requests)).
  assert (Hk : (length kept <= length (requests_of ip requests))%nat)
    by apply kept_at_length.
  pose proof (Hb ip) as Hip. pose proof (Hb c) as Hc.
  destruct (Z.leb_spec (rate_limit_requests settings) (Z.of_nat (length kept))).
  - assert (Hins : Z.of_nat (length (requests_of c (<[ip := kept]> requests)))
                   <= rate_limit_requests settings).
    { rewrite requests_of_insert. destruct (decide (ip = c)); lia. }
    destruct kept; exact Hins.
  - assert (Hins : Z.of_nat (length (requests_of c
                      (<[ip := kept ++ [now]]> (<[ip := kept]> requests))))
                   <= rate_limit_requests settings).
    { rewrite !requests_of_insert. destruct (decide (ip = c)); [| exact Hc].
      rewrite length_app. simpl. lia. }
    destruct (_ =? 0); cbn [snd]; [| exact Hins].
    rewrite requests_of_cleanup. destruct (inactive _ _); [simpl; lia | exact Hins].
Qed.

(** X10.  The limiter never holds more than [rate_limit_requests] timestamps for
    a client: starting from an empty middleware, after any requests of any
    clients on any paths at any times, every client's list is at most that
    long. *)
Theorem window_never_exceeds_limit :
  forall settings (rs : list Request) (c : string),
    0 <= rate_limit_requests settings ->
    Z.of_nat (length (requests_of c (snd (serve_all settings rs ∅))))
    <= rate_limit_requests settings.
Proof.
  intros settings rs c HN.
  assert (H : forall (requests : gmap string (list Q)),
             (forall c, Z.of_nat (length (requests_of c requests))
                        <= rate_limit_requests settings) ->
             forall c, Z.of_nat (length (requests_of c
                                   (snd (serve_all settings rs requests))))
                       <= rate_limit_requests settings).
  { induction rs as [| r rs IH]; intros requests Hb c0; [apply Hb |].
    simpl.
    pose proof (dispatch_keeps_bound settings (req_path r) (req_ip r)
                  (req_time r) requests Hb) as Hb1.
    destruct (dispatch settings (req_path r) (req_ip r) (req_time r) requests)
      as [a requests1].
    specialize (IH requests1 Hb1 c0).
    destruct (serve_all settings rs requests1). exact IH. }
  apply H. intros c0. unfold requests_of. rewrite lookup_empty. simpl. lia.
Qed.

Lemma window_never_exceeds_limit_witness :
  Z.of_nat (length (requests_of "10.0.0.1"
     (snd (serve_all two_per_minute
             [ {| req_path := "/api/parse"; req_ip := "10.0.0.1"; req_time := 1 |};
               {| req_path := "/api/notes"; req_ip := "10.0.0.1"; req_time := 2 |};
               {| req_path := "/api/notes"; req_ip := "10.0.0.1"; req_time := 3 |} ]
             ∅)))) <= 2.
Proof.
  apply (window_never_exceeds_limit two_per_minute). simpl. lia.
Defined.

(** X11.  The excluded paths bypass the limiter: however many requests arrive on
    them, all go on to the application and none is counted. *)
Theorem excluded_paths_are_never_limited :
  forall settings (rs : list Request) (requests : gmap string (list Q)),
    Forall (fun r => In (req_path r) EXCLUDED_PATHS) rs ->
    serve_all settings rs requests
    = (repeat (Ok CallNext) (length rs), requests).
Proof.
  intros settings rs requests Hrs.
  induction Hrs as [| r rs Hr _ IH]; [reflexivity |].
  simpl. unfold dispatch.
  assert (Hex : existsb (String.eqb (req_path r)) EXCLUDED_PATHS = true).
  { apply existsb_exists. exists (req_path r). split; [exact Hr |].
    apply String.eqb_refl. }
  rewrite Hex, IH. reflexivity.
Qed.

Lemma excluded_paths_are_never_limited_witness :
  fst (serve_all two_per_minute
         [ {| req_path := "/health"; req_ip := "10.0.0.1"; req_time := 1 |};
           {| req_path := "/health"; req_ip := "10.0.0.1"; req_time := 1 |};
           {| req_path := "/docs"; req_ip := "10.0.0.1"; req_time := 1 |} ] ∅)
  = [Ok CallNext; Ok CallNext; Ok CallNext].
Proof.
  rewrite (excluded_paths_are_never_limited two_per_minute); [reflexivity |].
  repeat constructor; simpl; tauto.
Defined.

(** X12.  The [Retry-After] of a rejection can be relied on: a client that never
    had more than the limit of timestamps and is rejected at [now] is
    admitted by its next request, if that request comes [retry_after]
    seconds later or more. *)
Theorem waiting_retry_after_is_enough :
  forall settings path ip now (requests requests' : gmap string (list Q))
         retry_after later,
    rate_limited path ->
    Z.of_nat (length (requests_of ip requests)) <= rate_limit_requests settings ->
    dispatch settings path ip now requests
      = (Ok (TooManyRequests retry_after), requests') ->
    (now + inject_Z retry_after <= later)%Q ->
    fst (dispatch settings path ip later requests') = Ok CallNext.
Proof.
  intros settings path ip now requests requests' retry_after later
         Hpath Hbound Hrun Hlater.
  pose proof (kept_at_length settings now (requests_of ip requests)) as Hlen.
  unfold dispatch in Hrun. rewrite Hpath in Hrun.
  fold (kept_at settings now (requests_of ip requests)) in Hrun.
  destruct (Z.leb_spec (rate_limit_requests settings)
              (Z.of_nat (length (kept_at settings now (requests_of ip requests)))))
    as [HN |]; [| discriminate].
  destruct (kept_at settings now (requests_of ip requests))
    as [| oldest rest] eqn:Hkept; [discriminate |].
  injection Hrun as <- <-.
  assert (Hin : In oldest (kept_at settings now (requests_of ip requests)))
    by (rewrite Hkept; now left).
  apply kept_at_in in Hin.
  set (W := inject_Z (rate_limit_window settings)) in *.
  assert (Hpos : (0 <= oldest + W - now)%Q) by lra.
  rewrite (py_int_nonneg _ Hpos) in Hlater.
  pose proof (Qlt_floor (oldest + W - now)) as Hfl.
  destruct (dispatch_is_window_step settings path ip later
              (<[ip := oldest :: rest]> requests) Hpath) as (Hans & _).
  rewrite Hans, requests_of_insert.
  destruct (decide (ip = ip)); [| congruence].
  unfold window_step.
  assert (Hdrop : kept_at settings later (oldest :: rest)
                  = kept_at settings later rest).
  { unfold kept_at. cbn [List.filter]. fold W.
    rewrite (proj2 (Qltb_false (later - W) oldest)); [reflexivity |]. lra. }
  rewrite Hdrop.
  pose proof (kept_at_length settings later rest) as Hrest.
  simpl length in HN, Hlen.
  destruct (Z.leb_spec (rate_limit_requests settings)
              (Z.of_nat (length (kept_at settings later rest)))); [lia |].
  reflexivity.
Qed.

Lemma waiting_retry_after_is_enough_witness :
  fst (dispatch two_per_minute "/api/parse" "10.0.0.1" 61%Q
         (<["10.0.0.1" := [0; 1]%Q]> {["10.0.0.1" := [0; 1]%Q]}))
  = Ok CallNext.
Proof.
  apply (waiting_retry_after_is_enough two_per_minute "/api/parse" "10.0.0.1"
           55%Q {["10.0.0.1" := [0; 1]%Q]} _ 6 61%Q).
  - reflexivity.
  - vm_compute. discriminate.
  - reflexivity.
  - unfold Qle; simpl; lia.
Defined.

Lemma inactive_kept_nothing settings ws now l :
  inactive ws l = true ->
  (ws <= now - inject_Z (rate_limit_window settings))%Q ->
  kept_at settings now l = [].
Proof.
  intros Hi Hws. destruct l as [| t ts]; [reflexivity |].
  simpl in Hi. apply Qltb_true in Hi.
  destruct (py_max_ge ts t) as (H1 & H2).
  unfold kept_at.
  rewrite (List.filter_ext_in _ (fun _ => false)).
  - clear. induction (t :: ts); simpl; auto.
  - intros x Hx. apply Qltb_false.
    assert (Hxm : (x <= py_max t ts)%Q)
      by (destruct Hx as [<- | Hx]; [exact H1 | now apply H2]).
    lra.
Qed.

(** X13.  The periodic clean-up is not observable: removing the inactive clients
    changes no later answer, as long as the clock does not go back:
    what it removes would have been pruned by the next request anyway. *)
Theorem cleanup_changes_no_answer :
  forall settings window_start path ip now (requests : gmap string (list Q)),
    rate_limited path ->
    (window_start <= now - inject_Z (rate_limit_window settings))%Q ->
    fst (dispatch settings path ip now
           (_cleanup_inactive_ips window_start requests))
    = fst (dispatch settings path ip now requests).
Proof.
  intros settings ws path ip now requests Hpath Hws.
  destruct (dispatch_is_window_step settings path ip now requests Hpath)
    as (-> & _).
  destruct (dispatch_is_window_step settings path ip now
              (_cleanup_inactive_ips ws requests) Hpath) as (-> & _).
  rewrite requests_of_cleanup.
  destruct (inactive ws (requests_of ip requests)) eqn:Hi; [| reflexivity].
  unfold window_step.
  rewrite (inactive_kept_nothing settings ws now _ Hi Hws). reflexivity.
Qed.

Lemma cleanup_changes_no_answer_witness :
  fst (dispatch two_per_minute "/api/parse" "10.0.0.1" 100%Q
         (_cleanup_inactive_ips 30%Q {["10.0.0.1" := [0; 1]%Q]}))
  = fst (dispatch two_per_minute "/api/parse" "10.0.0.1" 100%Q
           {["10.0.0.1" := [0; 1]%Q]}).
Proof.
  apply (cleanup_changes_no_answer two_per_minute 30%Q "/api/parse" "10.0.0.1"
           100%Q {["10.0.0.1" := [0; 1]%Q]}); [reflexivity |].
  unfold Qle; simpl; lia.
Defined.

Lemma kept_at_kept_at settings bound now l :
  (bound <= now)%Q ->
  kept_at settings now (kept_at settings bound l) = kept_at settings now l.
Proof.
  intros Hb. unfold kept_at. induction l as [| x l IH]; [reflexivity |].
  cbn [List.filter].
  destruct (Qltb (bound - _) x) eqn:E1; cbn [List.filter]; rewrite IH;
    [reflexivity |].
  apply Qltb_false in E1.
  rewrite (proj2 (Qltb_false (now - inject_Z (rate_limit_window settings)) x));
    [reflexivity | lra].
Qed.

Lemma window_step_kept settings bound now l :
  (bound <= now)%Q ->
  window_step settings now (kept_at settings bound l)
  = window_step settings now l.
Proof.
  intros Hb. unfold window_step. now rewrite kept_at_kept_at.
Qed.

Lemma window_step_admits settings now l kept' :
  window_step settings now l = (Ok CallNext, kept') ->
  kept' = kept_at settings now l ++ [now].
Proof.
  unfold window_step. destruct (_ <=? _).
  - destruct (kept_at settings now l); discriminate.
  - now intros [= <-].
Qed.

Lemma window_step_refuses settings now l answer kept' :
  window_step settings now l = (answer, kept') ->
  answer <> Ok CallNext ->
  kept' = kept_at settings now l.
Proof.
  unfold window_step. destruct (_ <=? _).
  - destruct (kept_at settings now l); now intros [= <- <-].
  - intros [= <- <-] H. congruence.
Qed.

Lemma dispatch_all_is_sliding_window settings path ip :
  rate_limited path ->
  0 < rate_limit_window settings ->
  forall times history bound (requests : gmap string (list Q)),
    nondecreasing times ->
    (forall t, In t times -> (bound <= t)%Q) ->
    requests_of ip requests = kept_at settings bound history ->
    fst (dispatch_all settings path ip times requests)
    = sliding_window settings history times.
Proof.
  intros Hpath HW.
  assert (HWq : (0 < inject_Z (rate_limit_window settings))%Q)
    by (change 0%Q with (inject_Z 0); now rewrite <- Zlt_Qlt).
  induction times as [| now times IH];
    intros history bound requests Hsorted Hbound Hreq; [reflexivity |].
  destruct Hsorted as (Hfirst & Hsorted).
  assert (Hb : (bound <= now)%Q) by (apply Hbound; now left).
  destruct (dispatch_is_window_step settings path ip now requests Hpath)
    as (Hans & Hstate).
  specialize (Hstate ltac:(lia)).
  rewrite Hreq, (window_step_kept _ _ _ _ Hb) in Hans, Hstate.
  cbn [dispatch_all sliding_window].
  destruct (dispatch settings path ip now requests) as [answer requests1].
  cbn [fst snd] in Hans, Hstate.
  destruct (window_step settings now history) as [answer' kept'] eqn:Hstep.
  cbn [fst snd] in Hans, Hstate. subst answer'.
  assert (Hnext : forall history',
             requests_of ip requests1 = kept_at settings now history' ->
             fst (dispatch_all settings path ip times requests1)
             = sliding_window settings history' times).
  { intros history' H. apply (IH history' now requests1 Hsorted Hfirst H). }
  destruct (dispatch_all settings path ip times requests1) as [answers requests2]
    eqn:Hall.
  cbn [fst] in *.
  assert (Hadmit : answer = Ok CallNext ->
                   answers = sliding_window settings (history ++ [now]) times).
  { intros ->. apply Hnext. rewrite Hstate.
    rewrite (window_step_admits _ _ _ _ Hstep).
    unfold kept_at. rewrite List.filter_app. cbn [List.filter].
    rewrite (proj2 (Qltb_true (now - inject_Z (rate_limit_window settings)) now));
      [reflexivity | lra]. }
  assert (Hrefuse : answer <> Ok CallNext ->
                    answers = sliding_window settings history times).
  { intros Hne. apply Hnext. rewrite Hstate.
    apply (window_step_refuses _ _ _ _ _ Hstep Hne). }
  destruct answer as [[| retry_after] | e].
  - now rewrite (Hadmit eq_refl).
  - rewrite Hrefuse; [reflexivity | discriminate].
  - rewrite Hrefuse; [reflexivity | discriminate].
Qed.

(** X14.  Pruning loses nothing.  For a client without earlier requests, on a
    clock that never goes back, the answers of the middleware are those of
    the sliding-window rule applied to the whole history of the client's
    admitted requests: a request is admitted exactly when fewer than
    [rate_limit_requests] admitted requests lie in the window of
    [rate_limit_window] seconds that ends with it. *)
Theorem pruning_loses_nothing :
  forall settings path ip (times : list Q) (requests : gmap string (list Q)),
    rate_limited path ->
    0 < rate_limit_window settings ->
    nondecreasing times ->
    requests_of ip requests = [] ->
    fst (dispatch_all settings path ip times requests)
    = sliding_window settings [] times.
Proof.
  intros settings path ip times requests Hpath HW Hsorted Hfresh.
  destruct times as [| t times]; [reflexivity |].
  apply (dispatch_all_is_sliding_window settings path ip Hpath HW
           (t :: times) [] t requests Hsorted).
  - intros u [<- | Hu]; [apply Qle_refl | now apply (proj1 Hsorted)].
  - now rewrite Hfresh.
Qed.

Lemma pruning_loses_nothing_witness :
  fst (dispatch_all two_per_minute "/api/parse" "10.0.0.1"
         [0; 1; 55; 61; 62; 63]%Q ∅)
  = [Ok CallNext; Ok CallNext; Ok (TooManyRequests 6);
     Ok CallNext; Ok CallNext; Ok (TooManyRequests 59)].
Proof.
  rewrite (pruning_loses_nothing two_per_minute "/api/parse" "10.0.0.1"
             [0; 1; 55; 61; 62; 63]%Q ∅); [reflexivity | reflexivity | reflexivity | |
                                           reflexivity].
  simpl. repeat split; intros u Hu;
    repeat (destruct Hu as [<- | Hu]; [unfold Qle; simpl; lia |]); destruct Hu.
Defined.

(** ** Sorting and paging *)

Lemma row_le_trans o a b c :
  row_le o a b = true -> row_le o b c = true -> row_le o a c = true.
Proof. destruct o; simpl; rewrite !Z.leb_le; lia. Qed.

Lemma row_le_total o a b : row_le o a b = true \/ row_le o b a = true.
Proof. destruct o; simpl; rewrite !Z.leb_le; lia. Qed.

Lemma row_le_antisym o a b :
  row_le o a b = true -> row_le o b a = true ->
  row_created_at a = row_created_at b.
Proof. destruct o; simpl; rewrite !Z.leb_le; lia. Qed.

Lemma order_by_row_le o l :
  order_by (Some o) l = fold_right (insert_by (row_le o)) [] l.
Proof. destruct o; reflexivity. Qed.

Lemma insert_by_perm le x l : Permutation (insert_by le x l) (x :: l).
Proof.
  induction l as [| y l IH]; simpl; [reflexivity |].
  destruct (le x y); [reflexivity |].
  etransitivity; [apply perm_skip, IH | apply perm_swap].
Qed.

Lemma sort_perm le l : Permutation (fold_right (insert_by le) [] l) l.
Proof.
  induction l as [| x l IH]; simpl; [constructor |].
  etransitivity; [apply insert_by_perm |]. now apply perm_skip.
Qed.

Lemma insert_by_forallb le p x l :
  forallb p (insert_by le x l) = p x && forallb p l.
Proof.
  induction l as [| y l IH]; simpl; [reflexivity |].
  destruct (le x y); simpl; [reflexivity |].
  rewrite IH. destruct (p x), (p y); reflexivity.
Qed.

Lemma insert_by_sorted le x l :
  (forall a b c, le a b = true -> le b c = true -> le a c = true) ->
  (forall a b, le a b = true \/ le b a = true) ->
  sorted_by le l = true -> sorted_by le (insert_by le x l) = true.
Proof.
  intros Ht Htot. induction l as [| y l IH]; simpl; intros Hs; [reflexivity |].
  apply andb_prop in Hs as [Hy Hl].
  destruct (le x y) eqn:E; simpl.
  - rewrite E, Hy, Hl. simpl. rewrite andb_true_r.
    apply forallb_forall. intros z Hz. eapply Ht; [exact E |].
    rewrite forallb_forall in Hy. now apply Hy.
  - rewrite insert_by_forallb, Hy, (IH Hl).
    destruct (Htot x y) as [H | H]; [congruence |]. now rewrite H.
Qed.

Lemma sort_sorted le l :
  (forall a b c, le a b = true -> le b c = true -> le a c = true) ->
  (forall a b, le a b = true \/ le b a = true) ->
  sorted_by le (fold_right (insert_by le) [] l) = true.
Proof.
  intros Ht Htot. induction l as [| x l IH]; simpl; [reflexivity |].
  now apply insert_by_sorted.
Qed.

Lemma insert_by_head le x l :
  forallb (le x) l = true -> insert_by le x l = x :: l.
Proof.
  destruct l as [| y l]; simpl; [reflexivity |].
  intros H. apply andb_prop in H as [-> _]. reflexivity.
Qed.

Lemma insert_by_filter le p x l :
  (forall a b c, le a b = true -> le b c = true -> le a c = true) ->
  sorted_by le l = true ->
  List.filter p (insert_by le x l)
  = if p x then insert_by le x (List.filter p l) else List.filter p l.
Proof.
  intros Ht. induction l as [| y l IH]; simpl; intros Hs.
  - destruct (p x); reflexivity.
  - apply andb_prop in Hs as [Hy Hl]. destruct (le x y) eqn:E; simpl.
    + destruct (p x) eqn:Px, (p y) eqn:Py; simpl; rewrite ?E; try reflexivity.
      symmetry. apply insert_by_head. apply forallb_forall. intros z Hz.
      apply filter_In in Hz as [Hz _]. eapply Ht; [exact E |].
      rewrite forallb_forall in Hy. now apply Hy.
    + rewrite (IH Hl).
      destruct (p x) eqn:Px, (p y) eqn:Py; simpl; rewrite ?E; reflexivity.
Qed.

Lemma sort_filter le p l :
  (forall a b c, le a b = true -> le b c = true -> le a c = true) ->
  (forall a b, le a b = true \/ le b a = true) ->
  List.filter p (fold_right (insert_by le) [] l)
  = fold_right (insert_by le) [] (List.filter p l).
Proof.
  intros Ht Htot. induction l as [| x l IH]; simpl; [reflexivity |].
  rewrite insert_by_filter by (try apply sort_sorted; assumption).
  destruct (p x); simpl; now rewrite IH.
Qed.

Lemma sorted_by_app le A C :
  sorted_by le (A ++ C) = true ->
  sorted_by le C = true /\ forall a c, In a A -> In c C -> le a c = true.
Proof.
  induction A as [| x A IH]; simpl; intros H.
  - split; [exact H | intros ? ? []].
  - apply andb_prop in H as [Hx HA]. destruct (IH HA) as [HC Hall].
    split; [exact HC |]. intros a c [<- | Ha] Hc.
    + rewrite forallb_forall in Hx. apply Hx. apply in_or_app. now right.
    + now apply Hall.
Qed.

Lemma firstn_in {A} n (l : list A) x : In x (firstn n l) -> In x l.
Proof.
  revert n. induction l as [| a l IH]; intros [| n]; simpl; try tauto.
  intros [H | H]; [now left | right; eauto].
Qed.

Lemma sorted_by_firstn le n l :
  sorted_by le l = true -> sorted_by le (firstn n l) = true.
Proof.
  revert n. induction l as [| x l IH]; intros [| n] H; simpl; try reflexivity.
  simpl in H. apply andb_prop in H as [Hx Hl].
  rewrite (IH n Hl), andb_true_r. apply forallb_forall. intros z Hz.
  rewrite forallb_forall in Hx. apply Hx. eapply firstn_in. exact Hz.
Qed.

Lemma filter_none {A} (f : A -> bool) (l : list A) :
  (forall x, In x l -> f x = false) -> List.filter f l = [].
Proof.
  induction l as [| a l IH]; intros H; simpl; [reflexivity |].
  rewrite (H a) by now left. apply IH. intros x Hx. apply H. now right.
Qed.

Lemma filter_forallb_app {A B} (h : B -> A -> bool) (cs ds : list B) (l : list A) :
  List.filter (fun r => forallb (fun c => h c r) (cs ++ ds)) l
  = List.filter (fun r => forallb (fun c => h c r) cs)
      (List.filter (fun r => forallb (fun c => h c r) ds) l).
Proof.
  induction l as [| a l IH]; simpl; [reflexivity |].
  rewrite forallb_app.
  destruct (forallb (fun c => h c a) ds); simpl;
    destruct (forallb (fun c => h c a) cs); simpl; now rewrite IH.
Qed.

Lemma NoDup_map_filter {A B} (k : A -> B) (f : A -> bool) (l : list A) :
  List.NoDup (List.map k l) -> List.NoDup (List.map k (List.filter f l)).
Proof.
  induction l as [| a l IH]; simpl; intros H; [constructor |].
  inversion H as [| ? ? Hn Hl]; subst.
  destruct (f a); simpl; [| now apply IH].
  constructor; [| now apply IH].
  intros Hin. apply Hn. apply in_map_iff in Hin as (x & Hx & Hin).
  apply filter_In in Hin as [Hin _]. apply in_map_iff. now exists x.
Qed.

(** In a sorted listing with distinct times, the rows strictly beyond [x]
    are those after it. *)
Lemma beyond_cursor o A x B :
  sorted_by (row_le o) (A ++ x :: B) = true ->
  List.NoDup (List.map row_created_at (A ++ x :: B)) ->
  List.filter (fun r => negb (row_le o r x)) (A ++ x :: B) = B.
Proof.
  intros Hs Hnd. rewrite List.filter_app. simpl.
  destruct (sorted_by_app _ _ _ Hs) as [HxB HA].
  simpl in HxB. apply andb_prop in HxB as [HxB _].
  assert (Hxx : row_le o x x = true) by (destruct (row_le_total o x x); assumption).
  rewrite Hxx. simpl.
  rewrite filter_none.
  2:{ intros a Ha. rewrite (HA a x Ha) by now left. reflexivity. }
  simpl. apply filter_all. intros b Hb.
  destruct (row_le o b x) eqn:E; [| reflexivity]. exfalso.
  rewrite forallb_forall in HxB.
  pose proof (row_le_antisym o b x E (HxB b Hb)) as Heq.
  rewrite List.map_app in Hnd. apply List.NoDup_app_remove_l in Hnd.
  simpl in Hnd. inversion Hnd as [| ? ? Hn _]; subst.
  apply Hn. rewrite <- Heq. now apply in_map.
Qed.

Lemma truthy_nonempty s : s <> "" -> truthy (Some s) = Some s.
Proof. destruct s; [congruence | reflexivity]. Qed.

Lemma listing_eq fromisoformat rows from_date to_date sort :
  listing fromisoformat rows from_date to_date sort
  = fold_right (insert_by (row_le (sort_order sort))) []
      (List.filter
         (fun r => forallb (fun c => clause_holds c r)
                           (date_clauses fromisoformat from_date to_date))
         rows).
Proof. unfold listing, run_query. cbn [q_where q_order q_limit]. apply order_by_row_le. Qed.

Lemma listing_perm fromisoformat rows from_date to_date sort :
  Permutation (listing fromisoformat rows from_date to_date sort)
    (List.filter
       (fun r => forallb (fun c => clause_holds c r)
                         (date_clauses fromisoformat from_date to_date))
       rows).
Proof. rewrite listing_eq. apply sort_perm. Qed.

Lemma listing_sorted fromisoformat rows from_date to_date sort :
  sorted_by (row_le (sort_order sort))
            (listing fromisoformat rows from_date to_date sort) = true.
Proof.
  rewrite listing_eq. apply sort_sorted;
    [apply row_le_trans | apply row_le_total].
Qed.

Lemma listing_in fromisoformat rows from_date to_date sort r :
  In r (listing fromisoformat rows from_date to_date sort) -> In r rows.
Proof.
  intros H. eapply Permutation_in in H; [| apply listing_perm].
  now apply filter_In in H as [H _].
Qed.

(** The rows of a page query, sorted, are the listing filtered by the
    cursor's clause. *)
Lemma matching_sorted fromisoformat rows cursor from_date to_date sort :
  order_by (Some (sort_order sort))
    (matching fromisoformat rows cursor from_date to_date sort)
  = List.filter
      (fun r => forallb (fun c => clause_holds c r)
                        (cursor_clauses fromisoformat cursor sort))
      (listing fromisoformat rows from_date to_date sort).
Proof.
  unfold matching. rewrite filter_forallb_app, order_by_row_le, listing_eq.
  symmetry. apply sort_filter; [apply row_le_trans | apply row_le_total].
Qed.

Lemma run_notes_query fromisoformat rows limit cursor from_date to_date sort :
  run_query (notes_query fromisoformat limit cursor from_date to_date sort) rows
  = firstn (Z.to_nat (limit + 1))
      (order_by (Some (sort_order sort))
         (matching fromisoformat rows cursor from_date to_date sort)).
Proof. reflexivity. Qed.

(** What [list_notes] answers, in terms of the sorted rows its query
    matches. *)
Lemma page_of fromisoformat isoformat rows limit cursor from_date to_date sort :
  0 <= limit ->
  list_notes fromisoformat isoformat true rows limit cursor from_date to_date sort
  = let found :=
      order_by (Some (sort_order sort))
        (matching fromisoformat rows cursor from_date to_date sort) in
    let has_more := limit <? Z.of_nat (length found) in
    let notes := firstn (Z.to_nat limit) found in
    Ok {| lr_notes := List.map (list_item) notes;
          lr_total_count :=
            Z.of_nat (length (run_query (count_query fromisoformat from_date to_date) rows));
          lr_next_cursor :=
            if has_more then
              match List.last (List.map Some notes) None with
              | Some r => Some (isoformat (row_created_at r))
              | None => None
              end
            else None;
          lr_has_more := has_more |}.
Proof.
  intros Hl. unfold list_notes. cbn [negb]. rewrite run_notes_query.
  set (found := order_by _ (matching _ _ _ _ _ _)).
  cbv zeta.
  replace (Z.to_nat (limit + 1)) with (S (Z.to_nat limit)) by lia.
  rewrite length_firstn.
  destruct (limit <? Z.of_nat (length found)) eqn:E.
  - apply Z.ltb_lt in E.
    replace (limit <? Z.of_nat (S (Z.to_nat limit) `min` length found)) with true
      by (symmetry; apply Z.ltb_lt; lia).
    rewrite List.firstn_firstn.
    replace (Z.to_nat limit `min` S (Z.to_nat limit))%nat with (Z.to_nat limit) by lia.
    reflexivity.
  - apply Z.ltb_ge in E.
    replace (limit <? Z.of_nat (S (Z.to_nat limit) `min` length found)) with false
      by (symmetry; apply Z.ltb_ge; lia).
    rewrite !List.firstn_all2 by lia. reflexivity.
Qed.

Lemma last_map_Some {A} (l : list A) :
  l <> [] ->
  exists front x, l = front ++ [x] /\ List.last (List.map Some l) None = Some x.
Proof.
  intros H. destruct (exists_last H) as (front & x & ->).
  exists front, x. split; [reflexivity |].
  rewrite List.map_app. simpl. apply List.last_last.
Qed.

Lemma found_length fromisoformat rows cursor from_date to_date sort :
  length (order_by (Some (sort_order sort))
            (matching fromisoformat rows cursor from_date to_date sort))
  = length (matching fromisoformat rows cursor from_date to_date sort).
Proof. rewrite order_by_row_le. apply Permutation_length, sort_perm. Qed.

(** X15.  [list_notes] with a limit of at least 0 and a database that
    answers returns a page of at most [limit] items and never more than
    [total_count]; [has_more] is set exactly when more than [limit] rows
    match the cursor and the date filters, otherwise the page holds all of
    them; and, for a positive limit, a page has a [next_cursor] exactly when
    [has_more] is set. *)
Theorem page_is_bounded :
  forall fromisoformat isoformat rows limit cursor from_date to_date sort,
    0 <= limit ->
    exists page,
      list_notes fromisoformat isoformat true rows limit
                 cursor from_date to_date sort = Ok page
      /\ Z.of_nat (length (lr_notes page)) <= limit
      /\ Z.of_nat (length (lr_notes page)) <= lr_total_count page
      /\ (lr_has_more page = true <->
          limit < Z.of_nat (length (matching fromisoformat rows cursor
                                             from_date to_date sort)))
      /\ (lr_has_more page = false ->
          length (lr_notes page)
          = length (matching fromisoformat rows cursor from_date to_date sort))
      /\ (0 < limit ->
          (lr_next_cursor page = None <-> lr_has_more page = false)).
Proof.
  intros fromisoformat isoformat rows limit cursor from_date to_date sort Hl.
  rewrite page_of by exact Hl. cbv zeta. eexists. split; [reflexivity |].
  cbn [lr_notes lr_total_count lr_next_cursor lr_has_more].
  rewrite List.length_map, length_firstn, found_length.
  set (found := order_by _ _).
  assert (Hlen : length found
                 = length (matching fromisoformat rows cursor from_date to_date sort))
    by apply found_length.
  assert (Hcount :
            (length (matching fromisoformat rows cursor from_date to_date sort)
             <= length (run_query (count_query fromisoformat from_date to_date) rows))%nat).
  { unfold matching, run_query, count_query. cbn [q_where q_order q_limit order_by].
    rewrite filter_forallb_app. apply List.filter_length_le. }
  split; [lia |]. split; [lia |]. split; [apply Z.ltb_lt |].
  split; [intros E; apply Z.ltb_ge in E; lia |].
  intros Hpos.
  destruct (limit <? _) eqn:E; [| tauto].
  apply Z.ltb_lt in E.
  destruct (last_map_Some (firstn (Z.to_nat limit) found)) as (front & x & _ & ->).
  { intros H. apply (f_equal (@length Row)) in H.
    rewrite length_firstn in H. simpl in H. lia. }
  split; discriminate.
Qed.

(** X16.  Every item of a page [list_notes] returns comes from a row of the
    table that lies strictly beyond the cursor (older for
    ["created_at_desc"], newer for any other [sort]) and inside the date
    range, and the items are in the order asked for: ascending for
    ["created_at_asc"], descending for any other [sort]. *)
Theorem page_is_filtered_and_sorted :
  forall fromisoformat isoformat db_ok rows limit cursor from_date to_date
         sort page,
    list_notes fromisoformat isoformat db_ok rows limit
               cursor from_date to_date sort = Ok page ->
    exists rs,
      lr_notes page = List.map list_item rs
      /\ sorted_by (row_le (sort_order sort)) rs = true
      /\ forall r, In r rs ->
           In r rows
           /\ (forall c d, truthy cursor = Some c -> fromisoformat c = Some d ->
                 if String.eqb sort "created_at_desc"
                 then row_created_at r < d else d < row_created_at r)
           /\ (forall f d, truthy from_date = Some f -> fromisoformat f = Some d ->
                 d <= row_created_at r)
           /\ (forall t d, truthy to_date = Some t -> fromisoformat t = Some d ->
                 row_created_at r <= d).
Proof.
  intros fromisoformat isoformat db_ok rows limit cursor from_date to_date
         sort page H.
  unfold list_notes in H. destruct db_ok; cbn [negb] in H; [| discriminate].
  rewrite run_notes_query in H. cbv zeta in H.
  set (found := order_by _ _) in H.
  assert (Hsorted : sorted_by (row_le (sort_order sort)) found = true).
  { unfold found. rewrite order_by_row_le.
    apply sort_sorted; [apply row_le_trans | apply row_le_total]. }
  assert (Hin : forall r, In r found ->
            In r rows
            /\ forallb (fun c => clause_holds c r)
                 (cursor_clauses fromisoformat cursor sort
                  ++ date_clauses fromisoformat from_date to_date) = true).
  { intros r Hr. unfold found in Hr. rewrite order_by_row_le in Hr.
    eapply Permutation_in in Hr; [| apply sort_perm].
    unfold matching in Hr. now apply filter_In in Hr. }
  injection H as <-. cbn [lr_notes]. eexists. split; [reflexivity |].
  match goal with |- sorted_by _ ?l = true /\ _ => set (rs := l) end.
  assert (Hrs : sorted_by (row_le (sort_order sort)) rs = true
                /\ forall r, In r rs -> In r found).
  { unfold rs. destruct (limit <? _).
    - split; [now do 2 apply sorted_by_firstn |].
      intros r Hr. now do 2 apply firstn_in in Hr.
    - split; [now apply sorted_by_firstn |].
      intros r Hr. now apply firstn_in in Hr. }
  destruct Hrs as [Hs Hsub]. split; [exact Hs |].
  intros r Hr. destruct (Hin r (Hsub r Hr)) as [Hrows Hcl].
  split; [exact Hrows |].
  rewrite forallb_app in Hcl. apply andb_prop in Hcl as [Hc Hd].
  unfold date_clauses in Hd. rewrite forallb_app in Hd.
  apply andb_prop in Hd as [Hf Ht].
  split; [| split].
  - intros c d E1 E2. unfold cursor_clauses in Hc. rewrite E1, E2 in Hc.
    destruct (String.eqb sort "created_at_desc"); simpl in Hc;
      rewrite andb_true_r in Hc; now apply Z.ltb_lt in Hc.
  - intros f d E1 E2. rewrite E1, E2 in Hf. simpl in Hf.
    rewrite andb_true_r in Hf. now apply Z.leb_le in Hf.
  - intros t d E1 E2. rewrite E1, E2 in Ht. simpl in Ht.
    rewrite andb_true_r in Ht. now apply Z.leb_le in Ht.
Qed.

Lemma cursor_clause_beyond sort x r :
  sort = "created_at_desc" \/ sort = "created_at_asc" ->
  forallb (fun c => clause_holds c r)
    (if String.eqb sort "created_at_desc"
     then [CreatedLt (row_created_at x)] else [CreatedGt (row_created_at x)])
  = negb (row_le (sort_order sort) r x).
Proof.
  intros [-> | ->]; cbn; rewrite andb_true_r; apply Z.ltb_antisym.
Qed.

(** With the cursor a page hands out, the next query matches what follows
    the page's last row in the listing. *)
Lemma found_after_cursor
    fromisoformat isoformat rows from_date to_date sort front x rest :
  sort = "created_at_desc" \/ sort = "created_at_asc" ->
  List.NoDup (List.map row_created_at rows) ->
  fromisoformat (isoformat (row_created_at x)) = Some (row_created_at x) ->
  isoformat (row_created_at x) <> "" ->
  listing fromisoformat rows from_date to_date sort = front ++ x :: rest ->
  order_by (Some (sort_order sort))
    (matching fromisoformat rows (Some (isoformat (row_created_at x)))
              from_date to_date sort)
  = rest.
Proof.
  intros Hsort Hnd Hround Hne HL.
  rewrite matching_sorted. unfold cursor_clauses.
  rewrite truthy_nonempty by exact Hne. rewrite Hround.
  rewrite (List.filter_ext _ _ (fun r => cursor_clause_beyond sort x r Hsort)).
  rewrite HL. apply beyond_cursor.
  - rewrite <- HL. apply listing_sorted.
  - rewrite <- HL.
    eapply Permutation_NoDup;
      [apply Permutation_map; symmetry; apply listing_perm |].
    now apply NoDup_map_filter.
Qed.

Lemma all_pages_from
    fromisoformat isoformat rows limit from_date to_date sort :
  1 <= limit ->
  sort = "created_at_desc" \/ sort = "created_at_asc" ->
  List.NoDup (List.map row_created_at rows) ->
  (forall r, In r rows ->
     fromisoformat (isoformat (row_created_at r)) = Some (row_created_at r)
     /\ isoformat (row_created_at r) <> "") ->
  forall fuel cursor front rest,
    listing fromisoformat rows from_date to_date sort = front ++ rest ->
    order_by (Some (sort_order sort))
      (matching fromisoformat rows cursor from_date to_date sort) = rest ->
    (length rest < fuel)%nat ->
    all_pages fromisoformat isoformat fuel rows limit cursor from_date to_date sort
    = List.map list_item rest.
Proof.
  intros Hl Hsort Hnd Hiso.
  induction fuel as [| fuel IH]; intros cursor front rest HL Hfound Hfuel; [lia |].
  cbn [all_pages]. rewrite page_of by lia. cbv zeta.
  cbn [lr_notes lr_next_cursor]. rewrite Hfound.
  destruct (limit <? Z.of_nat (length rest)) eqn:E.
  - apply Z.ltb_lt in E.
    destruct (last_map_Some (firstn (Z.to_nat limit) rest)) as (page & x & Hpage & ->).
    { intros H. apply (f_equal (@length Row)) in H.
      rewrite length_firstn in H. simpl in H. lia. }
    assert (Hsplit : rest = page ++ x :: skipn (Z.to_nat limit) rest).
    { rewrite <- (List.firstn_skipn (Z.to_nat limit) rest) at 1.
      rewrite Hpage, <- app_assoc. reflexivity. }
    assert (Hx : In x rows).
    { apply (listing_in fromisoformat rows from_date to_date sort).
      rewrite HL, Hsplit. apply in_or_app. right. apply in_or_app. right. now left. }
    destruct (Hiso x Hx) as [Hround Hne].
    rewrite (IH _ (front ++ page ++ [x]) (skipn (Z.to_nat limit) rest)).
    + rewrite <- List.map_app, List.firstn_skipn. reflexivity.
    + rewrite HL, Hsplit at 1. rewrite <- !app_assoc. reflexivity.
    + eapply found_after_cursor; try eassumption.
      rewrite HL, Hsplit at 1. rewrite app_assoc. reflexivity.
    + rewrite List.length_skipn. lia.
  - apply Z.ltb_ge in E. rewrite app_nil_r.
    rewrite List.firstn_all2 by lia. reflexivity.
Qed.

(** X17.  A client that starts without cursor and follows [next_cursor]
    until a page has none receives every note the date filters let through
    exactly once and in the order asked for, whatever the page size, as long
    as no two notes share a creation time, [sort] is one of the two
    documented values and [fromisoformat] reads back what [isoformat]
    writes. *)
Theorem paging_visits_every_note_once :
  forall fromisoformat isoformat rows limit from_date to_date sort,
    1 <= limit ->
    sort = "created_at_desc" \/ sort = "created_at_asc" ->
    List.NoDup (List.map row_created_at rows) ->
    (forall r, In r rows ->
       fromisoformat (isoformat (row_created_at r)) = Some (row_created_at r)
       /\ isoformat (row_created_at r) <> "") ->
    all_pages fromisoformat isoformat (S (length rows)) rows limit
              None from_date to_date sort
    = List.map list_item (listing fromisoformat rows from_date to_date sort).
Proof.
  intros fromisoformat isoformat rows limit from_date to_date sort
         Hl Hsort Hnd Hiso.
  apply (all_pages_from fromisoformat isoformat rows limit from_date to_date sort
           Hl Hsort Hnd Hiso (S (length rows)) None []).
  - reflexivity.
  - rewrite matching_sorted. unfold cursor_clauses. cbn [truthy app].
    apply filter_all. reflexivity.
  - rewrite (Permutation_length (listing_perm _ _ _ _ _)).
    pose proof (List.filter_length_le
                  (fun r => forallb (fun c => clause_holds c r)
                              (date_clauses fromisoformat from_date to_date))
                  rows).
    lia.
Qed.

Lemma five_rows_distinct : List.NoDup (List.map row_created_at five_rows).
Proof.
  repeat (constructor; [simpl; intuition lia |]). constructor.
Qed.

Lemma five_rows_calendar r :
  In r five_rows ->
  of_iso (iso_of (row_created_at r)) = Some (row_created_at r)
  /\ iso_of (row_created_at r) <> "".
Proof.
  simpl. intros [<- | [<- | [<- | [<- | [<- | []]]]]];
    (split; [reflexivity | discriminate]).
Qed.

Lemma page_is_bounded_witness :
  exists page,
    list_notes of_iso iso_of true five_rows 2
               (Some "2024-01-05") None None "created_at_desc" = Ok page
    /\ Z.of_nat (length (lr_notes page)) <= 2
    /\ Z.of_nat (length (lr_notes page)) <= lr_total_count page
    /\ (lr_has_more page = true <->
        2 < Z.of_nat (length (matching of_iso five_rows (Some "2024-01-05")
                                       None None "created_at_desc")))
    /\ (lr_has_more page = false ->
        length (lr_notes page)
        = length (matching of_iso five_rows (Some "2024-01-05")
                           None None "created_at_desc"))
    /\ (0 < 2 -> (lr_next_cursor page = None <-> lr_has_more page = false)).
Proof.
  apply (page_is_bounded of_iso iso_of five_rows 2 (Some "2024-01-05")
           None None "created_at_desc").
  lia.
Defined.

Lemma page_is_filtered_and_sorted_witness :
  exists rs,
    List.map list_item [row_at 5 4; row_at 1 3] = List.map list_item rs
    /\ sorted_by (row_le (sort_order "created_at_desc")) rs = true
    /\ forall r, In r rs ->
         In r five_rows
         /\ (forall c d, truthy (Some "2024-01-05") = Some c -> of_iso c = Some d ->
               if String.eqb "created_at_desc" "created_at_desc"
               then row_created_at r < d else d < row_created_at r)
         /\ (forall f d, truthy (Some "2024-01-02") = Some f -> of_iso f = Some d ->
               d <= row_created_at r)
         /\ (forall t d, truthy None = Some t -> of_iso t = Some d ->
               row_created_at r <= d).
Proof.
  apply (page_is_filtered_and_sorted of_iso iso_of true five_rows 2
           (Some "2024-01-05") (Some "2024-01-02") None "created_at_desc"
           {| lr_notes := List.map list_item [row_at 5 4; row_at 1 3];
              lr_total_count := 4;
              lr_next_cursor := Some "2024-01-03";
              lr_has_more := true |}).
  reflexivity.
Defined.

Lemma paging_visits_every_note_once_witness :
  all_pages of_iso iso_of (S (length five_rows)) five_rows 2
            None None None "created_at_desc"
  = List.map list_item (listing of_iso five_rows None None "created_at_desc").
Proof.
  apply (paging_visits_every_note_once of_iso iso_of five_rows 2
           None None "created_at_desc").
  - lia.
  - now left.
  - exact five_rows_distinct.
  - exact five_rows_calendar.
Defined.

(** ** get_note and the outcomes of parse_note *)

Lemma filter_by_id_none rows id :
  ~ In id (List.map row_id rows) ->
  List.filter (fun r => Nat.eqb (row_id r) id) rows = [].
Proof.
  intros H. apply filter_none. intros r Hr.
  apply Nat.eqb_neq. intros E. apply H. rewrite <- E. now apply in_map.
Qed.

Lemma filter_by_id_one rows r :
  List.NoDup (List.map row_id rows) ->
  In r rows ->
  List.filter (fun r0 => Nat.eqb (row_id r0) (row_id r)) rows = [r].
Proof.
  induction rows as [| a rows IH]; simpl; intros Hnd Hin; [destruct Hin |].
  inversion Hnd as [| ? ? Hn Hrest]; subst.
  destruct Hin as [-> | Hin].
  - rewrite Nat.eqb_refl. f_equal. now apply filter_by_id_none.
  - destruct (Nat.eqb (row_id a) (row_id r)) eqn:E; [| now apply IH].
    apply Nat.eqb_eq in E. exfalso. apply Hn. rewrite E. now apply in_map.
Qed.

(** X18.  With ids that are unique in the table, [get_note] returns the
    note of the row that has the id asked for, with that row's text,
    status, creation time and error message, and raises [NotFoundError]
    exactly when no row has the id; it never raises [DatabaseError] while
    the database answers. *)
Theorem get_note_finds_by_id :
  forall str_uuid rows note_id,
    List.NoDup (List.map row_id rows) ->
    (forall r, In r rows -> row_id r = note_id ->
       get_note str_uuid true rows note_id = NoteFound (row_response r))
    /\ (~ In note_id (List.map row_id rows) ->
        get_note str_uuid true rows note_id
        = mk_NotFoundError "note" (str_uuid note_id))
    /\ (forall e, get_note str_uuid true rows note_id <> LookupFailed e)
    /\ (forall note, get_note str_uuid true rows note_id = NoteFound note ->
          nr_id note = Some note_id /\
          exists r, In r rows /\ note = row_response r).
Proof.
  intros str_uuid rows note_id Hnd.
  assert (Hone : forall r, In r rows -> row_id r = note_id ->
            get_note str_uuid true rows note_id = NoteFound (row_response r)).
  { intros r Hr <-. unfold get_note. cbn [negb].
    now rewrite (filter_by_id_one rows r Hnd Hr). }
  assert (Hnone : ~ In note_id (List.map row_id rows) ->
            get_note str_uuid true rows note_id
            = mk_NotFoundError "note" (str_uuid note_id)).
  { intros H. unfold get_note. cbn [negb]. now rewrite filter_by_id_none. }
  assert (Hcases : (exists r, In r rows /\ row_id r = note_id)
                   \/ ~ In note_id (List.map row_id rows)).
  { destruct (in_dec Nat.eq_dec note_id (List.map row_id rows)) as [H | H].
    - left. apply in_map_iff in H as (r & E & Hr). eauto.
    - now right. }
  split; [exact Hone |]. split; [exact Hnone |]. split.
  - intros e. destruct Hcases as [(r & Hr & E) | H].
    + rewrite (Hone r Hr E). discriminate.
    + rewrite (Hnone H). unfold mk_NotFoundError.
      destruct (String.eqb _ _); discriminate.
  - intros note. destruct Hcases as [(r & Hr & E) | H].
    + rewrite (Hone r Hr E). intros [= <-]. split; [cbn; now rewrite E | eauto].
    + rewrite (Hnone H). unfold mk_NotFoundError.
      destruct (String.eqb _ _); discriminate.
Qed.

Lemma get_note_finds_by_id_witness :
  (forall r, In r three_rows -> row_id r = 2%nat ->
     get_note (fun _ => "8f14e45f") true three_rows 2 = NoteFound (row_response r))
  /\ (~ In 2%nat (List.map row_id three_rows) ->
      get_note (fun _ => "8f14e45f") true three_rows 2
      = mk_NotFoundError "note" "8f14e45f")
  /\ (forall e, get_note (fun _ => "8f14e45f") true three_rows 2 <> LookupFailed e)
  /\ (forall note, get_note (fun _ => "8f14e45f") true three_rows 2 = NoteFound note ->
        nr_id note = Some 2%nat /\
        exists r, In r three_rows /\ note = row_response r).
Proof.
  apply (get_note_finds_by_id (fun _ => "8f14e45f") three_rows 2).
  repeat (constructor; [simpl; intuition lia |]). constructor.
Defined.

(** Step 3 succeeds: the note is completed and flushed; a failing flush
    is answered as any other exception. *)
Lemma parse_note_ok_step
      settings env filename content content_length w absolute relative text w4 n :
  env_validate_and_store env filename content content_length
    = inl (absolute, relative) ->
  env_flush env (flushes w) = None ->
  parse_image settings env absolute (stored env absolute relative w) = (Ok text, w4) ->
  session_note w4 = Some n ->
  parse_note settings env filename content content_length w
  = match db_flush env (set_session_note (Some (completed_note text n)) w4) with
    | (Ok _, w5) =>
        match session_note w5 with
        | Some n5 =>
            (Ok {| pr_message := "Note parsed successfully";
                   pr_parsed_text := text;
                   pr_note := note_response relative n5 |}, w5)
        | None => (Err (database_error (TypeError "note is None")),
                   cleaned absolute w5)
        end
    | (Err e, w5) => (Err (database_error e), cleaned absolute w5)
    end.
Proof.
  intros Hv Hf Hrun Hn.
  unfold parse_note, try_except, parse_note_try, bind.
  rewrite (store_and_record_ok _ _ _ _ _ _ _ Hv Hf).
  unfold lift at 1. cbn [world absolute_path]. rewrite Hrun.
  unfold complete_note, bind, lift, note_update, modify, gets.
  cbn [world absolute_path].
  unfold set_session_note at 1 2. cbn [session_note]. rewrite Hn. cbn [option_map].
  fold (completed_note text n).
  match goal with
  | |- context [db_flush env ?x] =>
      change x with (set_session_note (Some (completed_note text n)) w4);
      destruct (db_flush env (set_session_note (Some (completed_note text n)) w4))
        as [[[] | e'] w5] eqn:Hflush
  end.
  - cbn [world absolute_path].
    destruct (session_note w5); cbn [ret raise world absolute_path];
      [reflexivity |].
    cbn [is_LLMServiceError is_Exception is_ScribeSnapError].
    unfold on_exception, bind, gets, lift, cleanup_file, modify, raise, ret, cleaned.
    cbn [world absolute_path].
    destruct (String.eqb absolute ""); reflexivity.
  - destruct (db_flush_raises _ _ _ _ Hflush) as (msg & ->).
    cbn [is_LLMServiceError is_Exception is_ScribeSnapError].
    unfold on_exception, bind, gets, lift, cleanup_file, modify, raise, ret, cleaned.
    cbn [world absolute_path].
    destruct (String.eqb absolute ""); reflexivity.
Qed.

(** A flush touches the session and the table only. *)
Lemma db_flush_frame env w :
  breaker (snd (db_flush env w)) = breaker w /\
  api_calls (snd (db_flush env w)) = api_calls w /\
  files (snd (db_flush env w)) = files w.
Proof.
  unfold db_flush. destruct (env_flush env (flushes w)).
  - repeat split.
  - destruct (session_note _); repeat split.
Qed.

Lemma cleaned_files absolute w fs :
  absolute <> "" ->
  files w = absolute :: fs ->
  ~ In absolute fs ->
  files (cleaned absolute w) = fs.
Proof.
  intros Hne Hfs Hnew. unfold cleaned.
  apply String.eqb_neq in Hne. rewrite Hne.
  unfold log, set_files. cbn [files]. rewrite Hfs. cbn [List.filter].
  rewrite String.eqb_refl. cbn [negb]. apply filter_all.
  intros p Hp. destruct (String.eqb p absolute) eqn:E; [| reflexivity].
  apply String.eqb_eq in E. subst p. contradiction.
Qed.

(** Step 2 fails: the world is the one in which the file was stored, with
    the file cleaned up. *)
Lemma parse_note_flush_failed_world
      settings env filename content content_length w absolute relative msg :
  env_validate_and_store env filename content content_length
    = inl (absolute, relative) ->
  env_flush env (flushes w) = Some msg ->
  exists w1,
    parse_note settings env filename content content_length w
    = (Err (database_error (SQLAlchemyError msg)), cleaned absolute w1) /\
    files w1 = absolute :: files w.
Proof.
  intros Hv Hf.
  unfold parse_note, try_except, parse_note_try, store_and_record, bind, lift,
    validate_and_store, set_absolute_path, db_add, modify, db_flush.
  cbn [world absolute_path]. rewrite Hv. world. rewrite Hf.
  cbn [is_LLMServiceError is_Exception is_ScribeSnapError].
  unfold on_exception, bind, gets, lift, cleanup_file, modify, raise, ret.
  cbn [world absolute_path].
  match goal with
  | |- context [{| breaker := breaker w; api_calls := ?a; session_note := ?n;
                   table := ?t; flushes := ?f; files := ?fs; trace := ?tr |}] =>
      set (w1 := {| breaker := breaker w; api_calls := a; session_note := n;
                    table := t; flushes := f; files := fs; trace := tr |})
  end.
  exists w1.
  split; [unfold cleaned; destruct (String.eqb absolute ""); reflexivity |].
  reflexivity.
Qed.

(** What a run of [parse_image] inside [parse_note] leaves as it was. *)
Lemma parse_image_in_parse_note settings env absolute relative w r4 w4 :
  parse_image settings env absolute (stored env absolute relative w) = (r4, w4) ->
  parse_image_run settings env (stored env absolute relative w) r4 w4 /\
  session_note w4 = Some (processing_note env relative w) /\
  table w4 = table w ++ [processing_row env relative w] /\
  flushes w4 = S (flushes w) /\
  files w4 = absolute :: files w.
Proof.
  intros Hrun. pose proof (parse_image_runs _ _ _ _ _ _ Hrun) as Hcase.
  destruct (parse_image_run_trace _ _ _ _ _ Hcase)
    as (flag & j & records & _ & _ & Ht & Hs & Hfl & Hfi & _).
  repeat split; assumption.
Qed.

(** The second flush of a successful run writes the completed note over
    the note's row. *)
Lemma completing_flush env relative text w w4 :
  session_note w4 = Some (processing_note env relative w) ->
  table w4 = table w ++ [processing_row env relative w] ->
  flushes w4 = S (flushes w) ->
  env_flush env (S (flushes w)) = None ->
  let n5 := completed_note text (processing_note env relative w) in
  let id := env_uuid4 env (flushes w) in
  exists w5,
    db_flush env (set_session_note (Some n5) w4) = (Ok tt, w5) /\
    session_note w5 = Some n5 /\
    table w5 =
      List.map (fun r0 => if Nat.eqb (row_id r0) id
                          then row_of id (env_utcnow env (flushes w)) 0 n5 else r0)
               (table w)
      ++ [row_of id (env_utcnow env (flushes w)) 0 n5].
Proof.
  intros Hs Ht Hfl Hf2 n5 id.
  set (X := set_session_note (Some n5) w4).
  assert (HXs : session_note X = Some n5) by reflexivity.
  assert (HXf : flushes X = S (flushes w)) by exact Hfl.
  assert (HXt : table X = table w ++ [processing_row env relative w]) by exact Ht.
  clearbody X.
  destruct (db_flush_update env X n5 id (env_utcnow env (flushes w)) 0
              HXs eq_refl eq_refl eq_refl)
    as (w5 & Hrun5 & Hs5 & Ht5); [now rewrite HXf |].
  exists w5. split; [exact Hrun5 |]. split; [exact Hs5 |].
  rewrite Ht5, HXt, List.map_app. cbn [List.map row_id row_of processing_row].
  subst id. now rewrite Nat.eqb_refl.
Qed.

(** The errors of [parse_note], by cases over its paths. *)
Lemma parse_note_errors :
  forall settings env filename content content_length w e w',
    parse_note settings env filename content content_length w = (Err e, w') ->
    (exists m, e = ValidationError m) \/
    (exists m, e = FileStorageError m) \/
    (exists m ctx, e = DatabaseError m ctx) \/
    (exists remaining, e = CircuitBreakerOpenError remaining) \/
    (exists ctx, e = LLMServiceError msg_unexpected None ctx) \/
    (exists s, e = Sdk s /\ sdk_is_Exception s = false).
Proof.
  intros settings env filename content content_length w e w' H.
  destruct (env_validate_and_store env filename content content_length)
    as [[absolute relative] | failure] eqn:Hv.
  2:{ rewrite (parse_note_invalid _ _ _ _ _ _ _ Hv) in H. injection H as <- _.
      destruct failure; eauto 8. }
  destruct (env_flush env (flushes w)) as [msg |] eqn:Hf.
  { destruct (parse_note_flush_failed_world settings _ _ _ _ _ _ _ _ Hv Hf)
      as (w1 & E & _).
    rewrite E in H. injection H as <- _. unfold database_error. eauto 8. }
  destruct (parse_image settings env absolute (stored env absolute relative w))
    as [r4 w4] eqn:Hrun.
  destruct (parse_image_in_parse_note _ _ _ _ _ _ _ Hrun) as (Hcase & Hs & _).
  destruct r4 as [text | e4].
  - rewrite (parse_note_ok_step _ _ _ _ _ _ _ _ _ _ _ Hv Hf Hrun Hs) in H.
    destruct (db_flush env _) as [[[] | e5] w5].
    + destruct (session_note w5); [discriminate |].
      injection H as <- _. unfold database_error. eauto 8.
    + injection H as <- _. unfold database_error. eauto 8.
  - destruct (parse_image_errors _ _ _ _ _ Hcase)
      as [(remaining & ->) | [(ctx & ->) | (s & -> & Hs')]].
    + rewrite (parse_note_call_failed _ _ _ _ _ _ _ _ _ _ Hv Hf Hrun eq_refl) in H.
      cbn in H. injection H as <- _. eauto 8.
    + rewrite (parse_note_llm_failed _ _ _ _ _ _ _ _ _ _ _ 0 Hv Hf Hrun eq_refl Hs)
        in H by reflexivity.
      injection H as <- _. eauto 8.
    + rewrite (parse_note_call_failed _ _ _ _ _ _ _ _ _ _ Hv Hf Hrun eq_refl) in H.
      cbn [is_Exception] in H. rewrite Hs' in H.
      injection H as <- _. eauto 8.
Qed.

(** X19.  Whatever [parse_note] raises is a [ValidationError], a
    [FileStorageError], a [DatabaseError], a [CircuitBreakerOpenError], the
    [LLMServiceError] of [parse_image], or something that is not an
    [Exception] (a cancellation): no error of the database driver, of the
    Gemini SDK or of the retry library reaches the caller as it is. *)
Theorem parse_note_raises_its_own_errors :
  forall settings env filename content content_length w e w',
    parse_note settings env filename content content_length w = (Err e, w') ->
    (exists m, e = ValidationError m) \/
    (exists m, e = FileStorageError m) \/
    (exists m ctx, e = DatabaseError m ctx) \/
    (exists remaining, e = CircuitBreakerOpenError remaining) \/
    (exists ctx, e = LLMServiceError msg_unexpected None ctx) \/
    (exists s, e = Sdk s /\ sdk_is_Exception s = false).
Proof. exact parse_note_errors. Qed.

Lemma parse_note_raises_its_own_errors_witness :
  (exists m, CircuitBreakerOpenError 50 = ValidationError m) \/
  (exists m, CircuitBreakerOpenError 50 = FileStorageError m) \/
  (exists m ctx, CircuitBreakerOpenError 50 = DatabaseError m ctx) \/
  (exists remaining, CircuitBreakerOpenError 50 = CircuitBreakerOpenError remaining) \/
  (exists ctx, CircuitBreakerOpenError 50 = LLMServiceError msg_unexpected None ctx) \/
  (exists s, CircuitBreakerOpenError 50 = Sdk s /\ sdk_is_Exception s = false).
Proof.
  apply (parse_note_raises_its_own_errors default_settings (an_env api_down 10)
           "a.jpg" [] None (a_world opened_breaker) (CircuitBreakerOpenError 50)
           (snd (parse_note default_settings (an_env api_down 10)
                            "a.jpg" [] None (a_world opened_breaker)))).
  vm_compute. reflexivity.
Defined.

(** X20.  Once [parse_note] has stored the upload, the file is still in
    the storage afterwards exactly when the call succeeds, raises
    [LLMServiceError] or is cancelled; on every other error
    ([DatabaseError], [CircuitBreakerOpenError]) the handler has removed it
    again, and no other file is touched. *)
Theorem stored_file_follows_the_outcome :
  forall settings env filename content content_length w absolute relative r w',
    env_validate_and_store env filename content content_length
      = inl (absolute, relative) ->
    absolute <> "" ->
    ~ In absolute (files w) ->
    parse_note settings env filename content content_length w = (r, w') ->
    files w' = if keeps_file r then absolute :: files w else files w.
Proof.
  intros settings env filename content content_length w absolute relative r w'
         Hv Hne Hnew H.
  destruct (env_flush env (flushes w)) as [msg |] eqn:Hf.
  { destruct (parse_note_flush_failed_world settings _ _ _ _ _ _ _ _ Hv Hf)
      as (w1 & E & Hfiles).
    rewrite E in H. injection H as <- <-. cbn.
    now apply cleaned_files. }
  destruct (parse_image settings env absolute (stored env absolute relative w))
    as [r4 w4] eqn:Hrun.
  destruct (parse_image_in_parse_note _ _ _ _ _ _ _ Hrun)
    as (Hcase & Hs & _ & _ & Hfiles).
  destruct r4 as [text | e4].
  - rewrite (parse_note_ok_step _ _ _ _ _ _ _ _ _ _ _ Hv Hf Hrun Hs) in H.
    match type of H with
    | context [db_flush env ?x] =>
        destruct (db_flush_frame env x) as (_ & _ & Hfr);
        destruct (db_flush env x) as [[[] | e5] w5]
    end; cbn [snd] in Hfr.
    + destruct (session_note w5); injection H as <- <-; cbn.
      * now rewrite Hfr.
      * apply cleaned_files; [exact Hne | now rewrite Hfr | exact Hnew].
    + injection H as <- <-. cbn.
      apply cleaned_files; [exact Hne | now rewrite Hfr | exact Hnew].
  - destruct (parse_image_errors _ _ _ _ _ Hcase)
      as [(remaining & ->) | [(ctx & ->) | (s & -> & Hs')]].
    + rewrite (parse_note_call_failed _ _ _ _ _ _ _ _ _ _ Hv Hf Hrun eq_refl) in H.
      cbn in H. injection H as <- <-. cbn. now apply cleaned_files.
    + rewrite (parse_note_llm_failed _ _ _ _ _ _ _ _ _ _ _ 0 Hv Hf Hrun eq_refl Hs)
        in H by reflexivity.
      injection H as <- <-. cbn.
      match goal with
      | |- context [db_flush env ?x] =>
          destruct (db_flush_frame env x) as (_ & _ & ->)
      end.
      exact Hfiles.
    + rewrite (parse_note_call_failed _ _ _ _ _ _ _ _ _ _ Hv Hf Hrun eq_refl) in H.
      cbn [is_Exception] in H. rewrite Hs' in H.
      injection H as <- <-. cbn. rewrite Hs'. exact Hfiles.
Qed.

Lemma stored_file_follows_the_outcome_witness :
  files (snd (parse_note default_settings (an_env api_down 10)
                         "a.jpg" [] None (a_world opened_breaker)))
  = if keeps_file (fst (parse_note default_settings (an_env api_down 10)
                                   "a.jpg" [] None (a_world opened_breaker)))
    then "/srv/storage/2024/01/15/a.jpg" :: files (a_world opened_breaker)
    else files (a_world opened_breaker).
Proof.
  apply (stored_file_follows_the_outcome default_settings (an_env api_down 10)
           "a.jpg" [] None (a_world opened_breaker)
           "/srv/storage/2024/01/15/a.jpg" "2024/01/15/a.jpg").
  - reflexivity.
  - discriminate.
  - intros [].
  - vm_compute. reflexivity.
Defined.

Lemma map_unless_id (rows : list Row) (id : nat) (row : Row) :
  (forall r, In r rows -> row_id r <> id) ->
  List.map (fun r0 => if Nat.eqb (row_id r0) id then row else r0) rows = rows.
Proof.
  intros H. induction rows as [| a rows IH]; simpl; [reflexivity |].
  destruct (Nat.eqb (row_id a) id) eqn:E.
  - apply Nat.eqb_eq in E. exfalso. apply (H a); [now left | exact E].
  - f_equal. apply IH. intros r Hr. apply H. now right.
Qed.

(** X21.  A note that [parse_note] returns can be fetched: with an id for
    the new note that no row of the table has yet, [get_note] on the table
    as [parse_note] leaves it, asked for the id of the response, returns
    the very note of the response, which is [completed] and holds the
    parsed text. *)
Theorem parsed_note_can_be_fetched :
  forall settings env filename content content_length w resp w' str_uuid,
    parse_note settings env filename content content_length w = (Ok resp, w') ->
    (forall r, In r (table w) -> row_id r <> env_uuid4 env (flushes w)) ->
    nr_id (pr_note resp) = Some (env_uuid4 env (flushes w))
    /\ get_note str_uuid true (table w') (env_uuid4 env (flushes w))
       = NoteFound (pr_note resp)
    /\ nr_status (pr_note resp) = "completed"
    /\ nr_parsed_text (pr_note resp) = pr_parsed_text resp
    /\ nr_error_message (pr_note resp) = None.
Proof.
  intros settings env filename content content_length w resp w' str_uuid H Hfresh.
  destruct (env_validate_and_store env filename content content_length)
    as [[absolute relative] | failure] eqn:Hv.
  2:{ rewrite (parse_note_invalid _ _ _ _ _ _ _ Hv) in H. discriminate. }
  destruct (env_flush env (flushes w)) as [msg |] eqn:Hf.
  { destruct (parse_note_flush_failed_world settings _ _ _ _ _ _ _ _ Hv Hf)
      as (w1 & E & _).
    rewrite E in H. discriminate. }
  destruct (parse_image settings env absolute (stored env absolute relative w))
    as [r4 w4] eqn:Hrun.
  destruct (parse_image_in_parse_note _ _ _ _ _ _ _ Hrun)
    as (Hcase & Hs & Ht & Hfl & _).
  destruct r4 as [text | e4].
  - rewrite (parse_note_ok_step _ _ _ _ _ _ _ _ _ _ _ Hv Hf Hrun Hs) in H.
    destruct (env_flush env (S (flushes w))) as [msg |] eqn:Hf2.
    + destruct (db_flush_failure env
                  (set_session_note
                     (Some (completed_note text (processing_note env relative w))) w4)
                  msg) as (w5 & E & _); [cbn [flushes set_session_note]; now rewrite Hfl |].
      rewrite E in H. discriminate.
    + destruct (completing_flush env relative text w w4 Hs Ht Hfl Hf2)
        as (w5 & E & Hs5 & Ht5).
      rewrite E, Hs5 in H. injection H as <- <-.
      cbn [pr_note pr_parsed_text].
      split; [reflexivity |]. split; [| repeat split].
      unfold get_note. cbn [negb]. rewrite Ht5.
      rewrite map_unless_id by exact Hfresh.
      rewrite List.filter_app. cbn [List.filter row_id row_of].
      rewrite Nat.eqb_refl, filter_none.
      * reflexivity.
      * intros r Hr. apply Nat.eqb_neq. now apply Hfresh.
  - exfalso.
    destruct (parse_image_errors _ _ _ _ _ Hcase)
      as [(remaining & ->) | [(ctx & ->) | (s & -> & Hs')]].
    + rewrite (parse_note_call_failed _ _ _ _ _ _ _ _ _ _ Hv Hf Hrun eq_refl) in H.
      cbn in H. discriminate.
    + rewrite (parse_note_llm_failed _ _ _ _ _ _ _ _ _ _ _ 0 Hv Hf Hrun eq_refl Hs)
        in H by reflexivity.
      discriminate.
    + rewrite (parse_note_call_failed _ _ _ _ _ _ _ _ _ _ Hv Hf Hrun eq_refl) in H.
      cbn [is_Exception] in H. rewrite Hs' in H. discriminate.
Qed.

Lemma parsed_note_can_be_fetched_witness :
  nr_id (pr_note diary_response) = Some 7%nat
  /\ get_note (fun _ => "7") true
       (table (snd (parse_note default_settings (an_env api_third_time_lucky 10)
                               "a.jpg" [] None
                               (a_world (CircuitBreaker_init 5 60)))))
       7
     = NoteFound (pr_note diary_response)
  /\ nr_status (pr_note diary_response) = "completed"
  /\ nr_parsed_text (pr_note diary_response) = pr_parsed_text diary_response
  /\ nr_error_message (pr_note diary_response) = None.
Proof.
  apply (parsed_note_can_be_fetched default_settings
           (an_env api_third_time_lucky 10) "a.jpg" [] None
           (a_world (CircuitBreaker_init 5 60)) diary_response
           (snd (parse_note default_settings (an_env api_third_time_lucky 10)
                            "a.jpg" [] None (a_world (CircuitBreaker_init 5 60))))
           (fun _ => "7")).
  - vm_compute. reflexivity.
  - intros r [].
Defined.



(** ** The file service *)

Lemma str_in_In x l : FileService.str_in x l = true <-> In x l.
Proof.
  unfold FileService.str_in. rewrite existsb_exists. split.
  - intros (y & Hy & E). apply String.eqb_eq in E. now subst.
  - intros H. exists x. split; [exact H | apply String.eqb_refl].
Qed.

(** X23.  What [validate_and_store] stores has passed every check: the
    lower-cased suffix of its name is one of [.png], [.jpg], [.jpeg], its
    size and a reported content length other than 0 are within
    [max_file_size], the type libmagic detects, if it detects one, is one
    of the allowed types and libmagic did not fail; the file is written
    under the date directory with a name made of the UUID and that suffix,
    and nothing else of the client's file name. *)
Theorem stored_upload_was_valid :
  forall env filename content content_length absolute relative,
    FileService.validate_and_store env filename content content_length
      = Ok (absolute, relative) ->
    let ext := FileService.fs_suffix_lower env filename in
    In ext [".png"; ".jpg"; ".jpeg"]
    /\ Z.of_nat (length content) <= FileService.fs_max_file_size env
    /\ (forall n, content_length = Some n ->
          n = 0 \/ n <= FileService.fs_max_file_size env)
    /\ (forall mime, FileService.fs_magic env content = FileService.MagicMime mime ->
          In mime ["image/png"; "image/jpeg"; "image/jpg"])
    /\ (forall msg, FileService.fs_magic env content <> FileService.MagicException msg)
    /\ relative
       = (FileService.fs_date_dir env ++ "/" ++ FileService.fs_uuid4 env ++ ext)%string
    /\ absolute = FileService.fs_absolute env relative
    /\ FileService.fs_write env absolute content = None.
Proof.
  intros env filename content content_length absolute relative H ext.
  unfold FileService.validate_and_store in H.
  unfold FileService.validate_extension in H. fold ext in H.
  destruct (FileService.str_in ext FileService.ALLOWED_EXTENSIONS) eqn:Hext;
    cbn [negb] in H; [| discriminate].
  unfold FileService.validate_size in H.
  destruct (FileService.reported_too_large env content_length) eqn:Hrep;
    [discriminate |].
  destruct (FileService.fs_max_file_size env <? Z.of_nat (length content)) eqn:Hsize;
    [discriminate |].
  unfold FileService.validate_mime_type in H.
  split; [now apply str_in_In |].
  split; [now apply Z.ltb_ge |].
  split.
  { intros n ->. unfold FileService.reported_too_large in Hrep.
    apply andb_false_iff in Hrep as [E | E].
    - left. apply negb_false_iff in E. now apply Z.eqb_eq.
    - right. now apply Z.ltb_ge. }
  assert (Hstore :
            FileService.store_file env content ext = Ok (absolute, relative)
            /\ (forall mime,
                  FileService.fs_magic env content = FileService.MagicMime mime ->
                  In mime ["image/png"; "image/jpeg"; "image/jpg"])
            /\ (forall msg,
                  FileService.fs_magic env content <> FileService.MagicException msg)).
  { destruct (FileService.fs_magic env content) as [mime | | msg];
      cbn [negb] in H; [| | discriminate].
    - destruct (FileService.str_in mime _) eqn:Hm; cbn [negb] in H; [| discriminate].
      split; [exact H |]. split; [| discriminate].
      intros ? [= <-]. now apply str_in_In in Hm.
    - destruct (FileService.str_in (FileService.mime_map_get _) _);
        cbn [negb] in H; [| discriminate].
      split; [exact H |]. split; discriminate. }
  destruct Hstore as (Hstore & Hmime & Hmagic).
  split; [exact Hmime |]. split; [exact Hmagic |].
  unfold FileService.store_file, FileService._generate_storage_path in Hstore.
  destruct (FileService.fs_write env _ content) eqn:Hw; [discriminate |].
  injection Hstore as <- <-. repeat split. exact Hw.
Qed.

Lemma stored_upload_was_valid_witness :
  let ext := FileService.fs_suffix_lower (a_file_env png_magic) "page.png" in
  In ext [".png"; ".jpg"; ".jpeg"]
  /\ Z.of_nat (length [Byte.x89; Byte.x50]) <= FileService.fs_max_file_size (a_file_env png_magic)
  /\ (forall n, Some 2 = Some n ->
        n = 0 \/ n <= FileService.fs_max_file_size (a_file_env png_magic))
  /\ (forall mime,
        FileService.fs_magic (a_file_env png_magic) [Byte.x89; Byte.x50]
          = FileService.MagicMime mime ->
        In mime ["image/png"; "image/jpeg"; "image/jpg"])
  /\ (forall msg,
        FileService.fs_magic (a_file_env png_magic) [Byte.x89; Byte.x50]
          <> FileService.MagicException msg)
  /\ "2024/01/15/1b9d6bcd-bbfd-4b2d-9b5d-ab8dfbbd4bed.png"
     = (FileService.fs_date_dir (a_file_env png_magic) ++ "/"
        ++ FileService.fs_uuid4 (a_file_env png_magic) ++ ext)%string
  /\ "/srv/storage/2024/01/15/1b9d6bcd-bbfd-4b2d-9b5d-ab8dfbbd4bed.png"
     = FileService.fs_absolute (a_file_env png_magic)
         "2024/01/15/1b9d6bcd-bbfd-4b2d-9b5d-ab8dfbbd4bed.png"
  /\ FileService.fs_write (a_file_env png_magic)
       "/srv/storage/2024/01/15/1b9d6bcd-bbfd-4b2d-9b5d-ab8dfbbd4bed.png"
       [Byte.x89; Byte.x50] = None.
Proof.
  apply (stored_upload_was_valid (a_file_env png_magic) "page.png"
           [Byte.x89; Byte.x50] (Some 2)).
  reflexivity.
Defined.

Lemma allowed_extension_cases ext :
  FileService.str_in ext FileService.ALLOWED_EXTENSIONS = true ->
  ext = ".png" \/ ext = ".jpg" \/ ext = ".jpeg".
Proof.
  intros H. apply str_in_In in H. simpl in H. intuition.
Qed.

(** X24.  Without libmagic ([import magic] fails) the content of an upload
    is never looked at: the type taken from the file name passes the type
    check for every name that passed the extension check, so
    [validate_and_store] decides by name and size alone. *)
Theorem without_libmagic_the_name_decides :
  forall env filename content content_length,
    FileService.fs_magic env content = FileService.MagicImportError ->
    FileService.validate_and_store env filename content content_length
    = match FileService.validate_extension env filename with
      | Err e => Err e
      | Ok ext =>
          match FileService.validate_size env content_length
                  (Z.of_nat (length content)) with
          | Err e => Err e
          | Ok _ => FileService.store_file env content ext
          end
      end.
Proof.
  intros env filename content content_length Hmagic.
  unfold FileService.validate_and_store.
  destruct (FileService.validate_extension env filename) as [ext | e] eqn:Hext;
    [| reflexivity].
  destruct (FileService.validate_size env content_length _) as [[] | e];
    [| reflexivity].
  unfold FileService.validate_mime_type. rewrite Hmagic.
  unfold FileService.validate_extension in Hext.
  destruct (FileService.str_in (FileService.fs_suffix_lower env filename)
              FileService.ALLOWED_EXTENSIONS) eqn:Hin;
    cbn [negb] in Hext; [| discriminate].
  injection Hext as <-.
  destruct (allowed_extension_cases _ Hin) as [-> | [-> | ->]]; reflexivity.
Qed.

Lemma without_libmagic_the_name_decides_witness :
  FileService.validate_and_store (a_file_env (fun _ => FileService.MagicImportError))
    "notes.jpeg" [Byte.x00] None
  = match FileService.validate_extension
            (a_file_env (fun _ => FileService.MagicImportError)) "notes.jpeg" with
    | Err e => Err e
    | Ok ext =>
        match FileService.validate_size
                (a_file_env (fun _ => FileService.MagicImportError)) None
                (Z.of_nat (length [Byte.x00])) with
        | Err e => Err e
        | Ok _ =>
            FileService.store_file
              (a_file_env (fun _ => FileService.MagicImportError)) [Byte.x00] ext
        end
    end.
Proof.
  apply (without_libmagic_the_name_decides
           (a_file_env (fun _ => FileService.MagicImportError))
           "notes.jpeg" [Byte.x00] None).
  reflexivity.
Defined.

(** The file service raises its two kinds of error only. *)
Lemma file_service_errors env filename content content_length e :
  FileService.validate_and_store env filename content content_length = Err e ->
  (exists m, e = ValidationError m) \/ (exists m, e = FileStorageError m).
Proof.
  unfold FileService.validate_and_store, FileService.validate_extension,
    FileService.validate_size, FileService.validate_mime_type,
    FileService.store_file, FileService._generate_storage_path.
  destruct (FileService.str_in (FileService.fs_suffix_lower env filename)
              FileService.ALLOWED_EXTENSIONS); cbn [negb];
    [| intros [= <-]; eauto].
  destruct (FileService.reported_too_large env content_length);
    [intros [= <-]; eauto |].
  destruct (FileService.fs_max_file_size env <? _); [intros [= <-]; eauto |].
  destruct (FileService.fs_magic env content) as [mime | | msg];
    [| | intros [= <-]; eauto].
  - destruct (FileService.str_in mime _); cbn [negb]; [| intros [= <-]; eauto].
    destruct (FileService.fs_write env _ content); [intros [= <-]; eauto | discriminate].
  - destruct (FileService.str_in (FileService.mime_map_get _) _); cbn [negb];
      [| intros [= <-]; eauto].
    destruct (FileService.fs_write env _ content); [intros [= <-]; eauto | discriminate].
Qed.

(** X25.  An upload that [FileService] refuses, or fails to write, leaves
    no trace in [parse_note]: the error of the file service comes out as it
    is, a [ValidationError] or a [FileStorageError], and nothing has
    happened: no note was added, the API was not called, the breaker was
    not asked. *)
Theorem refused_upload_leaves_no_trace :
  forall settings fenv env filename content content_length w e,
    FileService.validate_and_store fenv filename content content_length = Err e ->
    parse_note settings (with_file_service fenv env)
               filename content content_length w
    = (Err e, w)
    /\ ((exists m, e = ValidationError m) \/ (exists m, e = FileStorageError m)).
Proof.
  intros settings fenv env filename content content_length w e H.
  pose proof (file_service_errors _ _ _ _ _ H) as Hkind.
  split; [| exact Hkind].
  destruct Hkind as [(m & ->) | (m & ->)].
  - rewrite (parse_note_invalid settings (with_file_service fenv env)
               filename content content_length w (InvalidFile m));
      [reflexivity |].
    cbn [env_validate_and_store with_file_service]. now rewrite H.
  - rewrite (parse_note_invalid settings (with_file_service fenv env)
               filename content content_length w (StorageFailed m));
      [reflexivity |].
    cbn [env_validate_and_store with_file_service]. now rewrite H.
Qed.

Lemma refused_upload_leaves_no_trace_witness :
  parse_note default_settings
             (with_file_service (a_file_env png_magic) (an_env api_down 10))
             "notes.pdf" [Byte.x25] None (a_world (CircuitBreaker_init 5 60))
  = (Err (ValidationError
            "File type '.pdf' is not supported. Allowed types: .jpeg, .jpg, .png"),
     a_world (CircuitBreaker_init 5 60))
  /\ ((exists m,
         ValidationError
           "File type '.pdf' is not supported. Allowed types: .jpeg, .jpg, .png"
         = ValidationError m)
      \/ (exists m,
            ValidationError
              "File type '.pdf' is not supported. Allowed types: .jpeg, .jpg, .png"
            = FileStorageError m)).
Proof.
  apply (refused_upload_leaves_no_trace default_settings (a_file_env png_magic)
           (an_env api_down 10) "notes.pdf" [Byte.x25] None
           (a_world (CircuitBreaker_init 5 60))).
  reflexivity.
Defined.

(** X26.  [validate_and_store] refuses with a [ValidationError], and so
    stores nothing, every upload whose suffix is not one of the three
    allowed ones, whose content or reported content length is larger than
    [max_file_size], or whose content libmagic takes for a type that is not
    allowed, whatever its name says. *)
Theorem invalid_upload_is_refused :
  forall env filename content content_length,
    FileService.str_in (FileService.fs_suffix_lower env filename)
                       FileService.ALLOWED_EXTENSIONS = false
    \/ FileService.fs_max_file_size env < Z.of_nat (length content)
    \/ (exists n, content_length = Some n /\ n <> 0
                  /\ FileService.fs_max_file_size env < n)
    \/ (exists mime,
          FileService.fs_magic env content = FileService.MagicMime mime
          /\ FileService.str_in mime
               (List.map fst FileService.ALLOWED_MIME_TYPES) = false) ->
    exists m,
      FileService.validate_and_store env filename content content_length
      = Err (ValidationError m).
Proof.
  intros env filename content content_length H.
  unfold FileService.validate_and_store, FileService.validate_extension.
  destruct (FileService.str_in (FileService.fs_suffix_lower env filename)
              FileService.ALLOWED_EXTENSIONS) eqn:Hext; cbn [negb]; [| eauto].
  unfold FileService.validate_size.
  destruct (FileService.reported_too_large env content_length) eqn:Hrep; [eauto |].
  destruct (FileService.fs_max_file_size env <? Z.of_nat (length content)) eqn:Hsize;
    [eauto |].
  apply Z.ltb_ge in Hsize.
  destruct H as [H | [H | [(n & -> & Hn & Hlt) | (mime & Hm & Hbad)]]].
  - discriminate.
  - lia.
  - exfalso. unfold FileService.reported_too_large in Hrep.
    apply andb_false_iff in Hrep as [E | E].
    + apply negb_false_iff, Z.eqb_eq in E. contradiction.
    + apply Z.ltb_ge in E. lia.
  - unfold FileService.validate_mime_type. rewrite Hm, Hbad. cbn [negb]. eauto.
Qed.

Lemma invalid_upload_is_refused_witness :
  exists m,
    FileService.validate_and_store (a_file_env png_magic)
      "page.png" [Byte.x25; Byte.x50; Byte.x44; Byte.x46] None
    = Err (ValidationError m).
Proof.
  apply (invalid_upload_is_refused (a_file_env png_magic)
           "page.png" [Byte.x25; Byte.x50; Byte.x44; Byte.x46] None).
  do 3 right. exists "application/octet-stream". split; reflexivity.
Defined.

(** ** The handlers *)

(** X27.  Every [Exception] that [parse_note] raises meets a handler of
    its own class and never the catch-all: the answer is a 400, 500 or 503
    whose [error] is not [internal_server_error], and it carries a
    [Retry-After] header exactly when the breaker rejected the call, with
    the breaker's remaining seconds; the 503 of a failed extraction has
    none. *)
Theorem parse_failures_meet_their_handler :
  forall settings env filename content content_length w e w',
    parse_note settings env filename content content_length w = (Err e, w') ->
    is_Exception e = true ->
    exists response,
      handle_exception e = Some response
      /\ In (status_code response) [400; 500; 503]
      /\ error response <> "internal_server_error"
      /\ (forall t, retry_after_header response = Some t
                    <-> e = CircuitBreakerOpenError t).
Proof.
  intros settings env filename content content_length w e w' H Hexc.
  destruct (parse_note_errors
              settings env filename content content_length w e w' H)
    as [(m & ->) | [(m & ->) | [(m & ctx & ->) | [(t0 & ->)
        | [(ctx & ->) | (s & -> & Hs)]]]]];
    cbn [handle_exception]; try (eexists; split; [reflexivity |]);
    cbn [status_code error retry_after_header truthy_int].
  - split; [now left |]. split; [discriminate |]. intros t; split; discriminate.
  - split; [right; now left |]. split; [discriminate |].
    intros t; split; discriminate.
  - split; [right; now left |]. split; [discriminate |].
    intros t; split; discriminate.
  - split; [do 2 right; now left |]. split; [discriminate |].
    intros t; split; [intros [= ->] | intros [= ->]]; reflexivity.
  - split; [do 2 right; now left |]. split; [discriminate |].
    intros t; split; discriminate.
  - cbn [is_Exception] in Hexc. congruence.
Qed.

Lemma parse_failures_meet_their_handler_witness :
  exists response,
    handle_exception (CircuitBreakerOpenError 50) = Some response
    /\ In (status_code response) [400; 500; 503]
    /\ error response <> "internal_server_error"
    /\ (forall t, retry_after_header response = Some t
                  <-> CircuitBreakerOpenError 50 = CircuitBreakerOpenError t).
Proof.
  apply (parse_failures_meet_their_handler default_settings (an_env api_down 10)
           "a.jpg" [] None (a_world opened_breaker) (CircuitBreakerOpenError 50)
           (snd (parse_note default_settings (an_env api_down 10)
                            "a.jpg" [] None (a_world opened_breaker)))).
  - vm_compute. reflexivity.
  - reflexivity.
Defined.
